(** * utflite: UTF-8 codec, display width and grapheme navigation

    A shallow embedding of [src/utflite.c] and the properties its
    specification states about it.

    Conventions of the embedding.
    - [uint32_t] codepoints are [N].  No operation of the library can
      overflow 32 bits: [utflite_decode] shifts at most 21 bits into its
      accumulator (lemma [decode_loop_bound]), and the other functions only
      compare, mask and shift right.
    - [int] values (lengths, offsets, widths, counters) are [Z].  Signed
      overflow is undefined in C; offsets stay within [length + 4].
    - A [const char *] is the list of the bytes it points to; [text + offset]
      drops [offset] bytes, and a read past the end of the list yields
      [x00] (the C program has no defined behaviour there; lemma
      [decode_footprint] shows that [utflite_decode] never looks past
      [length]).  A pointer that the code tests against [NULL] is an
      [option].
    - An out parameter is returned next to the result: [utflite_decode]
      returns [( *codepoint, bytes consumed)].
    - [while] loops whose termination is not structural are defined by
      well-founded recursion on the distance to the loop bound. *)

From Stdlib Require Import ZArith NArith List Lia Bool.
From Stdlib.Strings Require Import Byte.
From Equations Require Import Equations.
Import ListNotations.

Local Open Scope Z_scope.

(** ** Unicode property tables *)

(** [struct utflite_unicode_range]: an inclusive range of codepoints. *)
Record utflite_unicode_range : Set := rg { range_start : N; range_end : N }.

(** [enum gcb_property]: Grapheme_Cluster_Break values of UAX #29. *)
Inductive gcb_property : Set :=
| GCB_OTHER | GCB_CR | GCB_LF | GCB_CONTROL | GCB_EXTEND | GCB_ZWJ
| GCB_REGIONAL_INDICATOR | GCB_PREPEND | GCB_SPACING_MARK
| GCB_L | GCB_V | GCB_T | GCB_LV | GCB_LVT.

Scheme Equality for gcb_property.

(** [struct gcb_range]: a range of codepoints and its property. *)
Record gcb_range : Set :=
  gr { gcb_start : N; gcb_end : N; gcb_prop : gcb_property }.

Definition HANGUL_SBASE : N := 0xAC00.
Definition HANGUL_SEND : N := 0xD7A3.
Definition HANGUL_TCOUNT : N := 28.
Definition GRAPHEME_MAX_BACKTRACK : nat := 128.
Definition UTFLITE_REPLACEMENT_CHAR : N := 0xFFFD.
Definition UTFLITE_MAX_BYTES : Z := 4.

Local Open Scope N_scope.

(** [ZERO_WIDTH_RANGES]: zero-width ranges (Mn, Me, Cf), sorted by start. *)
Definition ZERO_WIDTH_RANGES : list utflite_unicode_range := [
  rg 0x0300 0x036F; rg 0x0483 0x0489; rg 0x0591 0x05BD; rg 0x05BF 0x05BF;
  rg 0x05C1 0x05C2; rg 0x05C4 0x05C5; rg 0x05C7 0x05C7; rg 0x0600 0x0605;
  rg 0x0610 0x061A; rg 0x061C 0x061C; rg 0x064B 0x065F; rg 0x0670 0x0670;
  rg 0x06D6 0x06DD; rg 0x06DF 0x06E4; rg 0x06E7 0x06E8; rg 0x06EA 0x06ED;
  rg 0x070F 0x070F; rg 0x0711 0x0711; rg 0x0730 0x074A; rg 0x07A6 0x07B0;
  rg 0x07EB 0x07F3; rg 0x07FD 0x07FD; rg 0x0816 0x0819; rg 0x081B 0x0823;
  rg 0x0825 0x0827; rg 0x0829 0x082D; rg 0x0859 0x085B; rg 0x0890 0x0891;
  rg 0x0897 0x089F; rg 0x08CA 0x0902; rg 0x093A 0x093A; rg 0x093C 0x093C;
  rg 0x0941 0x0948; rg 0x094D 0x094D; rg 0x0951 0x0957; rg 0x0962 0x0963;
  rg 0x0981 0x0981; rg 0x09BC 0x09BC; rg 0x09C1 0x09C4; rg 0x09CD 0x09CD;
  rg 0x09E2 0x09E3; rg 0x09FE 0x09FE; rg 0x0A01 0x0A02; rg 0x0A3C 0x0A3C;
  rg 0x0A41 0x0A42; rg 0x0A47 0x0A48; rg 0x0A4B 0x0A4D; rg 0x0A51 0x0A51;
  rg 0x0A70 0x0A71; rg 0x0A75 0x0A75; rg 0x0A81 0x0A82; rg 0x0ABC 0x0ABC;
  rg 0x0AC1 0x0AC5; rg 0x0AC7 0x0AC8; rg 0x0ACD 0x0ACD; rg 0x0AE2 0x0AE3;
  rg 0x0AFA 0x0AFF; rg 0x0B01 0x0B01; rg 0x0B3C 0x0B3C; rg 0x0B3F 0x0B3F;
  rg 0x0B41 0x0B44; rg 0x0B4D 0x0B4D; rg 0x0B55 0x0B56; rg 0x0B62 0x0B63;
  rg 0x0B82 0x0B82; rg 0x0BC0 0x0BC0; rg 0x0BCD 0x0BCD; rg 0x0C00 0x0C00;
  rg 0x0C04 0x0C04; rg 0x0C3C 0x0C3C; rg 0x0C3E 0x0C40; rg 0x0C46 0x0C48;
  rg 0x0C4A 0x0C4D; rg 0x0C55 0x0C56; rg 0x0C62 0x0C63; rg 0x0C81 0x0C81;
  rg 0x0CBC 0x0CBC; rg 0x0CBF 0x0CBF; rg 0x0CC6 0x0CC6; rg 0x0CCC 0x0CCD;
  rg 0x0CE2 0x0CE3; rg 0x0D00 0x0D01; rg 0x0D3B 0x0D3C; rg 0x0D41 0x0D44;
  rg 0x0D4D 0x0D4D; rg 0x0D62 0x0D63; rg 0x0D81 0x0D81; rg 0x0DCA 0x0DCA;
  rg 0x0DD2 0x0DD4; rg 0x0DD6 0x0DD6; rg 0x0E31 0x0E31; rg 0x0E34 0x0E3A;
  rg 0x0E47 0x0E4E; rg 0x0EB1 0x0EB1; rg 0x0EB4 0x0EBC; rg 0x0EC8 0x0ECE;
  rg 0x0F18 0x0F19; rg 0x0F35 0x0F35; rg 0x0F37 0x0F37; rg 0x0F39 0x0F39;
  rg 0x0F71 0x0F7E; rg 0x0F80 0x0F84; rg 0x0F86 0x0F87; rg 0x0F8D 0x0F97;
  rg 0x0F99 0x0FBC; rg 0x0FC6 0x0FC6; rg 0x102D 0x1030; rg 0x1032 0x1037;
  rg 0x1039 0x103A; rg 0x103D 0x103E; rg 0x1058 0x1059; rg 0x105E 0x1060;
  rg 0x1071 0x1074; rg 0x1082 0x1082; rg 0x1085 0x1086; rg 0x108D 0x108D;
  rg 0x109D 0x109D; rg 0x135D 0x135F; rg 0x1712 0x1714; rg 0x1732 0x1733;
  rg 0x1752 0x1753; rg 0x1772 0x1773; rg 0x17B4 0x17B5; rg 0x17B7 0x17BD;
  rg 0x17C6 0x17C6; rg 0x17C9 0x17D3; rg 0x17DD 0x17DD; rg 0x180B 0x180F;
  rg 0x1885 0x1886; rg 0x18A9 0x18A9; rg 0x1920 0x1922; rg 0x1927 0x1928;
  rg 0x1932 0x1932; rg 0x1939 0x193B; rg 0x1A17 0x1A18; rg 0x1A1B 0x1A1B;
  rg 0x1A56 0x1A56; rg 0x1A58 0x1A5E; rg 0x1A60 0x1A60; rg 0x1A62 0x1A62;
  rg 0x1A65 0x1A6C; rg 0x1A73 0x1A7C; rg 0x1A7F 0x1A7F; rg 0x1AB0 0x1ADD;
  rg 0x1AE0 0x1AEB; rg 0x1B00 0x1B03; rg 0x1B34 0x1B34; rg 0x1B36 0x1B3A;
  rg 0x1B3C 0x1B3C; rg 0x1B42 0x1B42; rg 0x1B6B 0x1B73; rg 0x1B80 0x1B81;
  rg 0x1BA2 0x1BA5; rg 0x1BA8 0x1BA9; rg 0x1BAB 0x1BAD; rg 0x1BE6 0x1BE6;
  rg 0x1BE8 0x1BE9; rg 0x1BED 0x1BED; rg 0x1BEF 0x1BF1; rg 0x1C2C 0x1C33;
  rg 0x1C36 0x1C37; rg 0x1CD0 0x1CD2; rg 0x1CD4 0x1CE0; rg 0x1CE2 0x1CE8;
  rg 0x1CED 0x1CED; rg 0x1CF4 0x1CF4; rg 0x1CF8 0x1CF9; rg 0x1DC0 0x1DFF;
  rg 0x200B 0x200F; rg 0x202A 0x202E; rg 0x2060 0x2064; rg 0x2066 0x206F;
  rg 0x20D0 0x20F0; rg 0x2CEF 0x2CF1; rg 0x2D7F 0x2D7F; rg 0x2DE0 0x2DFF;
  rg 0x302A 0x302D; rg 0x3099 0x309A; rg 0xA66F 0xA672; rg 0xA674 0xA67D;
  rg 0xA69E 0xA69F; rg 0xA6F0 0xA6F1; rg 0xA802 0xA802; rg 0xA806 0xA806;
  rg 0xA80B 0xA80B; rg 0xA825 0xA826; rg 0xA82C 0xA82C; rg 0xA8C4 0xA8C5;
  rg 0xA8E0 0xA8F1; rg 0xA8FF 0xA8FF; rg 0xA926 0xA92D; rg 0xA947 0xA951;
  rg 0xA980 0xA982; rg 0xA9B3 0xA9B3; rg 0xA9B6 0xA9B9; rg 0xA9BC 0xA9BD;
  rg 0xA9E5 0xA9E5; rg 0xAA29 0xAA2E; rg 0xAA31 0xAA32; rg 0xAA35 0xAA36;
  rg 0xAA43 0xAA43; rg 0xAA4C 0xAA4C; rg 0xAA7C 0xAA7C; rg 0xAAB0 0xAAB0;
  rg 0xAAB2 0xAAB4; rg 0xAAB7 0xAAB8; rg 0xAABE 0xAABF; rg 0xAAC1 0xAAC1;
  rg 0xAAEC 0xAAED; rg 0xAAF6 0xAAF6; rg 0xABE5 0xABE5; rg 0xABE8 0xABE8;
  rg 0xABED 0xABED; rg 0xFB1E 0xFB1E; rg 0xFE00 0xFE0F; rg 0xFE20 0xFE2F;
  rg 0xFEFF 0xFEFF; rg 0xFFF9 0xFFFB; rg 0x101FD 0x101FD; rg 0x102E0 0x102E0;
  rg 0x10376 0x1037A; rg 0x10A01 0x10A03; rg 0x10A05 0x10A06; rg 0x10A0C 0x10A0F;
  rg 0x10A38 0x10A3A; rg 0x10A3F 0x10A3F; rg 0x10AE5 0x10AE6; rg 0x10D24 0x10D27;
  rg 0x10D69 0x10D6D; rg 0x10EAB 0x10EAC; rg 0x10EFA 0x10EFF; rg 0x10F46 0x10F50;
  rg 0x10F82 0x10F85; rg 0x11001 0x11001; rg 0x11038 0x11046; rg 0x11070 0x11070;
  rg 0x11073 0x11074; rg 0x1107F 0x11081; rg 0x110B3 0x110B6; rg 0x110B9 0x110BA;
  rg 0x110BD 0x110BD; rg 0x110C2 0x110C2; rg 0x110CD 0x110CD; rg 0x11100 0x11102;
  rg 0x11127 0x1112B; rg 0x1112D 0x11134; rg 0x11173 0x11173; rg 0x11180 0x11181;
  rg 0x111B6 0x111BE; rg 0x111C9 0x111CC; rg 0x111CF 0x111CF; rg 0x1122F 0x11231;
  rg 0x11234 0x11234; rg 0x11236 0x11237; rg 0x1123E 0x1123E; rg 0x11241 0x11241;
  rg 0x112DF 0x112DF; rg 0x112E3 0x112EA; rg 0x11300 0x11301; rg 0x1133B 0x1133C;
  rg 0x11340 0x11340; rg 0x11366 0x1136C; rg 0x11370 0x11374; rg 0x113BB 0x113C0;
  rg 0x113CE 0x113CE; rg 0x113D0 0x113D0; rg 0x113D2 0x113D2; rg 0x113E1 0x113E2;
  rg 0x11438 0x1143F; rg 0x11442 0x11444; rg 0x11446 0x11446; rg 0x1145E 0x1145E;
  rg 0x114B3 0x114B8; rg 0x114BA 0x114BA; rg 0x114BF 0x114C0; rg 0x114C2 0x114C3;
  rg 0x115B2 0x115B5; rg 0x115BC 0x115BD; rg 0x115BF 0x115C0; rg 0x115DC 0x115DD;
  rg 0x11633 0x1163A; rg 0x1163D 0x1163D; rg 0x1163F 0x11640; rg 0x116AB 0x116AB;
  rg 0x116AD 0x116AD; rg 0x116B0 0x116B5; rg 0x116B7 0x116B7; rg 0x1171D 0x1171D;
  rg 0x1171F 0x1171F; rg 0x11722 0x11725; rg 0x11727 0x1172B; rg 0x1182F 0x11837;
  rg 0x11839 0x1183A; rg 0x1193B 0x1193C; rg 0x1193E 0x1193E; rg 0x11943 0x11943;
  rg 0x119D4 0x119D7; rg 0x119DA 0x119DB; rg 0x119E0 0x119E0; rg 0x11A01 0x11A0A;
  rg 0x11A33 0x11A38; rg 0x11A3B 0x11A3E; rg 0x11A47 0x11A47; rg 0x11A51 0x11A56;
  rg 0x11A59 0x11A5B; rg 0x11A8A 0x11A96; rg 0x11A98 0x11A99; rg 0x11B60 0x11B60;
  rg 0x11B62 0x11B64; rg 0x11B66 0x11B66; rg 0x11C30 0x11C36; rg 0x11C38 0x11C3D;
  rg 0x11C3F 0x11C3F; rg 0x11C92 0x11CA7; rg 0x11CAA 0x11CB0; rg 0x11CB2 0x11CB3;
  rg 0x11CB5 0x11CB6; rg 0x11D31 0x11D36; rg 0x11D3A 0x11D3A; rg 0x11D3C 0x11D3D;
  rg 0x11D3F 0x11D45; rg 0x11D47 0x11D47; rg 0x11D90 0x11D91; rg 0x11D95 0x11D95;
  rg 0x11D97 0x11D97; rg 0x11EF3 0x11EF4; rg 0x11F00 0x11F01; rg 0x11F36 0x11F3A;
  rg 0x11F40 0x11F40; rg 0x11F42 0x11F42; rg 0x11F5A 0x11F5A; rg 0x13430 0x13440;
  rg 0x13447 0x13455; rg 0x1611E 0x16129; rg 0x1612D 0x1612F; rg 0x16AF0 0x16AF4;
  rg 0x16B30 0x16B36; rg 0x16F4F 0x16F4F; rg 0x16F8F 0x16F92; rg 0x16FE4 0x16FE4;
  rg 0x1BC9D 0x1BC9E; rg 0x1BCA0 0x1BCA3; rg 0x1CF00 0x1CF2D; rg 0x1CF30 0x1CF46;
  rg 0x1D167 0x1D169; rg 0x1D173 0x1D182; rg 0x1D185 0x1D18B; rg 0x1D1AA 0x1D1AD;
  rg 0x1D242 0x1D244; rg 0x1DA00 0x1DA36; rg 0x1DA3B 0x1DA6C; rg 0x1DA75 0x1DA75;
  rg 0x1DA84 0x1DA84; rg 0x1DA9B 0x1DA9F; rg 0x1DAA1 0x1DAAF; rg 0x1E000 0x1E006;
  rg 0x1E008 0x1E018; rg 0x1E01B 0x1E021; rg 0x1E023 0x1E024; rg 0x1E026 0x1E02A;
  rg 0x1E08F 0x1E08F; rg 0x1E130 0x1E136; rg 0x1E2AE 0x1E2AE; rg 0x1E2EC 0x1E2EF;
  rg 0x1E4EC 0x1E4EF; rg 0x1E5EE 0x1E5EF; rg 0x1E6E3 0x1E6E3; rg 0x1E6E6 0x1E6E6;
  rg 0x1E6EE 0x1E6EF; rg 0x1E6F5 0x1E6F5; rg 0x1E8D0 0x1E8D6; rg 0x1E944 0x1E94A;
  rg 0xE0001 0xE0001; rg 0xE0020 0xE007F; rg 0xE0100 0xE01EF
].

(** [DOUBLE_WIDTH_RANGES]: East Asian wide and fullwidth ranges and emoji, sorted by start. *)
Definition DOUBLE_WIDTH_RANGES : list utflite_unicode_range := [
  rg 0x00A9 0x00A9; rg 0x00AE 0x00AE; rg 0x1100 0x115F; rg 0x203C 0x203C;
  rg 0x2049 0x2049; rg 0x2122 0x2122; rg 0x2139 0x2139; rg 0x2194 0x2199;
  rg 0x21A9 0x21AA; rg 0x231A 0x231B; rg 0x2328 0x232A; rg 0x23CF 0x23CF;
  rg 0x23E9 0x23F3; rg 0x23F8 0x23FA; rg 0x24C2 0x24C2; rg 0x25AA 0x25AB;
  rg 0x25B6 0x25B6; rg 0x25C0 0x25C0; rg 0x25FB 0x25FE; rg 0x2600 0x2604;
  rg 0x260E 0x260E; rg 0x2611 0x2611; rg 0x2614 0x2615; rg 0x2618 0x2618;
  rg 0x261D 0x261D; rg 0x2620 0x2620; rg 0x2622 0x2623; rg 0x2626 0x2626;
  rg 0x262A 0x262A; rg 0x262E 0x263A; rg 0x2640 0x2640; rg 0x2642 0x2642;
  rg 0x2648 0x2653; rg 0x265F 0x2660; rg 0x2663 0x2663; rg 0x2665 0x2666;
  rg 0x2668 0x2668; rg 0x267B 0x267B; rg 0x267E 0x267F; rg 0x268A 0x268F;
  rg 0x2692 0x2697; rg 0x2699 0x2699; rg 0x269B 0x269C; rg 0x26A0 0x26A1;
  rg 0x26A7 0x26A7; rg 0x26AA 0x26AB; rg 0x26B0 0x26B1; rg 0x26BD 0x26BE;
  rg 0x26C4 0x26C5; rg 0x26C8 0x26C8; rg 0x26CE 0x26CF; rg 0x26D1 0x26D1;
  rg 0x26D3 0x26D4; rg 0x26E9 0x26EA; rg 0x26F0 0x26F5; rg 0x26F7 0x26FA;
  rg 0x26FD 0x26FD; rg 0x2702 0x2702; rg 0x2705 0x2705; rg 0x2708 0x270D;
  rg 0x270F 0x270F; rg 0x2712 0x2712; rg 0x2714 0x2714; rg 0x2716 0x2716;
  rg 0x271D 0x271D; rg 0x2721 0x2721; rg 0x2728 0x2728; rg 0x2733 0x2734;
  rg 0x2744 0x2744; rg 0x2747 0x2747; rg 0x274C 0x274C; rg 0x274E 0x274E;
  rg 0x2753 0x2755; rg 0x2757 0x2757; rg 0x2763 0x2764; rg 0x2795 0x2797;
  rg 0x27A1 0x27A1; rg 0x27B0 0x27B0; rg 0x27BF 0x27BF; rg 0x2934 0x2935;
  rg 0x2B05 0x2B07; rg 0x2B1B 0x2B1C; rg 0x2B50 0x2B50; rg 0x2B55 0x2B55;
  rg 0x2E80 0x2E99; rg 0x2E9B 0x2EF3; rg 0x2F00 0x2FD5; rg 0x2FF0 0x303E;
  rg 0x3041 0x3096; rg 0x3099 0x30FF; rg 0x3105 0x312F; rg 0x3131 0x318E;
  rg 0x3190 0x31E5; rg 0x31EF 0x321E; rg 0x3220 0x3247; rg 0x3250 0xA48C;
  rg 0xA490 0xA4C6; rg 0xA960 0xA97C; rg 0xAC00 0xD7A3; rg 0xF900 0xFAFF;
  rg 0xFE10 0xFE19; rg 0xFE30 0xFE52; rg 0xFE54 0xFE66; rg 0xFE68 0xFE6B;
  rg 0xFF01 0xFF60; rg 0xFFE0 0xFFE6; rg 0x16FE0 0x16FE4; rg 0x16FF0 0x16FF6;
  rg 0x17000 0x18CD5; rg 0x18CFF 0x18D1E; rg 0x18D80 0x18DF2; rg 0x1AFF0 0x1AFF3;
  rg 0x1AFF5 0x1AFFB; rg 0x1AFFD 0x1AFFE; rg 0x1B000 0x1B122; rg 0x1B132 0x1B132;
  rg 0x1B150 0x1B152; rg 0x1B155 0x1B155; rg 0x1B164 0x1B167; rg 0x1B170 0x1B2FB;
  rg 0x1D300 0x1D356; rg 0x1D360 0x1D376; rg 0x1F004 0x1F004; rg 0x1F02C 0x1F02F;
  rg 0x1F094 0x1F09F; rg 0x1F0AF 0x1F0B0; rg 0x1F0C0 0x1F0C0; rg 0x1F0CF 0x1F0D0;
  rg 0x1F0F6 0x1F0FF; rg 0x1F170 0x1F171; rg 0x1F17E 0x1F17F; rg 0x1F18E 0x1F18E;
  rg 0x1F191 0x1F19A; rg 0x1F1AE 0x1F1E5; rg 0x1F200 0x1F321; rg 0x1F324 0x1F393;
  rg 0x1F396 0x1F397; rg 0x1F399 0x1F39B; rg 0x1F39E 0x1F3F0; rg 0x1F3F3 0x1F3F5;
  rg 0x1F3F7 0x1F4FD; rg 0x1F4FF 0x1F53D; rg 0x1F549 0x1F54E; rg 0x1F550 0x1F567;
  rg 0x1F56F 0x1F570; rg 0x1F573 0x1F57A; rg 0x1F587 0x1F587; rg 0x1F58A 0x1F58D;
  rg 0x1F590 0x1F590; rg 0x1F595 0x1F596; rg 0x1F5A4 0x1F5A5; rg 0x1F5A8 0x1F5A8;
  rg 0x1F5B1 0x1F5B2; rg 0x1F5BC 0x1F5BC; rg 0x1F5C2 0x1F5C4; rg 0x1F5D1 0x1F5D3;
  rg 0x1F5DC 0x1F5DE; rg 0x1F5E1 0x1F5E1; rg 0x1F5E3 0x1F5E3; rg 0x1F5E8 0x1F5E8;
  rg 0x1F5EF 0x1F5EF; rg 0x1F5F3 0x1F5F3; rg 0x1F5FA 0x1F64F; rg 0x1F680 0x1F6C5;
  rg 0x1F6CB 0x1F6D2; rg 0x1F6D5 0x1F6E5; rg 0x1F6E9 0x1F6E9; rg 0x1F6EB 0x1F6F0;
  rg 0x1F6F3 0x1F6FF; rg 0x1F7DA 0x1F7FF; rg 0x1F80C 0x1F80F; rg 0x1F848 0x1F84F;
  rg 0x1F85A 0x1F85F; rg 0x1F888 0x1F88F; rg 0x1F8AE 0x1F8AF; rg 0x1F8BC 0x1F8BF;
  rg 0x1F8C2 0x1F8CF; rg 0x1F8D9 0x1F8FF; rg 0x1F90C 0x1F93A; rg 0x1F93C 0x1F945;
  rg 0x1F947 0x1F9FF; rg 0x1FA58 0x1FA5F; rg 0x1FA6E 0x1FAFF; rg 0x1FC00 0x1FFFD;
  rg 0x20000 0x2FFFD; rg 0x30000 0x3FFFD
].

(** [GCB_RANGES]: property ranges of UAX #29 (LV and LVT are computed
    for the Hangul syllables, so they are absent from the table). *)
Definition GCB_RANGES : list gcb_range := [
  gr 0x0000 0x0009 GCB_CONTROL; gr 0x000A 0x000A GCB_LF; gr 0x000B 0x000C GCB_CONTROL;
  gr 0x000D 0x000D GCB_CR; gr 0x000E 0x001F GCB_CONTROL; gr 0x007F 0x009F GCB_CONTROL;
  gr 0x00AD 0x00AD GCB_CONTROL; gr 0x0300 0x036F GCB_EXTEND; gr 0x0483 0x0489 GCB_EXTEND;
  gr 0x0591 0x05BD GCB_EXTEND; gr 0x05BF 0x05BF GCB_EXTEND; gr 0x05C1 0x05C2 GCB_EXTEND;
  gr 0x05C4 0x05C5 GCB_EXTEND; gr 0x05C7 0x05C7 GCB_EXTEND; gr 0x0600 0x0605 GCB_PREPEND;
  gr 0x0610 0x061A GCB_EXTEND; gr 0x061C 0x061C GCB_CONTROL; gr 0x064B 0x065F GCB_EXTEND;
  gr 0x0670 0x0670 GCB_EXTEND; gr 0x06D6 0x06DC GCB_EXTEND; gr 0x06DD 0x06DD GCB_PREPEND;
  gr 0x06DF 0x06E4 GCB_EXTEND; gr 0x06E7 0x06E8 GCB_EXTEND; gr 0x06EA 0x06ED GCB_EXTEND;
  gr 0x070F 0x070F GCB_PREPEND; gr 0x0711 0x0711 GCB_EXTEND; gr 0x0730 0x074A GCB_EXTEND;
  gr 0x07A6 0x07B0 GCB_EXTEND; gr 0x07EB 0x07F3 GCB_EXTEND; gr 0x07FD 0x07FD GCB_EXTEND;
  gr 0x0816 0x0819 GCB_EXTEND; gr 0x081B 0x0823 GCB_EXTEND; gr 0x0825 0x0827 GCB_EXTEND;
  gr 0x0829 0x082D GCB_EXTEND; gr 0x0859 0x085B GCB_EXTEND; gr 0x0890 0x0891 GCB_PREPEND;
  gr 0x0897 0x089F GCB_EXTEND; gr 0x08CA 0x08E1 GCB_EXTEND; gr 0x08E2 0x08E2 GCB_PREPEND;
  gr 0x08E3 0x0902 GCB_EXTEND; gr 0x0903 0x0903 GCB_SPACING_MARK; gr 0x093A 0x093A GCB_EXTEND;
  gr 0x093B 0x093B GCB_SPACING_MARK; gr 0x093C 0x093C GCB_EXTEND; gr 0x093E 0x0940 GCB_SPACING_MARK;
  gr 0x0941 0x0948 GCB_EXTEND; gr 0x0949 0x094C GCB_SPACING_MARK; gr 0x094D 0x094D GCB_EXTEND;
  gr 0x094E 0x094F GCB_SPACING_MARK; gr 0x0951 0x0957 GCB_EXTEND; gr 0x0962 0x0963 GCB_EXTEND;
  gr 0x0981 0x0981 GCB_EXTEND; gr 0x0982 0x0983 GCB_SPACING_MARK; gr 0x09BC 0x09BC GCB_EXTEND;
  gr 0x09BE 0x09BE GCB_EXTEND; gr 0x09BF 0x09C0 GCB_SPACING_MARK; gr 0x09C1 0x09C4 GCB_EXTEND;
  gr 0x09C7 0x09C8 GCB_SPACING_MARK; gr 0x09CB 0x09CC GCB_SPACING_MARK; gr 0x09CD 0x09CD GCB_EXTEND;
  gr 0x09D7 0x09D7 GCB_EXTEND; gr 0x09E2 0x09E3 GCB_EXTEND; gr 0x09FE 0x09FE GCB_EXTEND;
  gr 0x0A01 0x0A02 GCB_EXTEND; gr 0x0A03 0x0A03 GCB_SPACING_MARK; gr 0x0A3C 0x0A3C GCB_EXTEND;
  gr 0x0A3E 0x0A40 GCB_SPACING_MARK; gr 0x0A41 0x0A42 GCB_EXTEND; gr 0x0A47 0x0A48 GCB_EXTEND;
  gr 0x0A4B 0x0A4D GCB_EXTEND; gr 0x0A51 0x0A51 GCB_EXTEND; gr 0x0A70 0x0A71 GCB_EXTEND;
  gr 0x0A75 0x0A75 GCB_EXTEND; gr 0x0A81 0x0A82 GCB_EXTEND; gr 0x0A83 0x0A83 GCB_SPACING_MARK;
  gr 0x0ABC 0x0ABC GCB_EXTEND; gr 0x0ABE 0x0AC0 GCB_SPACING_MARK; gr 0x0AC1 0x0AC5 GCB_EXTEND;
  gr 0x0AC7 0x0AC8 GCB_EXTEND; gr 0x0AC9 0x0AC9 GCB_SPACING_MARK; gr 0x0ACB 0x0ACC GCB_SPACING_MARK;
  gr 0x0ACD 0x0ACD GCB_EXTEND; gr 0x0AE2 0x0AE3 GCB_EXTEND; gr 0x0AFA 0x0AFF GCB_EXTEND;
  gr 0x0B01 0x0B01 GCB_EXTEND; gr 0x0B02 0x0B03 GCB_SPACING_MARK; gr 0x0B3C 0x0B3C GCB_EXTEND;
  gr 0x0B3E 0x0B3F GCB_EXTEND; gr 0x0B40 0x0B40 GCB_SPACING_MARK; gr 0x0B41 0x0B44 GCB_EXTEND;
  gr 0x0B47 0x0B48 GCB_SPACING_MARK; gr 0x0B4B 0x0B4C GCB_SPACING_MARK; gr 0x0B4D 0x0B4D GCB_EXTEND;
  gr 0x0B55 0x0B57 GCB_EXTEND; gr 0x0B62 0x0B63 GCB_EXTEND; gr 0x0B82 0x0B82 GCB_EXTEND;
  gr 0x0BBE 0x0BBE GCB_EXTEND; gr 0x0BBF 0x0BBF GCB_SPACING_MARK; gr 0x0BC0 0x0BC0 GCB_EXTEND;
  gr 0x0BC1 0x0BC2 GCB_SPACING_MARK; gr 0x0BC6 0x0BC8 GCB_SPACING_MARK; gr 0x0BCA 0x0BCC GCB_SPACING_MARK;
  gr 0x0BCD 0x0BCD GCB_EXTEND; gr 0x0BD7 0x0BD7 GCB_EXTEND; gr 0x0C00 0x0C00 GCB_EXTEND;
  gr 0x0C01 0x0C03 GCB_SPACING_MARK; gr 0x0C04 0x0C04 GCB_EXTEND; gr 0x0C3C 0x0C3C GCB_EXTEND;
  gr 0x0C3E 0x0C40 GCB_EXTEND; gr 0x0C41 0x0C44 GCB_SPACING_MARK; gr 0x0C46 0x0C48 GCB_EXTEND;
  gr 0x0C4A 0x0C4D GCB_EXTEND; gr 0x0C55 0x0C56 GCB_EXTEND; gr 0x0C62 0x0C63 GCB_EXTEND;
  gr 0x0C81 0x0C81 GCB_EXTEND; gr 0x0C82 0x0C83 GCB_SPACING_MARK; gr 0x0CBC 0x0CBC GCB_EXTEND;
  gr 0x0CBE 0x0CBE GCB_SPACING_MARK; gr 0x0CBF 0x0CC2 GCB_EXTEND; gr 0x0CC3 0x0CC4 GCB_SPACING_MARK;
  gr 0x0CC6 0x0CCB GCB_EXTEND; gr 0x0CCC 0x0CCD GCB_EXTEND; gr 0x0CD5 0x0CD6 GCB_EXTEND;
  gr 0x0CE2 0x0CE3 GCB_EXTEND; gr 0x0CF3 0x0CF3 GCB_SPACING_MARK; gr 0x0D00 0x0D01 GCB_EXTEND;
  gr 0x0D02 0x0D03 GCB_SPACING_MARK; gr 0x0D3B 0x0D3C GCB_EXTEND; gr 0x0D3E 0x0D3E GCB_EXTEND;
  gr 0x0D3F 0x0D40 GCB_SPACING_MARK; gr 0x0D41 0x0D44 GCB_EXTEND; gr 0x0D46 0x0D48 GCB_SPACING_MARK;
  gr 0x0D4A 0x0D4C GCB_SPACING_MARK; gr 0x0D4D 0x0D4D GCB_EXTEND; gr 0x0D4E 0x0D4E GCB_PREPEND;
  gr 0x0D57 0x0D57 GCB_EXTEND; gr 0x0D62 0x0D63 GCB_EXTEND; gr 0x0D81 0x0D81 GCB_EXTEND;
  gr 0x0D82 0x0D83 GCB_SPACING_MARK; gr 0x0DCA 0x0DCA GCB_EXTEND; gr 0x0DCF 0x0DCF GCB_EXTEND;
  gr 0x0DD0 0x0DD1 GCB_SPACING_MARK; gr 0x0DD2 0x0DD6 GCB_EXTEND; gr 0x0DD8 0x0DDF GCB_SPACING_MARK;
  gr 0x0DF2 0x0DF3 GCB_SPACING_MARK; gr 0x0E31 0x0E31 GCB_EXTEND; gr 0x0E33 0x0E33 GCB_SPACING_MARK;
  gr 0x0E34 0x0E3A GCB_EXTEND; gr 0x0E47 0x0E4E GCB_EXTEND; gr 0x0EB1 0x0EB1 GCB_EXTEND;
  gr 0x0EB3 0x0EB3 GCB_SPACING_MARK; gr 0x0EB4 0x0EBC GCB_EXTEND; gr 0x0EC8 0x0ECE GCB_EXTEND;
  gr 0x0F18 0x0F19 GCB_EXTEND; gr 0x0F35 0x0F35 GCB_EXTEND; gr 0x0F37 0x0F37 GCB_EXTEND;
  gr 0x0F39 0x0F39 GCB_EXTEND; gr 0x0F3E 0x0F3F GCB_SPACING_MARK; gr 0x0F71 0x0F7E GCB_EXTEND;
  gr 0x0F7F 0x0F7F GCB_SPACING_MARK; gr 0x0F80 0x0F84 GCB_EXTEND; gr 0x0F86 0x0F87 GCB_EXTEND;
  gr 0x0F8D 0x0F97 GCB_EXTEND; gr 0x0F99 0x0FBC GCB_EXTEND; gr 0x0FC6 0x0FC6 GCB_EXTEND;
  gr 0x102D 0x1030 GCB_EXTEND; gr 0x1031 0x1031 GCB_SPACING_MARK; gr 0x1032 0x1037 GCB_EXTEND;
  gr 0x1039 0x103A GCB_EXTEND; gr 0x103B 0x103C GCB_SPACING_MARK; gr 0x103D 0x103E GCB_EXTEND;
  gr 0x1056 0x1057 GCB_SPACING_MARK; gr 0x1058 0x1059 GCB_EXTEND; gr 0x105E 0x1060 GCB_EXTEND;
  gr 0x1071 0x1074 GCB_EXTEND; gr 0x1082 0x1082 GCB_EXTEND; gr 0x1084 0x1084 GCB_SPACING_MARK;
  gr 0x1085 0x1086 GCB_EXTEND; gr 0x108D 0x108D GCB_EXTEND; gr 0x109D 0x109D GCB_EXTEND;
  gr 0x1100 0x115F GCB_L; gr 0x1160 0x11A7 GCB_V; gr 0x11A8 0x11FF GCB_T;
  gr 0x135D 0x135F GCB_EXTEND; gr 0x1712 0x1715 GCB_EXTEND; gr 0x1732 0x1734 GCB_EXTEND;
  gr 0x1752 0x1753 GCB_EXTEND; gr 0x1772 0x1773 GCB_EXTEND; gr 0x17B4 0x17B5 GCB_EXTEND;
  gr 0x17B6 0x17B6 GCB_SPACING_MARK; gr 0x17B7 0x17BD GCB_EXTEND; gr 0x17BE 0x17C5 GCB_SPACING_MARK;
  gr 0x17C6 0x17C6 GCB_EXTEND; gr 0x17C7 0x17C8 GCB_SPACING_MARK; gr 0x17C9 0x17D3 GCB_EXTEND;
  gr 0x17DD 0x17DD GCB_EXTEND; gr 0x180B 0x180D GCB_EXTEND; gr 0x180E 0x180E GCB_CONTROL;
  gr 0x180F 0x180F GCB_EXTEND; gr 0x1885 0x1886 GCB_EXTEND; gr 0x18A9 0x18A9 GCB_EXTEND;
  gr 0x1920 0x1922 GCB_EXTEND; gr 0x1923 0x1926 GCB_SPACING_MARK; gr 0x1927 0x1928 GCB_EXTEND;
  gr 0x1929 0x192B GCB_SPACING_MARK; gr 0x1930 0x1931 GCB_SPACING_MARK; gr 0x1932 0x1932 GCB_EXTEND;
  gr 0x1933 0x1938 GCB_SPACING_MARK; gr 0x1939 0x193B GCB_EXTEND; gr 0x1A17 0x1A18 GCB_EXTEND;
  gr 0x1A19 0x1A1A GCB_SPACING_MARK; gr 0x1A1B 0x1A1B GCB_EXTEND; gr 0x1A55 0x1A55 GCB_SPACING_MARK;
  gr 0x1A56 0x1A56 GCB_EXTEND; gr 0x1A57 0x1A57 GCB_SPACING_MARK; gr 0x1A58 0x1A60 GCB_EXTEND;
  gr 0x1A62 0x1A62 GCB_EXTEND; gr 0x1A65 0x1A6C GCB_EXTEND; gr 0x1A6D 0x1A72 GCB_SPACING_MARK;
  gr 0x1A73 0x1A7F GCB_EXTEND; gr 0x1AB0 0x1AEB GCB_EXTEND; gr 0x1B00 0x1B03 GCB_EXTEND;
  gr 0x1B04 0x1B04 GCB_SPACING_MARK; gr 0x1B34 0x1B3C GCB_EXTEND; gr 0x1B3D 0x1B41 GCB_SPACING_MARK;
  gr 0x1B42 0x1B44 GCB_EXTEND; gr 0x1B6B 0x1B73 GCB_EXTEND; gr 0x1B80 0x1B81 GCB_EXTEND;
  gr 0x1B82 0x1B82 GCB_SPACING_MARK; gr 0x1BA1 0x1BA1 GCB_SPACING_MARK; gr 0x1BA2 0x1BA5 GCB_EXTEND;
  gr 0x1BA6 0x1BA7 GCB_SPACING_MARK; gr 0x1BA8 0x1BAD GCB_EXTEND; gr 0x1BE6 0x1BE6 GCB_EXTEND;
  gr 0x1BE7 0x1BE7 GCB_SPACING_MARK; gr 0x1BE8 0x1BE9 GCB_EXTEND; gr 0x1BEA 0x1BEC GCB_SPACING_MARK;
  gr 0x1BED 0x1BED GCB_EXTEND; gr 0x1BEE 0x1BEE GCB_SPACING_MARK; gr 0x1BEF 0x1BF3 GCB_EXTEND;
  gr 0x1C24 0x1C2B GCB_SPACING_MARK; gr 0x1C2C 0x1C33 GCB_EXTEND; gr 0x1C34 0x1C35 GCB_SPACING_MARK;
  gr 0x1C36 0x1C37 GCB_EXTEND; gr 0x1CD0 0x1CD2 GCB_EXTEND; gr 0x1CD4 0x1CE0 GCB_EXTEND;
  gr 0x1CE1 0x1CE1 GCB_SPACING_MARK; gr 0x1CE2 0x1CE8 GCB_EXTEND; gr 0x1CED 0x1CED GCB_EXTEND;
  gr 0x1CF4 0x1CF4 GCB_EXTEND; gr 0x1CF7 0x1CF7 GCB_SPACING_MARK; gr 0x1CF8 0x1CF9 GCB_EXTEND;
  gr 0x1DC0 0x1DFF GCB_EXTEND; gr 0x200B 0x200B GCB_CONTROL; gr 0x200C 0x200C GCB_EXTEND;
  gr 0x200D 0x200D GCB_ZWJ; gr 0x200E 0x200F GCB_CONTROL; gr 0x2028 0x202E GCB_CONTROL;
  gr 0x2060 0x206F GCB_CONTROL; gr 0x20D0 0x20F0 GCB_EXTEND; gr 0x2CEF 0x2CF1 GCB_EXTEND;
  gr 0x2D7F 0x2D7F GCB_EXTEND; gr 0x2DE0 0x2DFF GCB_EXTEND; gr 0x302A 0x302F GCB_EXTEND;
  gr 0x3099 0x309A GCB_EXTEND; gr 0xA66F 0xA672 GCB_EXTEND; gr 0xA674 0xA67D GCB_EXTEND;
  gr 0xA69E 0xA69F GCB_EXTEND; gr 0xA6F0 0xA6F1 GCB_EXTEND; gr 0xA802 0xA802 GCB_EXTEND;
  gr 0xA806 0xA806 GCB_EXTEND; gr 0xA80B 0xA80B GCB_EXTEND; gr 0xA823 0xA824 GCB_SPACING_MARK;
  gr 0xA825 0xA826 GCB_EXTEND; gr 0xA827 0xA827 GCB_SPACING_MARK; gr 0xA82C 0xA82C GCB_EXTEND;
  gr 0xA880 0xA881 GCB_SPACING_MARK; gr 0xA8B4 0xA8C3 GCB_SPACING_MARK; gr 0xA8C4 0xA8C5 GCB_EXTEND;
  gr 0xA8E0 0xA8F1 GCB_EXTEND; gr 0xA8FF 0xA8FF GCB_EXTEND; gr 0xA926 0xA92D GCB_EXTEND;
  gr 0xA947 0xA951 GCB_EXTEND; gr 0xA952 0xA952 GCB_SPACING_MARK; gr 0xA953 0xA953 GCB_EXTEND;
  gr 0xA960 0xA97C GCB_L; gr 0xA980 0xA982 GCB_EXTEND; gr 0xA983 0xA983 GCB_SPACING_MARK;
  gr 0xA9B3 0xA9B3 GCB_EXTEND; gr 0xA9B4 0xA9B5 GCB_SPACING_MARK; gr 0xA9B6 0xA9B9 GCB_EXTEND;
  gr 0xA9BA 0xA9BB GCB_SPACING_MARK; gr 0xA9BC 0xA9C0 GCB_EXTEND; gr 0xA9E5 0xA9E5 GCB_EXTEND;
  gr 0xAA29 0xAA2E GCB_EXTEND; gr 0xAA2F 0xAA30 GCB_SPACING_MARK; gr 0xAA31 0xAA32 GCB_EXTEND;
  gr 0xAA33 0xAA34 GCB_SPACING_MARK; gr 0xAA35 0xAA36 GCB_EXTEND; gr 0xAA43 0xAA43 GCB_EXTEND;
  gr 0xAA4C 0xAA4C GCB_EXTEND; gr 0xAA4D 0xAA4D GCB_SPACING_MARK; gr 0xAA7C 0xAA7C GCB_EXTEND;
  gr 0xAAB0 0xAAB0 GCB_EXTEND; gr 0xAAB2 0xAAB4 GCB_EXTEND; gr 0xAAB7 0xAAB8 GCB_EXTEND;
  gr 0xAABE 0xAAC1 GCB_EXTEND; gr 0xAAEB 0xAAEB GCB_SPACING_MARK; gr 0xAAEC 0xAAED GCB_EXTEND;
  gr 0xAAEE 0xAAEF GCB_SPACING_MARK; gr 0xAAF5 0xAAF5 GCB_SPACING_MARK; gr 0xAAF6 0xAAF6 GCB_EXTEND;
  gr 0xABE3 0xABE4 GCB_SPACING_MARK; gr 0xABE5 0xABE5 GCB_EXTEND; gr 0xABE6 0xABE7 GCB_SPACING_MARK;
  gr 0xABE8 0xABE8 GCB_EXTEND; gr 0xABE9 0xABEA GCB_SPACING_MARK; gr 0xABEC 0xABEC GCB_SPACING_MARK;
  gr 0xABED 0xABED GCB_EXTEND; gr 0xD7B0 0xD7C6 GCB_V; gr 0xD7CB 0xD7FB GCB_T;
  gr 0xFB1E 0xFB1E GCB_EXTEND; gr 0xFE00 0xFE0F GCB_EXTEND; gr 0xFE20 0xFE2F GCB_EXTEND;
  gr 0xFEFF 0xFEFF GCB_CONTROL; gr 0xFF9E 0xFF9F GCB_EXTEND; gr 0xFFF0 0xFFFB GCB_CONTROL;
  gr 0x101FD 0x101FD GCB_EXTEND; gr 0x102E0 0x102E0 GCB_EXTEND; gr 0x10376 0x1037A GCB_EXTEND;
  gr 0x10A01 0x10A03 GCB_EXTEND; gr 0x10A05 0x10A06 GCB_EXTEND; gr 0x10A0C 0x10A0F GCB_EXTEND;
  gr 0x10A38 0x10A3F GCB_EXTEND; gr 0x10AE5 0x10AE6 GCB_EXTEND; gr 0x10D24 0x10D27 GCB_EXTEND;
  gr 0x10D69 0x10D6D GCB_EXTEND; gr 0x10EAB 0x10EAC GCB_EXTEND; gr 0x10EFA 0x10EFF GCB_EXTEND;
  gr 0x10F46 0x10F50 GCB_EXTEND; gr 0x10F82 0x10F85 GCB_EXTEND; gr 0x11000 0x11000 GCB_SPACING_MARK;
  gr 0x11001 0x11001 GCB_EXTEND; gr 0x11002 0x11002 GCB_SPACING_MARK; gr 0x11038 0x11046 GCB_EXTEND;
  gr 0x11070 0x11070 GCB_EXTEND; gr 0x11073 0x11074 GCB_EXTEND; gr 0x1107F 0x11081 GCB_EXTEND;
  gr 0x11082 0x11082 GCB_SPACING_MARK; gr 0x110B0 0x110B2 GCB_SPACING_MARK; gr 0x110B3 0x110B6 GCB_EXTEND;
  gr 0x110B7 0x110B8 GCB_SPACING_MARK; gr 0x110B9 0x110BA GCB_EXTEND; gr 0x110BD 0x110BD GCB_PREPEND;
  gr 0x110C2 0x110C2 GCB_EXTEND; gr 0x110CD 0x110CD GCB_PREPEND; gr 0x11100 0x11102 GCB_EXTEND;
  gr 0x11127 0x1112B GCB_EXTEND; gr 0x1112C 0x1112C GCB_SPACING_MARK; gr 0x1112D 0x11134 GCB_EXTEND;
  gr 0x11145 0x11146 GCB_SPACING_MARK; gr 0x11173 0x11173 GCB_EXTEND; gr 0x11180 0x11181 GCB_EXTEND;
  gr 0x11182 0x11182 GCB_SPACING_MARK; gr 0x111B3 0x111B5 GCB_SPACING_MARK; gr 0x111B6 0x111BF GCB_EXTEND;
  gr 0x111C0 0x111C0 GCB_EXTEND; gr 0x111C2 0x111C3 GCB_PREPEND; gr 0x111C9 0x111CF GCB_EXTEND;
  gr 0x1122C 0x1122E GCB_SPACING_MARK; gr 0x1122F 0x11231 GCB_EXTEND; gr 0x11232 0x11233 GCB_SPACING_MARK;
  gr 0x11234 0x11237 GCB_EXTEND; gr 0x1123E 0x1123E GCB_EXTEND; gr 0x11241 0x11241 GCB_EXTEND;
  gr 0x112DF 0x112DF GCB_EXTEND; gr 0x112E0 0x112E2 GCB_SPACING_MARK; gr 0x112E3 0x112EA GCB_EXTEND;
  gr 0x11300 0x11301 GCB_EXTEND; gr 0x11302 0x11303 GCB_SPACING_MARK; gr 0x1133B 0x1133C GCB_EXTEND;
  gr 0x1133E 0x1133E GCB_EXTEND; gr 0x1133F 0x1133F GCB_SPACING_MARK; gr 0x11340 0x11340 GCB_EXTEND;
  gr 0x11341 0x11344 GCB_SPACING_MARK; gr 0x11347 0x11348 GCB_SPACING_MARK; gr 0x1134B 0x1134D GCB_EXTEND;
  gr 0x11357 0x11357 GCB_EXTEND; gr 0x11362 0x11363 GCB_SPACING_MARK; gr 0x11366 0x11374 GCB_EXTEND;
  gr 0x113B8 0x113C0 GCB_EXTEND; gr 0x113B9 0x113BA GCB_SPACING_MARK; gr 0x113C2 0x113D2 GCB_EXTEND;
  gr 0x113CA 0x113CD GCB_SPACING_MARK; gr 0x113D1 0x113D1 GCB_PREPEND; gr 0x113E1 0x113E2 GCB_EXTEND;
  gr 0x11435 0x11437 GCB_SPACING_MARK; gr 0x11438 0x1143F GCB_EXTEND; gr 0x11440 0x11441 GCB_SPACING_MARK;
  gr 0x11442 0x11446 GCB_EXTEND; gr 0x11445 0x11445 GCB_SPACING_MARK; gr 0x1145E 0x1145E GCB_EXTEND;
  gr 0x114B0 0x114B2 GCB_SPACING_MARK; gr 0x114B3 0x114B8 GCB_EXTEND; gr 0x114B9 0x114B9 GCB_SPACING_MARK;
  gr 0x114BA 0x114BA GCB_EXTEND; gr 0x114BB 0x114BE GCB_SPACING_MARK; gr 0x114BF 0x114C3 GCB_EXTEND;
  gr 0x114C1 0x114C1 GCB_SPACING_MARK; gr 0x115AF 0x115B1 GCB_SPACING_MARK; gr 0x115B2 0x115B5 GCB_EXTEND;
  gr 0x115B8 0x115BB GCB_SPACING_MARK; gr 0x115BC 0x115C0 GCB_EXTEND; gr 0x115BE 0x115BE GCB_SPACING_MARK;
  gr 0x115DC 0x115DD GCB_EXTEND; gr 0x11630 0x11632 GCB_SPACING_MARK; gr 0x11633 0x1163A GCB_EXTEND;
  gr 0x1163B 0x1163C GCB_SPACING_MARK; gr 0x1163D 0x11640 GCB_EXTEND; gr 0x1163E 0x1163E GCB_SPACING_MARK;
  gr 0x116AB 0x116AB GCB_EXTEND; gr 0x116AC 0x116AC GCB_SPACING_MARK; gr 0x116AD 0x116B7 GCB_EXTEND;
  gr 0x116AE 0x116AF GCB_SPACING_MARK; gr 0x1171D 0x1171F GCB_EXTEND; gr 0x1171E 0x1171E GCB_SPACING_MARK;
  gr 0x11722 0x11725 GCB_EXTEND; gr 0x11726 0x11726 GCB_SPACING_MARK; gr 0x11727 0x1172B GCB_EXTEND;
  gr 0x1182C 0x1182E GCB_SPACING_MARK; gr 0x1182F 0x11837 GCB_EXTEND; gr 0x11838 0x11838 GCB_SPACING_MARK;
  gr 0x11839 0x1183A GCB_EXTEND; gr 0x11930 0x11935 GCB_SPACING_MARK; gr 0x11937 0x11938 GCB_SPACING_MARK;
  gr 0x1193B 0x1193E GCB_EXTEND; gr 0x1193F 0x1193F GCB_PREPEND; gr 0x11940 0x11940 GCB_SPACING_MARK;
  gr 0x11941 0x11941 GCB_PREPEND; gr 0x11942 0x11943 GCB_EXTEND; gr 0x119D1 0x119D3 GCB_SPACING_MARK;
  gr 0x119D4 0x119DB GCB_EXTEND; gr 0x119DC 0x119DF GCB_SPACING_MARK; gr 0x119E0 0x119E0 GCB_EXTEND;
  gr 0x119E4 0x119E4 GCB_SPACING_MARK; gr 0x11A01 0x11A0A GCB_EXTEND; gr 0x11A33 0x11A38 GCB_EXTEND;
  gr 0x11A39 0x11A39 GCB_SPACING_MARK; gr 0x11A3B 0x11A47 GCB_EXTEND; gr 0x11A51 0x11A56 GCB_EXTEND;
  gr 0x11A57 0x11A58 GCB_SPACING_MARK; gr 0x11A59 0x11A5B GCB_EXTEND; gr 0x11A84 0x11A89 GCB_PREPEND;
  gr 0x11A8A 0x11A99 GCB_EXTEND; gr 0x11A97 0x11A97 GCB_SPACING_MARK; gr 0x11B60 0x11B67 GCB_EXTEND;
  gr 0x11C2F 0x11C2F GCB_SPACING_MARK; gr 0x11C30 0x11C3F GCB_EXTEND; gr 0x11C3E 0x11C3E GCB_SPACING_MARK;
  gr 0x11C92 0x11CB6 GCB_EXTEND; gr 0x11CA9 0x11CA9 GCB_SPACING_MARK; gr 0x11CB1 0x11CB1 GCB_SPACING_MARK;
  gr 0x11CB4 0x11CB4 GCB_SPACING_MARK; gr 0x11D31 0x11D47 GCB_EXTEND; gr 0x11D46 0x11D46 GCB_PREPEND;
  gr 0x11D8A 0x11D8E GCB_SPACING_MARK; gr 0x11D90 0x11D97 GCB_EXTEND; gr 0x11D93 0x11D94 GCB_SPACING_MARK;
  gr 0x11D96 0x11D96 GCB_SPACING_MARK; gr 0x11EF3 0x11EF6 GCB_EXTEND; gr 0x11EF5 0x11EF6 GCB_SPACING_MARK;
  gr 0x11F00 0x11F01 GCB_EXTEND; gr 0x11F02 0x11F02 GCB_PREPEND; gr 0x11F03 0x11F03 GCB_SPACING_MARK;
  gr 0x11F34 0x11F35 GCB_SPACING_MARK; gr 0x11F36 0x11F42 GCB_EXTEND; gr 0x11F3E 0x11F3F GCB_SPACING_MARK;
  gr 0x11F5A 0x11F5A GCB_EXTEND; gr 0x13430 0x1343F GCB_CONTROL; gr 0x13440 0x13455 GCB_EXTEND;
  gr 0x1611E 0x1612F GCB_EXTEND; gr 0x1612A 0x1612C GCB_SPACING_MARK; gr 0x16AF0 0x16AF4 GCB_EXTEND;
  gr 0x16B30 0x16B36 GCB_EXTEND; gr 0x16D63 0x16D63 GCB_V; gr 0x16D67 0x16D6A GCB_V;
  gr 0x16F4F 0x16F4F GCB_EXTEND; gr 0x16F51 0x16F87 GCB_SPACING_MARK; gr 0x16F8F 0x16F92 GCB_EXTEND;
  gr 0x16FE4 0x16FE4 GCB_EXTEND; gr 0x16FF0 0x16FF1 GCB_EXTEND; gr 0x1BC9D 0x1BC9E GCB_EXTEND;
  gr 0x1BCA0 0x1BCA3 GCB_CONTROL; gr 0x1CF00 0x1CF46 GCB_EXTEND; gr 0x1D165 0x1D172 GCB_EXTEND;
  gr 0x1D173 0x1D17A GCB_CONTROL; gr 0x1D17B 0x1D1AD GCB_EXTEND; gr 0x1D242 0x1D244 GCB_EXTEND;
  gr 0x1DA00 0x1DA36 GCB_EXTEND; gr 0x1DA3B 0x1DA6C GCB_EXTEND; gr 0x1DA75 0x1DA75 GCB_EXTEND;
  gr 0x1DA84 0x1DA84 GCB_EXTEND; gr 0x1DA9B 0x1DAAF GCB_EXTEND; gr 0x1E000 0x1E02A GCB_EXTEND;
  gr 0x1E08F 0x1E08F GCB_EXTEND; gr 0x1E130 0x1E136 GCB_EXTEND; gr 0x1E2AE 0x1E2AE GCB_EXTEND;
  gr 0x1E2EC 0x1E2EF GCB_EXTEND; gr 0x1E4EC 0x1E4EF GCB_EXTEND; gr 0x1E5EE 0x1E5EF GCB_EXTEND;
  gr 0x1E6E3 0x1E6F5 GCB_EXTEND; gr 0x1E8D0 0x1E8D6 GCB_EXTEND; gr 0x1E944 0x1E94A GCB_EXTEND;
  gr 0x1F1E6 0x1F1FF GCB_REGIONAL_INDICATOR; gr 0x1F3FB 0x1F3FF GCB_EXTEND; gr 0xE0000 0xE0FFF GCB_CONTROL;
  gr 0xE0020 0xE007F GCB_EXTEND; gr 0xE0100 0xE01EF GCB_EXTEND
].

(** [INCB_LINKERS]: the virama-like linkers of rule GB9c, sorted. *)
Definition INCB_LINKERS : list N := [
  0x094D; 0x09CD; 0x0ACD; 0x0B4D; 0x0C4D; 0x0D4D; 0x1039; 0x103A;
  0x1714; 0x1715; 0x17D2; 0x1A60; 0x1B44; 0x1BAA; 0x1BAB; 0xA806;
  0xA8C4; 0xA9C0; 0xAAF6; 0x10A3F; 0x11046; 0x110B9; 0x11133; 0x11134;
  0x111C0; 0x11235; 0x1134D; 0x11442; 0x114C2; 0x115BF; 0x1163F; 0x116B6;
  0x1172B; 0x11839; 0x119E0; 0x11A34; 0x11A47; 0x11A99; 0x11C3F; 0x11D45;
  0x11D97; 0x11F41; 0x11F42
].

(** [INCB_CONSONANTS]: Indic consonant ranges of rule GB9c. *)
Definition INCB_CONSONANTS : list utflite_unicode_range := [
  rg 0x0915 0x0939; rg 0x0958 0x095F; rg 0x0978 0x097F; rg 0x0995 0x09A8;
  rg 0x09AA 0x09B0; rg 0x09B2 0x09B2; rg 0x09B6 0x09B9; rg 0x09DC 0x09DD;
  rg 0x09DF 0x09E1; rg 0x09F0 0x09F1; rg 0x0A15 0x0A28; rg 0x0A2A 0x0A30;
  rg 0x0A32 0x0A33; rg 0x0A35 0x0A36; rg 0x0A38 0x0A39; rg 0x0A59 0x0A5C;
  rg 0x0A5E 0x0A5E; rg 0x0A72 0x0A74; rg 0x0A95 0x0AA8; rg 0x0AAA 0x0AB0;
  rg 0x0AB2 0x0AB3; rg 0x0AB5 0x0AB9; rg 0x0AE0 0x0AE1; rg 0x0B15 0x0B28;
  rg 0x0B2A 0x0B30; rg 0x0B32 0x0B33; rg 0x0B35 0x0B39; rg 0x0B5C 0x0B5D;
  rg 0x0B5F 0x0B61; rg 0x0B71 0x0B71; rg 0x0B95 0x0B95; rg 0x0B99 0x0B9A;
  rg 0x0B9C 0x0B9C; rg 0x0B9E 0x0B9F; rg 0x0BA3 0x0BA4; rg 0x0BA8 0x0BAA;
  rg 0x0BAE 0x0BB9; rg 0x0C15 0x0C28; rg 0x0C2A 0x0C39; rg 0x0C58 0x0C5A;
  rg 0x0C5D 0x0C5D; rg 0x0C60 0x0C61; rg 0x0C95 0x0CA8; rg 0x0CAA 0x0CB3;
  rg 0x0CB5 0x0CB9; rg 0x0CDD 0x0CDE; rg 0x0CE0 0x0CE1; rg 0x0D15 0x0D3A;
  rg 0x0D54 0x0D56; rg 0x0D5F 0x0D61; rg 0x0D7A 0x0D7F; rg 0x1000 0x1025;
  rg 0x1027 0x1027; rg 0x1029 0x102A; rg 0x1050 0x1055; rg 0x105A 0x105D;
  rg 0x1061 0x1061; rg 0x1065 0x1066; rg 0x106E 0x1070; rg 0x1075 0x1081;
  rg 0x108E 0x108E; rg 0x1703 0x170C; rg 0x170E 0x1711; rg 0x1780 0x17A2;
  rg 0x17A5 0x17A7; rg 0x17A9 0x17B3; rg 0x1901 0x1922; rg 0x1930 0x1931;
  rg 0x1950 0x196D; rg 0x1980 0x19A9; rg 0x19C1 0x19C7; rg 0x1A00 0x1A16;
  rg 0x1A20 0x1A4C; rg 0x1B05 0x1B33; rg 0x1B83 0x1BA0; rg 0xA807 0xA80A;
  rg 0xA80C 0xA822; rg 0xA882 0xA8B3; rg 0xA90A 0xA925; rg 0xA930 0xA946;
  rg 0xA989 0xA98B; rg 0xA98D 0xA9B2; rg 0xAA00 0xAA28; rg 0xAA60 0xAA6F;
  rg 0xAA71 0xAA76; rg 0xAAE0 0xAAEA; rg 0x10A00 0x10A00; rg 0x10A10 0x10A13;
  rg 0x10A15 0x10A17; rg 0x10A19 0x10A35; rg 0x11005 0x11037; rg 0x11071 0x11072;
  rg 0x11075 0x11075; rg 0x11083 0x110AF; rg 0x11107 0x1112B; rg 0x11150 0x11172;
  rg 0x11183 0x111B2; rg 0x111C1 0x111C4; rg 0x11200 0x11211; rg 0x11213 0x1122B;
  rg 0x1123F 0x11240; rg 0x11284 0x11286; rg 0x11288 0x11288; rg 0x1128A 0x1128D;
  rg 0x1128F 0x1129D; rg 0x1129F 0x112A8; rg 0x11305 0x1130C; rg 0x1130F 0x11310;
  rg 0x11313 0x11328; rg 0x1132A 0x11330; rg 0x11332 0x11333; rg 0x11335 0x11339;
  rg 0x1135D 0x11361; rg 0x11400 0x11434; rg 0x11447 0x1144A; rg 0x11481 0x114AF;
  rg 0x114C4 0x114C5; rg 0x114C7 0x114C7; rg 0x11580 0x115AE; rg 0x115D8 0x115DB;
  rg 0x11600 0x1162F; rg 0x11644 0x11644; rg 0x11680 0x116AA; rg 0x116B8 0x116B8;
  rg 0x11700 0x1171A; rg 0x11800 0x1182B; rg 0x11912 0x11935; rg 0x11937 0x11938;
  rg 0x119A0 0x119A7; rg 0x119AA 0x119D0; rg 0x11A0B 0x11A32; rg 0x11A5C 0x11A89;
  rg 0x11C00 0x11C08; rg 0x11C0A 0x11C2E; rg 0x11C72 0x11C8F; rg 0x11D00 0x11D06;
  rg 0x11D08 0x11D09; rg 0x11D0B 0x11D30; rg 0x11D60 0x11D65; rg 0x11D67 0x11D68;
  rg 0x11D6A 0x11D89; rg 0x11EE0 0x11EF2; rg 0x11F02 0x11F02; rg 0x11F04 0x11F10;
  rg 0x11F12 0x11F33
].
Local Open Scope Z_scope.

Definition ZERO_WIDTH_COUNT : Z := Z.of_nat (length ZERO_WIDTH_RANGES).
Definition DOUBLE_WIDTH_COUNT : Z := Z.of_nat (length DOUBLE_WIDTH_RANGES).
Definition GCB_RANGE_COUNT : Z := Z.of_nat (length GCB_RANGES).
Definition INCB_LINKER_COUNT : Z := Z.of_nat (length INCB_LINKERS).
Definition INCB_CONSONANT_COUNT : Z := Z.of_nat (length INCB_CONSONANTS).

(** ** Internal helpers *)

(** [(low + high) / 2] on [int]: C division truncates. *)
Definition midpoint (low high : Z) : Z := (low + high) ÷ 2.

Lemma midpoint_bounds low high :
  low <= high -> low <= midpoint low high <= high.
Proof.
  unfold midpoint. intros H. Z.to_euclidean_division_equations. lia.
Qed.

(** [ranges[mid]]. *)
Definition range_at (ranges : list utflite_unicode_range) (mid : Z)
  : utflite_unicode_range :=
  nth (Z.to_nat mid) ranges (rg 0 0).

(** The loop of [unicode_range_contains], from the state [(low, high)]. *)
Equations? range_search (codepoint : N) (ranges : list utflite_unicode_range)
  (low high : Z) : Z by wf (Z.to_nat (high - low + 1)) lt :=
  range_search codepoint ranges low high with Z_le_gt_dec low high := {
    | left _ =>
        if (codepoint <? range_start (range_at ranges (midpoint low high)))%N
        then range_search codepoint ranges low (midpoint low high - 1)
        else if (range_end (range_at ranges (midpoint low high)) <? codepoint)%N
        then range_search codepoint ranges (midpoint low high + 1) high
        else 1
    | right _ => 0 }.
Proof.
  all: pose proof (midpoint_bounds low high); lia.
Qed.

(** [unicode_range_contains]: binary search of a codepoint in a table. *)
Definition unicode_range_contains (codepoint : N)
  (ranges : list utflite_unicode_range) (count : Z) : Z :=
  range_search codepoint ranges 0 (count - 1).

Definition gcb_at (mid : Z) : gcb_range :=
  nth (Z.to_nat mid) GCB_RANGES (gr 0 0 GCB_OTHER).

(** The binary search of [get_gcb]. *)
Equations? gcb_search (cp : N) (low high : Z) : gcb_property
  by wf (Z.to_nat (high - low + 1)) lt :=
  gcb_search cp low high with Z_le_gt_dec low high := {
    | left _ =>
        if (cp <? gcb_start (gcb_at (midpoint low high)))%N
        then gcb_search cp low (midpoint low high - 1)
        else if (gcb_end (gcb_at (midpoint low high)) <? cp)%N
        then gcb_search cp (midpoint low high + 1) high
        else gcb_prop (gcb_at (midpoint low high))
    | right _ => GCB_OTHER }.
Proof.
  all: pose proof (midpoint_bounds low high); lia.
Qed.

(** [get_gcb]: the Grapheme_Cluster_Break property of a codepoint. *)
Definition get_gcb (cp : N) : gcb_property :=
  if ((HANGUL_SBASE <=? cp) && (cp <=? HANGUL_SEND))%N
  then (if ((cp - HANGUL_SBASE) mod HANGUL_TCOUNT =? 0)%N then GCB_LV else GCB_LVT)
  else gcb_search cp 0 (GCB_RANGE_COUNT - 1).

(** [is_extended_pictographic]: approximated by the double-width table. *)
Definition is_extended_pictographic (cp : N) : Z :=
  unicode_range_contains cp DOUBLE_WIDTH_RANGES DOUBLE_WIDTH_COUNT.

Definition linker_at (mid : Z) : N := nth (Z.to_nat mid) INCB_LINKERS 0%N.

(** The binary search of [is_incb_linker]. *)
Equations? linker_search (cp : N) (low high : Z) : Z
  by wf (Z.to_nat (high - low + 1)) lt :=
  linker_search cp low high with Z_le_gt_dec low high := {
    | left _ =>
        if (cp <? linker_at (midpoint low high))%N
        then linker_search cp low (midpoint low high - 1)
        else if (linker_at (midpoint low high) <? cp)%N
        then linker_search cp (midpoint low high + 1) high
        else 1
    | right _ => 0 }.
Proof.
  all: pose proof (midpoint_bounds low high); lia.
Qed.

Definition is_incb_linker (cp : N) : Z :=
  linker_search cp 0 (INCB_LINKER_COUNT - 1).

Definition is_incb_consonant (cp : N) : Z :=
  unicode_range_contains cp INCB_CONSONANTS INCB_CONSONANT_COUNT.

(** ** Bytes and buffers *)

(** [(unsigned char)c]. *)
Definition uchar (c : byte) : N := Byte.to_N c.

(** [(char)n]: the low eight bits of [n]. *)
Definition to_char (n : N) : byte :=
  match Byte.of_N (n mod 256) with Some c => c | None => x00 end.

(** [text[i]]. *)
Definition load (text : list byte) (i : Z) : byte := nth (Z.to_nat i) text x00.

(** [text + offset]. *)
Definition advance (text : list byte) (offset : Z) : list byte :=
  skipn (Z.to_nat offset) text.

(** [buffer[i] = c]; the buffer is left as it is when [i] is out of range. *)
Fixpoint store (buffer : list byte) (i : nat) (c : byte) : list byte :=
  match buffer, i with
  | [], _ => []
  | _ :: rest, O => c :: rest
  | b :: rest, S j => b :: store rest j c
  end.

(** C truth value of an [int]. *)
Definition truthy (x : Z) : bool := negb (x =? 0).

(** ** Core encoding and decoding *)

(** The lead-byte dispatch of [utflite_decode]: the declared sequence length
    and the payload bits of the first byte, or [None] for an invalid first
    byte. *)
Definition decode_lead (first : N) : option (Z * N) :=
  if (N.land first 0xE0 =? 0xC0)%N then Some (2, N.land first 0x1F)
  else if (N.land first 0xF0 =? 0xE0)%N then Some (3, N.land first 0x0F)
  else if (N.land first 0xF8 =? 0xF0)%N then Some (4, N.land first 0x07)
  else None.

(** The continuation loop [for (i = 1; i < sequence_length; i++)], with [n]
    iterations left from index [i]; [None] is the early return on a byte that
    is not a continuation byte. *)
Fixpoint decode_loop (bytes : list byte) (n : nat) (i : Z) (cp : N) : option N :=
  match n with
  | O => Some cp
  | S m =>
      if (N.land (uchar (load bytes i)) 0xC0 =? 0x80)%N
      then decode_loop bytes m (i + 1)
             (N.lor (N.shiftl cp 6) (N.land (uchar (load bytes i)) 0x3F))
      else None
  end.

(** The checks of [utflite_decode] after the loop. *)
Definition decode_check (sequence_length : Z) (cp : N) : N * Z :=
  if ((sequence_length =? 2) && (cp <? 0x80)%N)
     || ((sequence_length =? 3) && (cp <? 0x800)%N)
     || ((sequence_length =? 4) && (cp <? 0x10000)%N)
  then (UTFLITE_REPLACEMENT_CHAR, sequence_length)
  else if ((0xD800 <=? cp) && (cp <=? 0xDFFF))%N
  then (UTFLITE_REPLACEMENT_CHAR, sequence_length)
  else if (0x10FFFF <? cp)%N
  then (UTFLITE_REPLACEMENT_CHAR, sequence_length)
  else (cp, sequence_length).

(** [utflite_decode]: returns [( *codepoint, bytes consumed)]. *)
Definition utflite_decode (bytes : option (list byte)) (length : Z) : N * Z :=
  match bytes with
  | None => (UTFLITE_REPLACEMENT_CHAR, 1)
  | Some bytes =>
      if length <=? 0 then (UTFLITE_REPLACEMENT_CHAR, 1)
      else if (uchar (load bytes 0) <? 0x80)%N then (uchar (load bytes 0), 1)
      else
        match decode_lead (uchar (load bytes 0)) with
        | None => (UTFLITE_REPLACEMENT_CHAR, 1)
        | Some (sequence_length, cp0) =>
            if length <? sequence_length then (UTFLITE_REPLACEMENT_CHAR, 1)
            else
              match decode_loop bytes (Z.to_nat (sequence_length - 1)) 1 cp0 with
              | None => (UTFLITE_REPLACEMENT_CHAR, 1)
              | Some cp => decode_check sequence_length cp
              end
        end
  end.

(** [utflite_encode]: returns the byte count and the buffer after the call. *)
Definition utflite_encode (codepoint : N) (buffer : list byte) : Z * list byte :=
  if (codepoint <? 0x80)%N then
    (1, store buffer 0 (to_char codepoint))
  else if (codepoint <? 0x800)%N then
    (2, store (store buffer 0 (to_char (N.lor 0xC0 (N.shiftr codepoint 6))))
              1 (to_char (N.lor 0x80 (N.land codepoint 0x3F))))
  else if (codepoint <? 0x10000)%N then
    if ((0xD800 <=? codepoint) && (codepoint <=? 0xDFFF))%N then (0, buffer)
    else
      (3, store (store (store buffer
              0 (to_char (N.lor 0xE0 (N.shiftr codepoint 12))))
              1 (to_char (N.lor 0x80 (N.land (N.shiftr codepoint 6) 0x3F))))
              2 (to_char (N.lor 0x80 (N.land codepoint 0x3F))))
  else if (codepoint <=? 0x10FFFF)%N then
    (4, store (store (store (store buffer
            0 (to_char (N.lor 0xF0 (N.shiftr codepoint 18))))
            1 (to_char (N.lor 0x80 (N.land (N.shiftr codepoint 12) 0x3F))))
            2 (to_char (N.lor 0x80 (N.land (N.shiftr codepoint 6) 0x3F))))
            3 (to_char (N.lor 0x80 (N.land codepoint 0x3F))))
  else (0, buffer).

(** ** Character width *)

Definition utflite_codepoint_width (codepoint : N) : Z :=
  if (codepoint <? 0x20)%N then
    (if (codepoint =? 0x00)%N then 0 else -1)
  else if (codepoint <? 0x7F)%N then 1
  else if (codepoint =? 0x7F)%N then -1
  else if (codepoint <? 0xA0)%N then -1
  else if (codepoint =? 0x00AD)%N then 1
  else if truthy (unicode_range_contains codepoint ZERO_WIDTH_RANGES ZERO_WIDTH_COUNT)
  then 0
  else if truthy (unicode_range_contains codepoint DOUBLE_WIDTH_RANGES DOUBLE_WIDTH_COUNT)
  then 2
  else 1.

(** [utflite_decode(text + offset, length - offset, &codepoint)], the call
    every walker of a string makes. *)
Definition decode_at (text : list byte) (length offset : Z) : N * Z :=
  utflite_decode (Some (advance text offset)) (length - offset).

Definition utflite_char_width (text : list byte) (length offset : Z) : Z :=
  if offset >=? length then 0
  else utflite_codepoint_width (fst (decode_at text length offset)).

Definition utflite_is_zero_width (codepoint : N) : Z :=
  unicode_range_contains codepoint ZERO_WIDTH_RANGES ZERO_WIDTH_COUNT.

Definition utflite_is_wide (codepoint : N) : Z :=
  unicode_range_contains codepoint DOUBLE_WIDTH_RANGES DOUBLE_WIDTH_COUNT.

(** ** String navigation *)

Definition utflite_next_char (text : list byte) (length offset : Z) : Z :=
  if offset >=? length then length
  else
    let char_bytes := snd (decode_at text length offset) in
    let next_offset := offset + char_bytes in
    if next_offset >? length then length else next_offset.

(** The backward loop of [utflite_prev_char]. *)
Equations? prev_char_loop (text : list byte) (limit pos : Z) : Z
  by wf (Z.to_nat (pos - limit)) lt :=
  prev_char_loop text limit pos with Z_gt_le_dec pos limit := {
    | left _ =>
        if (N.land (uchar (load text pos)) 0xC0 =? 0x80)%N
        then prev_char_loop text limit (pos - 1)
        else pos
    | right _ => pos }.
Proof. lia. Qed.

Definition utflite_prev_char (text : list byte) (offset : Z) : Z :=
  if offset <=? 0 then 0
  else prev_char_loop text (if offset >? 4 then offset - 4 else 0) (offset - 1).

(** Every decode consumes at least one byte: the fact that makes the
    forward loops below terminate. *)
Lemma decode_lead_length first n cp :
  decode_lead first = Some (n, cp) -> n = 2 \/ n = 3 \/ n = 4.
Proof.
  unfold decode_lead.
  repeat match goal with |- context [if ?c then _ else _] => destruct c end;
    intros H; inversion H; auto.
Qed.

Lemma decode_check_snd n cp : snd (decode_check n cp) = n.
Proof.
  unfold decode_check.
  repeat match goal with |- context [if ?c then _ else _] => destruct c end;
    reflexivity.
Qed.

Lemma decode_consumed bytes length :
  1 <= snd (utflite_decode bytes length) <= 4.
Proof.
  unfold utflite_decode.
  destruct bytes as [bytes |]; [| simpl; lia].
  destruct (length <=? 0); [simpl; lia |].
  destruct (uchar (load bytes 0) <? 128)%N; [simpl; lia |].
  destruct (decode_lead (uchar (load bytes 0))) as [[n cp0] |] eqn:E;
    [| simpl; lia].
  apply decode_lead_length in E.
  destruct (length <? n); [simpl; lia |].
  destruct (decode_loop bytes (Z.to_nat (n - 1)) 1 cp0); [| simpl; lia].
  rewrite decode_check_snd. lia.
Qed.

Lemma next_char_progress text length offset :
  offset < length -> offset < utflite_next_char text length offset <= length.
Proof.
  intros H. unfold utflite_next_char.
  pose proof (decode_consumed (Some (advance text offset)) (length - offset)).
  unfold decode_at.
  destruct (Z.geb_spec offset length); [lia |].
  cbv zeta.
  match goal with |- context [if ?c >? ?d then _ else _] =>
    destruct (Z.gtb_spec c d) end; lia.
Qed.

(** ** Grapheme cluster navigation (UAX #29) *)

Definition is_prop (p q : gcb_property) : bool := gcb_property_beq p q.

(** [is_grapheme_break]: is there a cluster boundary between two codepoints?
    [incb_state]: 0 = not in a sequence, 1 = consonant seen,
    2 = consonant and linker seen. *)
Definition is_grapheme_break (prev_prop curr_prop : gcb_property)
  (ri_count in_ext_pict : Z) (curr_cp : N) (incb_state : Z) : Z :=
  (* GB3 *)
  if is_prop prev_prop GCB_CR && is_prop curr_prop GCB_LF then 0
  (* GB4 *)
  else if is_prop prev_prop GCB_CONTROL || is_prop prev_prop GCB_CR
          || is_prop prev_prop GCB_LF then 1
  (* GB5 *)
  else if is_prop curr_prop GCB_CONTROL || is_prop curr_prop GCB_CR
          || is_prop curr_prop GCB_LF then 1
  (* GB6 *)
  else if is_prop prev_prop GCB_L
          && (is_prop curr_prop GCB_L || is_prop curr_prop GCB_V
              || is_prop curr_prop GCB_LV || is_prop curr_prop GCB_LVT) then 0
  (* GB7 *)
  else if (is_prop prev_prop GCB_LV || is_prop prev_prop GCB_V)
          && (is_prop curr_prop GCB_V || is_prop curr_prop GCB_T) then 0
  (* GB8 *)
  else if (is_prop prev_prop GCB_LVT || is_prop prev_prop GCB_T)
          && is_prop curr_prop GCB_T then 0
  (* GB9 *)
  else if is_prop curr_prop GCB_EXTEND || is_prop curr_prop GCB_ZWJ then 0
  (* GB9a *)
  else if is_prop curr_prop GCB_SPACING_MARK then 0
  (* GB9b *)
  else if is_prop prev_prop GCB_PREPEND then 0
  (* GB9c *)
  else if (incb_state =? 2) && truthy (is_incb_consonant curr_cp) then 0
  (* GB11 *)
  else if truthy in_ext_pict && is_prop prev_prop GCB_ZWJ
          && truthy (is_extended_pictographic curr_cp) then 0
  (* GB12/GB13 *)
  else if is_prop prev_prop GCB_REGIONAL_INDICATOR
          && is_prop curr_prop GCB_REGIONAL_INDICATOR
  then (if Z.rem ri_count 2 =? 0 then 1 else 0)
  (* GB999 *)
  else 1.

(** The three state updates at the end of an iteration of
    [utflite_next_grapheme]. *)
Definition next_ri_count (curr_prop : gcb_property) (ri_count : Z) : Z :=
  if is_prop curr_prop GCB_REGIONAL_INDICATOR then ri_count + 1
  else if negb (is_prop curr_prop GCB_EXTEND) && negb (is_prop curr_prop GCB_ZWJ)
  then 0
  else ri_count.

Definition next_in_ext_pict (curr_cp : N) (curr_prop : gcb_property)
  (in_ext_pict : Z) : Z :=
  if truthy (is_extended_pictographic curr_cp) then 1
  else if negb (is_prop curr_prop GCB_EXTEND) && negb (is_prop curr_prop GCB_ZWJ)
  then 0
  else in_ext_pict.

Definition next_incb_state (curr_cp : N) (curr_prop : gcb_property)
  (incb_state : Z) : Z :=
  if truthy (is_incb_consonant curr_cp) then 1
  else if truthy (is_incb_linker curr_cp) && (incb_state >=? 1) then 2
  else if negb (is_prop curr_prop GCB_EXTEND) && negb (is_prop curr_prop GCB_ZWJ)
  then 0
  else incb_state.

(** The loop of [utflite_next_grapheme] over the following characters.
    ([prev_cp] is only assigned in the loop, never read, and is left out.) *)
Equations? next_grapheme_loop (text : list byte) (length : Z)
  (prev_prop : gcb_property) (ri_count in_ext_pict incb_state next_offset : Z)
  : Z by wf (Z.to_nat (length - next_offset)) lt :=
  next_grapheme_loop text length prev_prop ri_count in_ext_pict incb_state
    next_offset with Z_lt_ge_dec next_offset length := {
    | left _ =>
        if truthy (is_grapheme_break prev_prop
                     (get_gcb (fst (decode_at text length next_offset)))
                     ri_count in_ext_pict
                     (fst (decode_at text length next_offset)) incb_state)
        then next_offset
        else
          next_grapheme_loop text length
            (get_gcb (fst (decode_at text length next_offset)))
            (next_ri_count (get_gcb (fst (decode_at text length next_offset)))
               ri_count)
            (next_in_ext_pict (fst (decode_at text length next_offset))
               (get_gcb (fst (decode_at text length next_offset))) in_ext_pict)
            (next_incb_state (fst (decode_at text length next_offset))
               (get_gcb (fst (decode_at text length next_offset))) incb_state)
            (next_offset + snd (decode_at text length next_offset))
    | right _ => length }.
Proof.
  pose proof (decode_consumed (Some (advance text next_offset))
                (length - next_offset)).
  unfold decode_at. lia.
Qed.

Definition utflite_next_grapheme (text : option (list byte))
  (length offset : Z) : Z :=
  match text with
  | None => length
  | Some text =>
      if (offset >=? length) || (offset <? 0) then length
      else
        let prev_cp := fst (decode_at text length offset) in
        let next_offset := offset + snd (decode_at text length offset) in
        if next_offset >=? length then length
        else
          next_grapheme_loop text length (get_gcb prev_cp)
            (if is_prop (get_gcb prev_cp) GCB_REGIONAL_INDICATOR then 1 else 0)
            (is_extended_pictographic prev_cp)
            (if truthy (is_incb_consonant prev_cp) then 1 else 0)
            next_offset
  end.

(** The loop of [utflite_next_grapheme] returns an offset between the one it
    starts from and [length]. *)
Lemma next_grapheme_loop_range text length prev_prop ri ext incb next_offset :
  next_offset <= length ->
  next_offset
    <= next_grapheme_loop text length prev_prop ri ext incb next_offset
    <= length.
Proof.
  intros H.
  remember (Z.to_nat (length - next_offset)) as m eqn:Em.
  revert prev_prop ri ext incb next_offset H Em.
  induction m as [m IH] using lt_wf_ind. intros.
  rewrite next_grapheme_loop_equation_1.
  destruct (Z_lt_ge_dec next_offset length) as [Hlt | Hge]; simpl; [| lia].
  destruct (truthy _); [lia |].
  pose proof (decode_consumed (Some (advance text next_offset))
                (length - next_offset)) as Hc.
  fold (decode_at text length next_offset) in Hc.
  set (n := snd (decode_at text length next_offset)) in *.
  destruct (Z_le_gt_dec (next_offset + n) length) as [Hin | Hout].
  - match goal with |- _ <= ?x <= _ => assert (next_offset + n <= x <= length) end;
      [| lia].
    eapply IH; [| exact Hin | reflexivity]. lia.
  - rewrite next_grapheme_loop_equation_1.
    destruct (Z_lt_ge_dec (next_offset + n) length); simpl; lia.
Qed.

Lemma next_grapheme_progress text length offset :
  offset < length -> offset < utflite_next_grapheme text length offset <= length.
Proof.
  intros H. unfold utflite_next_grapheme.
  destruct text as [text |]; [| lia].
  destruct ((offset >=? length) || (offset <? 0)); [lia |].
  cbv zeta.
  pose proof (decode_consumed (Some (advance text offset)) (length - offset)) as Hc.
  fold (decode_at text length offset) in Hc.
  destruct (Z.geb_spec (offset + snd (decode_at text length offset)) length);
    [lia |].
  match goal with |- _ < next_grapheme_loop ?t ?l ?p ?r ?e ?i ?o <= _ =>
    pose proof (next_grapheme_loop_range t l p r e i o) end.
  lia.
Qed.

(** The rewind loop of [utflite_prev_grapheme]:
    [while (remaining > 0 && scan_start > 0)]. *)
Fixpoint rewind (text : list byte) (remaining : nat) (scan_start : Z) : Z :=
  match remaining with
  | O => scan_start
  | S r =>
      if scan_start >? 0 then
        if utflite_prev_char text scan_start =? scan_start then scan_start
        else rewind text r (utflite_prev_char text scan_start)
      else scan_start
  end.

(** The forward scan of [utflite_prev_grapheme]. *)
Equations? scan_forward (text : list byte) (offset curr grapheme_start : Z) : Z
  by wf (Z.to_nat (offset - curr)) lt :=
  scan_forward text offset curr grapheme_start with Z_lt_ge_dec curr offset := {
    | left _ =>
        if utflite_next_grapheme (Some text) offset curr >=? offset
        then grapheme_start
        else
          scan_forward text offset
            (utflite_next_grapheme (Some text) offset curr)
            (utflite_next_grapheme (Some text) offset curr)
    | right _ => grapheme_start }.
Proof.
  pose proof (next_grapheme_progress (Some text) offset curr) as H.
  unfold utflite_next_grapheme in H. cbv zeta in H. lia.
Qed.

Definition utflite_prev_grapheme (text : option (list byte)) (offset : Z) : Z :=
  match text with
  | None => 0
  | Some text =>
      if offset <=? 0 then 0
      else
        let prev_start := utflite_prev_char text offset in
        if (prev_start =? 0) && (offset >? 0) then 0
        else
          let scan_start := rewind text GRAPHEME_MAX_BACKTRACK prev_start in
          scan_forward text offset scan_start scan_start
  end.

(** ** Utility functions *)

(** Is [text[offset..]] something else than the three bytes of U+FFFD?
    (In C the [||] chain stops at [length - offset < 3] before it reads the
    second and third byte.) *)
Definition not_literal_replacement (text : list byte) (length offset : Z)
  : bool :=
  negb (uchar (load text offset) =? 0xEF)%N
  || (length - offset <? 3)
  || negb (uchar (load text (offset + 1)) =? 0xBF)%N
  || negb (uchar (load text (offset + 2)) =? 0xBD)%N.

(** The loop of [utflite_validate]; the second component is the value stored
    through [error_offset] when the caller passes one. *)
Equations? validate_loop (text : list byte) (length offset : Z) : Z * option Z
  by wf (Z.to_nat (length - offset)) lt :=
  validate_loop text length offset with Z_lt_ge_dec offset length := {
    | left _ =>
        if (fst (decode_at text length offset) =? UTFLITE_REPLACEMENT_CHAR)%N
           && not_literal_replacement text length offset
        then (0, Some offset)
        else validate_loop text length
               (offset + snd (decode_at text length offset))
    | right _ => (1, None) }.
Proof.
  pose proof (decode_consumed (Some (advance text offset)) (length - offset)).
  unfold decode_at. lia.
Qed.

Definition utflite_validate (text : list byte) (length : Z) : Z * option Z :=
  validate_loop text length 0.

Equations? codepoint_count_loop (text : list byte) (length count offset : Z) : Z
  by wf (Z.to_nat (length - offset)) lt :=
  codepoint_count_loop text length count offset
    with Z_lt_ge_dec offset length := {
    | left _ =>
        codepoint_count_loop text length (count + 1)
          (utflite_next_char text length offset)
    | right _ => count }.
Proof.
  pose proof (next_char_progress text length offset). lia.
Qed.

Definition utflite_codepoint_count (text : list byte) (length : Z) : Z :=
  codepoint_count_loop text length 0 0.

Equations? string_width_loop (text : list byte) (length width offset : Z) : Z
  by wf (Z.to_nat (length - offset)) lt :=
  string_width_loop text length width offset
    with Z_lt_ge_dec offset length := {
    | left _ =>
        string_width_loop text length
          (if utflite_char_width text length offset >? 0
           then width + utflite_char_width text length offset else width)
          (utflite_next_char text length offset)
    | right _ => width }.
Proof.
  pose proof (next_char_progress text length offset). lia.
Qed.

Definition utflite_string_width (text : list byte) (length : Z) : Z :=
  string_width_loop text length 0 0.

Equations? truncate_loop (text : list byte) (length max_cols width offset : Z)
  : Z by wf (Z.to_nat (length - offset)) lt :=
  truncate_loop text length max_cols width offset
    with Z_lt_ge_dec offset length := {
    | left _ =>
        if (utflite_char_width text length offset >? 0)
           && (width + utflite_char_width text length offset >? max_cols)
        then offset
        else
          truncate_loop text length max_cols
            (if utflite_char_width text length offset >? 0
             then width + utflite_char_width text length offset else width)
            (utflite_next_char text length offset)
    | right _ => length }.
Proof.
  pose proof (next_char_progress text length offset). lia.
Qed.

Definition utflite_truncate (text : list byte) (length max_cols : Z) : Z :=
  truncate_loop text length max_cols 0 0.

(** * Properties *)

(** ** The test suite of the library, replayed on the embedding *)

Definition text_A_eacute_cjk : list byte := [x41; xc3; xa9; xe4; xb8; xad].
Definition text_hello : list byte := [x48; x65; x6c; x6c; x6f].
Definition text_cjk_A : list byte := [xe4; xb8; xad; x41].

Example test_decode :
  utflite_decode (Some [x41]) 1 = (0x41%N, 1)
  /\ utflite_decode (Some [xc3; xa9]) 2 = (0xE9%N, 2)
  /\ utflite_decode (Some [xe4; xb8; xad]) 3 = (0x4E2D%N, 3)
  /\ utflite_decode (Some [xf0; x9f; x98; x80]) 4 = (0x1F600%N, 4)
  /\ utflite_decode (Some [x80]) 1 = (UTFLITE_REPLACEMENT_CHAR, 1)
  /\ utflite_decode (Some [xe4; xb8]) 2 = (UTFLITE_REPLACEMENT_CHAR, 1)
  /\ utflite_decode (Some [xc0; x80]) 2 = (UTFLITE_REPLACEMENT_CHAR, 2)
  /\ utflite_decode (Some [xed; xa0; x80]) 3 = (UTFLITE_REPLACEMENT_CHAR, 3)
  /\ utflite_decode None 0 = (UTFLITE_REPLACEMENT_CHAR, 1).
Proof. repeat split; vm_compute; reflexivity. Qed.

Example test_encode :
  utflite_encode 0x41 [x00; x00; x00; x00] = (1, [x41; x00; x00; x00])
  /\ utflite_encode 0xE9 [x00; x00; x00; x00] = (2, [xc3; xa9; x00; x00])
  /\ utflite_encode 0x4E2D [x00; x00; x00; x00] = (3, [xe4; xb8; xad; x00])
  /\ utflite_encode 0x1F600 [x00; x00; x00; x00] = (4, [xf0; x9f; x98; x80])
  /\ fst (utflite_encode 0xD800 [x00; x00; x00; x00]) = 0
  /\ fst (utflite_encode 0x110000 [x00; x00; x00; x00]) = 0.
Proof. repeat split; vm_compute; reflexivity. Qed.

Example test_width :
  utflite_codepoint_width 0x41 = 1 /\ utflite_codepoint_width 0x20 = 1
  /\ utflite_codepoint_width 0x7E = 1 /\ utflite_codepoint_width 0x00 = 0
  /\ utflite_codepoint_width 0x01 = -1 /\ utflite_codepoint_width 0x7F = -1
  /\ utflite_codepoint_width 0x9F = -1 /\ utflite_codepoint_width 0x0300 = 0
  /\ utflite_codepoint_width 0xFE00 = 0 /\ utflite_codepoint_width 0x4E2D = 2
  /\ utflite_codepoint_width 0x3042 = 2 /\ utflite_codepoint_width 0xAC00 = 2
  /\ utflite_codepoint_width 0x1F600 = 2 /\ utflite_codepoint_width 0x2764 = 2
  /\ utflite_codepoint_width 0xFF01 = 2 /\ utflite_codepoint_width 0x200B = 0
  /\ utflite_is_zero_width 0x200D = 1 /\ utflite_is_zero_width 0x41 = 0
  /\ utflite_is_wide 0x4E2D = 1 /\ utflite_is_wide 0x41 = 0.
Proof. repeat split; vm_compute; reflexivity. Qed.

Example test_navigation :
  utflite_next_char text_A_eacute_cjk 6 0 = 1
  /\ utflite_next_char text_A_eacute_cjk 6 1 = 3
  /\ utflite_next_char text_A_eacute_cjk 6 3 = 6
  /\ utflite_next_char text_A_eacute_cjk 6 6 = 6
  /\ utflite_prev_char text_A_eacute_cjk 6 = 3
  /\ utflite_prev_char text_A_eacute_cjk 3 = 1
  /\ utflite_prev_char text_A_eacute_cjk 1 = 0
  /\ utflite_prev_char text_A_eacute_cjk 0 = 0.
Proof. repeat split; vm_compute; reflexivity. Qed.

Example test_utilities :
  utflite_validate text_hello 5 = (1, None)
  /\ utflite_validate [] 0 = (1, None)
  /\ utflite_validate [x80] 1 = (0, Some 0)
  /\ utflite_validate [x41; xc0; x80] 3 = (0, Some 1)
  /\ utflite_validate [xef; xbf; xbd] 3 = (1, None)
  /\ utflite_codepoint_count text_hello 5 = 5
  /\ utflite_codepoint_count text_A_eacute_cjk 6 = 3
  /\ utflite_string_width text_hello 5 = 5
  /\ utflite_string_width text_cjk_A 4 = 3
  /\ utflite_truncate [x41; x42; x43] 3 2 = 2
  /\ utflite_truncate [x41; x42; x43] 3 10 = 3
  /\ utflite_truncate text_cjk_A 4 1 = 0
  /\ utflite_truncate text_cjk_A 4 2 = 3
  /\ utflite_truncate text_cjk_A 4 3 = 4.
Proof. repeat split; vm_compute; reflexivity. Qed.

(** A family emoji (man, ZWJ, woman, ZWJ, girl), the flag of Canada (two
    regional indicators) and ["e"] with a combining acute accent are one
    cluster each. *)
Example test_graphemes :
  utflite_next_grapheme
    (Some [xf0; x9f; x91; xa8; xe2; x80; x8d; xf0; x9f; x91; xa9;
           xe2; x80; x8d; xf0; x9f; x91; xa7]) 18 0 = 18
  /\ utflite_next_grapheme
       (Some [xf0; x9f; x87; xa8; xf0; x9f; x87; xa6]) 8 0 = 8
  /\ utflite_next_grapheme (Some [x65; xcc; x81; x41]) 4 0 = 3
  /\ utflite_prev_grapheme (Some [x41; x65; xcc; x81]) 4 = 1.
Proof. repeat split; vm_compute; reflexivity. Qed.

(** ** Table membership and the binary search *)

(** A codepoint lies in a range; a codepoint is in a table when it lies in
    one of its ranges. *)
Definition in_range (cp : N) (r : utflite_unicode_range) : bool :=
  ((range_start r <=? cp) && (cp <=? range_end r))%N.

Definition in_table (cp : N) (ranges : list utflite_unicode_range) : bool :=
  existsb (in_range cp) ranges.

(** The invariant the binary search relies on: every range is well formed
    and ends before the next one starts. *)
Fixpoint sorted_ranges (ranges : list utflite_unicode_range) : bool :=
  match ranges with
  | [] => true
  | r :: rest =>
      (range_start r <=? range_end r)%N
      && match rest with
         | [] => true
         | r' :: _ => (range_end r <? range_start r')%N
         end
      && sorted_ranges rest
  end.

Section BinarySearch.

Variable ranges : list utflite_unicode_range.
Hypothesis ranges_sorted : sorted_ranges ranges = true.

Let count : Z := Z.of_nat (length ranges).

Lemma sorted_cons r rest :
  sorted_ranges (r :: rest) = true ->
  (range_start r <= range_end r)%N
  /\ match rest with
     | [] => True
     | r' :: _ => (range_end r < range_start r')%N
     end
  /\ sorted_ranges rest = true.
Proof.
  simpl. rewrite !andb_true_iff, N.leb_le.
  destruct rest; [tauto |]. rewrite N.ltb_lt. tauto.
Qed.

Lemma sorted_tail r rest :
  sorted_ranges (r :: rest) = true -> sorted_ranges rest = true.
Proof. intros H. apply sorted_cons in H. tauto. Qed.

Lemma sorted_above r rest :
  sorted_ranges (r :: rest) = true ->
  Forall (fun r' => (range_end r < range_start r')%N) rest.
Proof.
  revert r. induction rest as [| r' rest IH]; intros r H; constructor.
  - apply sorted_cons in H. tauto.
  - destruct (sorted_cons _ _ H) as (_ & H1 & Ht).
    specialize (IH r' Ht).
    destruct (sorted_cons _ _ Ht) as (H2 & _ & _).
    eapply Forall_impl; [| exact IH].
    simpl. intros. lia.
Qed.

Lemma sorted_nth (rs : list utflite_unicode_range) (i j : nat) :
  sorted_ranges rs = true -> (i < j < length rs)%nat ->
  (range_end (nth i rs (rg 0 0)) < range_start (nth j rs (rg 0 0)))%N.
Proof.
  revert i j. induction rs as [| r rest IH]; intros i j Hs Hij.
  - simpl in Hij. lia.
  - destruct j as [| j]; [lia |].
    destruct i as [| i].
    + simpl. pose proof (sorted_above _ _ Hs) as Ha.
      rewrite Forall_forall in Ha. apply Ha. apply nth_In. simpl in Hij. lia.
    + simpl. apply IH; [exact (sorted_tail _ _ Hs) | simpl in Hij; lia].
Qed.

Lemma sorted_wf_nth (rs : list utflite_unicode_range) (i : nat) :
  sorted_ranges rs = true -> (i < length rs)%nat ->
  (range_start (nth i rs (rg 0 0)) <= range_end (nth i rs (rg 0 0)))%N.
Proof.
  revert i. induction rs as [| r rest IH]; intros i Hs Hi.
  - simpl in Hi. lia.
  - destruct (sorted_cons _ _ Hs) as (H1 & _ & Ht).
    destruct i as [| i]; simpl; [exact H1 |].
    apply IH; [exact Ht | simpl in Hi; lia].
Qed.

Lemma range_at_wf (i : Z) :
  0 <= i < count ->
  (range_start (range_at ranges i) <= range_end (range_at ranges i))%N.
Proof.
  intros Hi. unfold range_at.
  apply sorted_wf_nth; [exact ranges_sorted | subst count; lia].
Qed.

Lemma range_at_ordered (i j : Z) :
  0 <= i < j -> j < count ->
  (range_end (range_at ranges i) < range_start (range_at ranges j))%N.
Proof.
  intros Hi Hj. unfold range_at.
  apply sorted_nth; [exact ranges_sorted | subst count; lia].
Qed.

(** The search answers 0 or 1, and 1 only on a range that holds the
    codepoint. *)
Lemma range_search_sound cp low high :
  range_search cp ranges low high = 0
  \/ (range_search cp ranges low high = 1
      /\ exists k, low <= k <= high
                   /\ in_range cp (range_at ranges k) = true).
Proof.
  remember (Z.to_nat (high - low + 1)) as m eqn:Em.
  revert low high Em. induction m as [m IH] using lt_wf_ind. intros.
  rewrite range_search_equation_1.
  destruct (Z_le_gt_dec low high) as [Hle | Hgt]; simpl; [| now left].
  pose proof (midpoint_bounds low high Hle) as Hm.
  destruct (N.ltb_spec cp (range_start (range_at ranges (midpoint low high)))).
  - destruct (IH (Z.to_nat (midpoint low high - 1 - low + 1)) ltac:(lia)
                low (midpoint low high - 1) eq_refl) as [E | [E [k [Hk Hin]]]];
      [now left | right]. split; [exact E |]. exists k. split; [lia | exact Hin].
  - destruct (N.ltb_spec (range_end (range_at ranges (midpoint low high))) cp).
    + destruct (IH (Z.to_nat (high - (midpoint low high + 1) + 1)) ltac:(lia)
                  (midpoint low high + 1) high eq_refl)
        as [E | [E [k [Hk Hin]]]];
        [now left | right]. split; [exact E |]. exists k. split; [lia | exact Hin].
    + right. split; [reflexivity |]. exists (midpoint low high).
      split; [lia |]. unfold in_range.
      apply andb_true_intro. split; [apply N.leb_le | apply N.leb_le]; lia.
Qed.

(** On a sorted table the search finds every range that holds the
    codepoint. *)
Lemma range_search_complete cp low high k :
  0 <= low -> high < count -> low <= k <= high ->
  in_range cp (range_at ranges k) = true ->
  range_search cp ranges low high = 1.
Proof.
  remember (Z.to_nat (high - low + 1)) as m eqn:Em.
  revert low high Em. induction m as [m IH] using lt_wf_ind.
  intros low high Em Hlow Hhigh Hk Hin.
  rewrite range_search_equation_1.
  destruct (Z_le_gt_dec low high) as [Hle | Hgt]; simpl; [| lia].
  pose proof (midpoint_bounds low high Hle) as Hm.
  unfold in_range in Hin. apply andb_prop in Hin. destruct Hin as [H1 H2].
  apply N.leb_le in H1. apply N.leb_le in H2.
  assert (Hin : in_range cp (range_at ranges k) = true).
  { unfold in_range. apply andb_true_intro.
    split; apply N.leb_le; assumption. }
  destruct (N.ltb_spec cp (range_start (range_at ranges (midpoint low high))))
    as [Hlt | Hge].
  - assert (k < midpoint low high).
    { destruct (Z_lt_ge_dec k (midpoint low high)) as [| Hk']; [assumption |].
      destruct (Z.eq_dec k (midpoint low high)) as [-> | Hne]; [lia |].
      pose proof (range_at_ordered (midpoint low high) k ltac:(lia) ltac:(lia)).
      pose proof (range_at_wf (midpoint low high) ltac:(lia)).
      lia. }
    eapply (IH (Z.to_nat (midpoint low high - 1 - low + 1)) ltac:(lia)
               low (midpoint low high - 1) eq_refl);
      [lia | lia | lia | exact Hin].
  - destruct (N.ltb_spec (range_end (range_at ranges (midpoint low high))) cp)
      as [Hlt | Hge'].
    + assert (midpoint low high < k).
      { destruct (Z_lt_ge_dec (midpoint low high) k) as [| Hk']; [assumption |].
        destruct (Z.eq_dec k (midpoint low high)) as [-> | Hne]; [lia |].
        pose proof (range_at_ordered k (midpoint low high)
                      ltac:(lia) ltac:(lia)).
        lia. }
      eapply (IH (Z.to_nat (high - (midpoint low high + 1) + 1)) ltac:(lia)
                 (midpoint low high + 1) high eq_refl);
        [lia | lia | lia | exact Hin].
    + reflexivity.
Qed.

Lemma in_table_index cp :
  in_table cp ranges = true <->
  exists k, 0 <= k < count /\ in_range cp (range_at ranges k) = true.
Proof.
  unfold in_table. rewrite existsb_exists. split.
  - intros [r [Hr Hin]].
    destruct (In_nth _ _ (rg 0 0) Hr) as [i [Hi E]].
    exists (Z.of_nat i). split; [subst count; lia |].
    unfold range_at. rewrite Nat2Z.id, E. exact Hin.
  - intros [k [Hk Hin]]. exists (range_at ranges k). split; [| exact Hin].
    unfold range_at. apply nth_In. subst count. lia.
Qed.

(** [unicode_range_contains] decides membership in a sorted table. *)
Lemma unicode_range_contains_correct cp :
  truthy (unicode_range_contains cp ranges count) = in_table cp ranges.
Proof.
  unfold unicode_range_contains.
  destruct (range_search_sound cp 0 (count - 1)) as [E | [E [k [Hk Hin]]]].
  - rewrite E. simpl. symmetry. apply not_true_is_false. intros Ht.
    apply in_table_index in Ht. destruct Ht as [k [Hk Hin]].
    rewrite (range_search_complete cp 0 (count - 1) k) in E;
      [discriminate | lia | lia | lia | exact Hin].
  - rewrite E. simpl. symmetry. apply in_table_index.
    exists k. split; [lia | exact Hin].
Qed.

Lemma in_table_above_first cp r rest :
  ranges = r :: rest -> in_table cp ranges = true -> (range_start r <= cp)%N.
Proof.
  intros E Hin. unfold in_table in Hin. rewrite existsb_exists in Hin.
  destruct Hin as [r' [Hr' Hin]].
  unfold in_range in Hin. apply andb_prop in Hin. destruct Hin as [H1 H2].
  apply N.leb_le in H1. apply N.leb_le in H2.
  pose proof ranges_sorted as Hs. rewrite E in Hs, Hr'.
  destruct Hr' as [<- | Hr']; [lia |].
  pose proof (sorted_above _ _ Hs) as Ha. rewrite Forall_forall in Ha.
  specialize (Ha _ Hr').
  apply sorted_cons in Hs. lia.
Qed.

End BinarySearch.

Lemma zero_width_sorted : sorted_ranges ZERO_WIDTH_RANGES = true.
Proof. vm_compute. reflexivity. Qed.

Lemma double_width_sorted : sorted_ranges DOUBLE_WIDTH_RANGES = true.
Proof. vm_compute. reflexivity. Qed.

Lemma incb_consonants_sorted : sorted_ranges INCB_CONSONANTS = true.
Proof. vm_compute. reflexivity. Qed.

Lemma is_zero_width_in_table cp :
  truthy (utflite_is_zero_width cp) = in_table cp ZERO_WIDTH_RANGES.
Proof. apply unicode_range_contains_correct, zero_width_sorted. Qed.

Lemma is_wide_in_table cp :
  truthy (utflite_is_wide cp) = in_table cp DOUBLE_WIDTH_RANGES.
Proof. apply unicode_range_contains_correct, double_width_sorted. Qed.

Lemma is_extended_pictographic_in_table cp :
  truthy (is_extended_pictographic cp) = in_table cp DOUBLE_WIDTH_RANGES.
Proof. apply unicode_range_contains_correct, double_width_sorted. Qed.

Lemma is_incb_consonant_in_table cp :
  truthy (is_incb_consonant cp) = in_table cp INCB_CONSONANTS.
Proof. apply unicode_range_contains_correct, incb_consonants_sorted. Qed.

(** ** Display width *)

(** Non-printable controls: C0 without NUL, DEL, and C1. *)
Definition is_control (cp : N) : Prop :=
  (0 < cp < 0x20 \/ cp = 0x7F \/ 0x80 <= cp <= 0x9F)%N.

(** The width rule, each case read on its own: every codepoint of the
    double-width table has width 2. *)
Definition width_rule_stated (cp : N) (w : Z) : Prop :=
  (is_control cp -> w = -1)
  /\ (cp <> 0xAD%N -> cp = 0%N \/ in_table cp ZERO_WIDTH_RANGES = true -> w = 0)
  /\ (cp <> 0xAD%N -> in_table cp DOUBLE_WIDTH_RANGES = true -> w = 2)
  /\ (~ is_control cp -> cp <> 0%N ->
      in_table cp ZERO_WIDTH_RANGES = false ->
      in_table cp DOUBLE_WIDTH_RANGES = false -> w = 1)
  /\ (cp = 0xAD%N -> w = 1).

(** The width rule with the zero-width table taking precedence over the
    double-width table. *)
Definition width_rule (cp : N) (w : Z) : Prop :=
  (is_control cp -> w = -1)
  /\ (cp <> 0xAD%N -> cp = 0%N \/ in_table cp ZERO_WIDTH_RANGES = true -> w = 0)
  /\ (cp <> 0xAD%N -> in_table cp DOUBLE_WIDTH_RANGES = true ->
      in_table cp ZERO_WIDTH_RANGES = false -> w = 2)
  /\ (~ is_control cp -> cp <> 0%N ->
      in_table cp ZERO_WIDTH_RANGES = false ->
      in_table cp DOUBLE_WIDTH_RANGES = false -> w = 1)
  /\ (cp = 0xAD%N -> w = 1).

Lemma zero_width_table_min cp :
  in_table cp ZERO_WIDTH_RANGES = true -> (0x300 <= cp)%N.
Proof.
  intros H.
  exact (in_table_above_first _ zero_width_sorted cp _ _ eq_refl H).
Qed.

Lemma double_width_table_min cp :
  in_table cp DOUBLE_WIDTH_RANGES = true -> (0xA9 <= cp)%N.
Proof.
  intros H.
  exact (in_table_above_first _ double_width_sorted cp _ _ eq_refl H).
Qed.

(** The chain of tests of [utflite_codepoint_width], with the two binary
    searches replaced by table membership. *)
Lemma codepoint_width_cases cp :
  utflite_codepoint_width cp =
    if (cp <? 0x20)%N then (if (cp =? 0)%N then 0 else -1)
    else if (cp <? 0x7F)%N then 1
    else if (cp =? 0x7F)%N then -1
    else if (cp <? 0xA0)%N then -1
    else if (cp =? 0xAD)%N then 1
    else if in_table cp ZERO_WIDTH_RANGES then 0
    else if in_table cp DOUBLE_WIDTH_RANGES then 2
    else 1.
Proof.
  unfold utflite_codepoint_width.
  fold (utflite_is_zero_width cp). fold (utflite_is_wide cp).
  now rewrite is_zero_width_in_table, is_wide_in_table.
Qed.

(** C5, as stated, fails at U+302A: the codepoint is in the double-width
    table (range 0x2FF0..0x303E) and also in the zero-width table (range
    0x302A..0x302D), and its width is 0. *)
Lemma codepoint_width_stated_fails :
  in_table 0x302A DOUBLE_WIDTH_RANGES = true
  /\ utflite_codepoint_width 0x302A = 0
  /\ ~ width_rule_stated 0x302A (utflite_codepoint_width 0x302A).
Proof.
  split; [vm_compute; reflexivity |].
  split; [vm_compute; reflexivity |].
  intros (_ & _ & H & _).
  assert (E : utflite_codepoint_width 0x302A = 2).
  { apply H; [discriminate | vm_compute; reflexivity]. }
  vm_compute in E. discriminate.
Qed.

(** C5 (amended): [utflite_codepoint_width] is -1 on the non-printable
    controls, 0 on NUL and on the zero-width table, 2 on the codepoints of
    the double-width table that are not in the zero-width table, and 1
    otherwise; U+00AD has width 1. *)
Theorem codepoint_width_rule : forall cp : N,
  width_rule cp (utflite_codepoint_width cp).
Proof.
  intros cp. rewrite codepoint_width_cases. unfold width_rule, is_control.
  pose proof (zero_width_table_min cp) as Hz.
  pose proof (double_width_table_min cp) as Hd.
  destruct (N.ltb_spec cp 0x20); [destruct (N.eqb_spec cp 0) |];
    [| | destruct (N.ltb_spec cp 0x7F);
         [| destruct (N.eqb_spec cp 0x7F);
            [| destruct (N.ltb_spec cp 0xA0);
               [| destruct (N.eqb_spec cp 0xAD)]]]].
  all: destruct (in_table cp ZERO_WIDTH_RANGES) eqn:Ez;
    destruct (in_table cp DOUBLE_WIDTH_RANGES) eqn:Ed.
  all: try specialize (Hz eq_refl); try specialize (Hd eq_refl).
  all: repeat split; intros; try reflexivity; try discriminate; try lia.
  all: try (exfalso; lia).
  all: try (exfalso; intuition lia).
Qed.

(** The amended rule at U+302A: the zero-width table wins. *)
Lemma codepoint_width_rule_witness :
  utflite_codepoint_width 0x302A = 0.
Proof.
  destruct (codepoint_width_rule 0x302A) as (_ & H & _).
  apply H; [discriminate | right; vm_compute; reflexivity].
Defined.

(** ** The boundary decision *)

(** The inputs of the decision, as the specification names them. *)
Record break_input : Set := {
  prev_category : gcb_property;
  curr_category : gcb_property;
  bi_ri_count : Z;
  bi_in_ext_pict : Z;
  curr_codepoint : N;
  bi_incb_state : Z }.

(** A rule: when it applies, and its verdict ([true] = break). *)
Record break_rule : Type := {
  applies : break_input -> bool;
  verdict : break_input -> bool }.

Definition one_of (l : list gcb_property) (p : gcb_property) : bool :=
  existsb (gcb_property_beq p) l.

Definition no_break (when : break_input -> bool) : break_rule :=
  {| applies := when; verdict := fun _ => false |}.

Definition do_break (when : break_input -> bool) : break_rule :=
  {| applies := when; verdict := fun _ => true |}.

Definition is_indic_consonant (cp : N) : bool := in_table cp INCB_CONSONANTS.

(** Extended_Pictographic, approximated by the double-width table. *)
Definition extended_pictographic (cp : N) : bool :=
  in_table cp DOUBLE_WIDTH_RANGES.

(** The thirteen rules of the specification, in its order. *)
Definition break_rules : list break_rule := [
  (* 1 *) no_break (fun x => one_of [GCB_CR] (prev_category x)
                             && one_of [GCB_LF] (curr_category x));
  (* 2 *) do_break (fun x => one_of [GCB_CONTROL; GCB_CR; GCB_LF] (prev_category x));
  (* 3 *) do_break (fun x => one_of [GCB_CONTROL; GCB_CR; GCB_LF] (curr_category x));
  (* 4 *) no_break (fun x => one_of [GCB_L] (prev_category x)
                             && one_of [GCB_L; GCB_V; GCB_LV; GCB_LVT] (curr_category x));
  (* 5 *) no_break (fun x => one_of [GCB_LV; GCB_V] (prev_category x)
                             && one_of [GCB_V; GCB_T] (curr_category x));
  (* 6 *) no_break (fun x => one_of [GCB_LVT; GCB_T] (prev_category x)
                             && one_of [GCB_T] (curr_category x));
  (* 7 *) no_break (fun x => one_of [GCB_EXTEND; GCB_ZWJ] (curr_category x));
  (* 8 *) no_break (fun x => one_of [GCB_SPACING_MARK] (curr_category x));
  (* 9 *) no_break (fun x => one_of [GCB_PREPEND] (prev_category x));
  (* 10 *) no_break (fun x => (bi_incb_state x =? 2)
                              && is_indic_consonant (curr_codepoint x));
  (* 11 *) no_break (fun x => negb (bi_in_ext_pict x =? 0)
                              && one_of [GCB_ZWJ] (prev_category x)
                              && extended_pictographic (curr_codepoint x));
  (* 12 *) {| applies := fun x => one_of [GCB_REGIONAL_INDICATOR] (prev_category x)
                                  && one_of [GCB_REGIONAL_INDICATOR] (curr_category x);
              verdict := fun x => Z.even (bi_ri_count x) |};
  (* 13 *) do_break (fun _ => true) ].

(** The verdict of the first rule that applies. *)
Fixpoint first_match (rules : list break_rule) (x : break_input) : option bool :=
  match rules with
  | [] => None
  | r :: rest => if applies r x then Some (verdict r x) else first_match rest x
  end.

Lemma rem2_even n : (Z.rem n 2 =? 0) = Z.even n.
Proof.
  destruct (Z.eqb_spec (Z.rem n 2) 0) as [E | E].
  - symmetry. apply Z.even_spec. exists (n ÷ 2).
    pose proof (Z.quot_rem' n 2). lia.
  - symmetry. apply not_true_is_false. intros H. apply Z.even_spec in H.
    destruct H as [k ->]. apply E.
    rewrite Z.mul_comm. apply Z.rem_mul. lia.
Qed.

(** C1: for every combination of its inputs, [is_grapheme_break] returns
    the verdict of the first rule of the ordered list that applies (1 for a
    break, 0 for none). *)
Theorem is_grapheme_break_first_match :
  forall (prev_prop curr_prop : gcb_property) (ri_count in_ext_pict : Z)
         (curr_cp : N) (incb_state : Z),
    first_match break_rules
      {| prev_category := prev_prop; curr_category := curr_prop;
         bi_ri_count := ri_count; bi_in_ext_pict := in_ext_pict;
         curr_codepoint := curr_cp; bi_incb_state := incb_state |}
    = Some (truthy (is_grapheme_break prev_prop curr_prop ri_count in_ext_pict
                      curr_cp incb_state))
    /\ is_grapheme_break prev_prop curr_prop ri_count in_ext_pict curr_cp
         incb_state
       = Z.b2z (truthy (is_grapheme_break prev_prop curr_prop ri_count
                          in_ext_pict curr_cp incb_state)).
Proof.
  intros. unfold is_grapheme_break.
  rewrite is_incb_consonant_in_table, is_extended_pictographic_in_table.
  rewrite rem2_even.
  unfold break_rules, first_match, no_break, do_break, applies, verdict,
    is_indic_consonant, extended_pictographic, prev_category, curr_category,
    bi_ri_count, bi_in_ext_pict, curr_codepoint, bi_incb_state.
  change (truthy in_ext_pict) with (negb (in_ext_pict =? 0)).
  generalize (in_table curr_cp INCB_CONSONANTS) as consonant.
  generalize (in_table curr_cp DOUBLE_WIDTH_RANGES) as pict.
  generalize (incb_state =? 2) as linked.
  generalize (in_ext_pict =? 0) as no_pict.
  generalize (Z.even ri_count) as even.
  intros.
  destruct prev_prop, curr_prop, linked, consonant, no_pict, pict, even;
    split; reflexivity.
Qed.

(** ** Bytes, bits and arithmetic *)

Lemma uchar_to_char n : uchar (to_char n) = (n mod 256)%N.
Proof.
  unfold uchar, to_char.
  destruct (Byte.of_N (n mod 256)) as [c |] eqn:E.
  - now apply Byte.to_of_N.
  - apply Byte.of_N_None_iff in E.
    pose proof (N.mod_upper_bound n 256 ltac:(discriminate)). lia.
Qed.

Lemma uchar_to_char_small n : (n < 256)%N -> uchar (to_char n) = n.
Proof. intros H. rewrite uchar_to_char. now apply N.mod_small. Qed.

(** [a << k | x] adds when [x] fits in the [k] low bits. *)
Lemma lor_shiftl_add a k x :
  (x < 2 ^ k)%N -> N.lor (N.shiftl a k) x = (a * 2 ^ k + x)%N.
Proof.
  intros Hx.
  assert (Hd : N.land (N.shiftl a k) x = 0%N).
  { apply N.bits_inj. intros n. rewrite N.land_spec, N.bits_0.
    destruct (N.lt_ge_cases n k) as [Hn | Hn].
    - now rewrite N.shiftl_spec_low.
    - rewrite <- (N.mod_small x (2 ^ k)) by exact Hx.
      rewrite N.mod_pow2_bits_high by exact Hn. apply andb_false_r. }
  rewrite <- N.lxor_lor by exact Hd.
  rewrite <- N.add_nocarry_lxor by exact Hd.
  now rewrite N.shiftl_mul_pow2.
Qed.

Lemma land_low a k : N.land a (N.ones k) = (a mod 2 ^ k)%N.
Proof. apply N.land_ones. Qed.

(** ** The codec *)

(** The sequence length a first byte declares (110xxxxx: 2, 1110xxxx: 3,
    11110xxx: 4), when it is the first byte of a multi-byte sequence. *)
Definition declared_length (first : N) : option Z :=
  if ((0xC0 <=? first) && (first <? 0xE0))%N then Some 2
  else if ((0xE0 <=? first) && (first <? 0xF0))%N then Some 3
  else if ((0xF0 <=? first) && (first <? 0xF8))%N then Some 4
  else None.

(** A continuation byte has the bit pattern 10xxxxxx. *)
Definition is_continuation (b : N) : bool := ((0x80 <=? b) && (b <? 0xC0))%N.

(** The value a structurally well-formed sequence of [n] bytes carries. *)
Definition sequence_value (bytes : list byte) (n : Z) : N :=
  let b0 := uchar (load bytes 0) in
  let b1 := uchar (load bytes 1) in
  let b2 := uchar (load bytes 2) in
  let b3 := uchar (load bytes 3) in
  if n =? 2 then ((b0 - 0xC0) * 64 + (b1 - 0x80))%N
  else if n =? 3 then (((b0 - 0xE0) * 64 + (b1 - 0x80)) * 64 + (b2 - 0x80))%N
  else if n =? 4 then
    ((((b0 - 0xF0) * 64 + (b1 - 0x80)) * 64 + (b2 - 0x80)) * 64 + (b3 - 0x80))%N
  else 0%N.

Lemma decode_lead_declared c :
  decode_lead (uchar c) =
    match declared_length (uchar c) with
    | Some 2 => Some (2, (uchar c - 0xC0)%N)
    | Some 3 => Some (3, (uchar c - 0xE0)%N)
    | Some n => Some (n, (uchar c - 0xF0)%N)
    | None => None
    end.
Proof. destruct c; reflexivity. Qed.

Lemma declared_length_cases first n :
  declared_length first = Some n ->
  (n = 2 /\ (0xC0 <= first < 0xE0)%N) \/ (n = 3 /\ (0xE0 <= first < 0xF0)%N)
  \/ (n = 4 /\ (0xF0 <= first < 0xF8)%N).
Proof.
  unfold declared_length.
  destruct (N.leb_spec 0xC0 first); destruct (N.ltb_spec first 0xE0);
    destruct (N.leb_spec 0xE0 first); destruct (N.ltb_spec first 0xF0);
    destruct (N.leb_spec 0xF0 first); destruct (N.ltb_spec first 0xF8);
    simpl; try discriminate; intros Hn; injection Hn as <-; lia.
Qed.

Lemma continuation_test c :
  (N.land (uchar c) 0xC0 =? 0x80)%N = is_continuation (uchar c).
Proof. destruct c; reflexivity. Qed.

Lemma continuation_payload c :
  is_continuation (uchar c) = true ->
  N.land (uchar c) 0x3F = (uchar c - 0x80)%N.
Proof. destruct c; simpl; intros H; try discriminate H; reflexivity. Qed.

(** One iteration of the loop, in arithmetic. *)
Lemma decode_loop_step bytes m i cp :
  decode_loop bytes (S m) i cp =
    if is_continuation (uchar (load bytes i))
    then decode_loop bytes m (i + 1) (cp * 64 + (uchar (load bytes i) - 0x80))%N
    else None.
Proof.
  simpl. rewrite continuation_test.
  destruct (is_continuation (uchar (load bytes i))) eqn:E; [| reflexivity].
  rewrite continuation_payload by exact E.
  rewrite lor_shiftl_add; [reflexivity |].
  unfold is_continuation in E. apply andb_prop in E. destruct E as [E1 E2].
  apply N.leb_le in E1. apply N.ltb_lt in E2. simpl. lia.
Qed.

(** The accumulator of [utflite_decode] never needs more than 21 bits. *)
Lemma decode_loop_bound bytes first n cp0 cp :
  decode_lead first = Some (n, cp0) ->
  decode_loop bytes (Z.to_nat (n - 1)) 1 cp0 = Some cp -> (cp < 0x200000)%N.
Proof.
  intros Hl.
  assert (Hc : (n = 2 /\ (cp0 < 32)%N) \/ (n = 3 /\ (cp0 < 16)%N)
               \/ (n = 4 /\ (cp0 < 8)%N)).
  { unfold decode_lead in Hl.
    destruct (N.land first 224 =? 192)%N;
      [inversion Hl; subst; left; split; [reflexivity |];
       change 31%N with (N.ones 5); rewrite land_low;
       apply N.mod_upper_bound; discriminate |].
    destruct (N.land first 240 =? 224)%N;
      [inversion Hl; subst; right; left; split; [reflexivity |];
       change 15%N with (N.ones 4); rewrite land_low;
       apply N.mod_upper_bound; discriminate |].
    destruct (N.land first 248 =? 240)%N; [| discriminate].
    inversion Hl; subst; right; right; split; [reflexivity |].
    change 7%N with (N.ones 3); rewrite land_low.
    apply N.mod_upper_bound; discriminate. }
  assert (Hb : forall i, is_continuation (uchar (load bytes i)) = true ->
                         (uchar (load bytes i) - 128 < 64)%N).
  { intros i E. unfold is_continuation in E. apply andb_prop in E.
    destruct E as [E1 E2]. apply N.leb_le in E1. apply N.ltb_lt in E2. lia. }
  destruct Hc as [[-> Hc] | [[-> Hc] | [-> Hc]]].
  - change (Z.to_nat (2 - 1)) with 1%nat. rewrite decode_loop_step.
    destruct (is_continuation _) eqn:E1; [| discriminate].
    apply Hb in E1. cbn [decode_loop]. intros H. injection H as <-.
    clear Hl Hb. lia.
  - change (Z.to_nat (3 - 1)) with 2%nat. rewrite !decode_loop_step.
    simpl Z.add.
    destruct (is_continuation (uchar (load bytes 1))) eqn:E1; [| discriminate].
    destruct (is_continuation (uchar (load bytes 2))) eqn:E2; [| discriminate].
    apply Hb in E1, E2. cbn [decode_loop]. intros H. injection H as <-.
    clear Hl Hb. lia.
  - change (Z.to_nat (4 - 1)) with 3%nat. rewrite !decode_loop_step.
    simpl Z.add.
    destruct (is_continuation (uchar (load bytes 1))) eqn:E1; [| discriminate].
    destruct (is_continuation (uchar (load bytes 2))) eqn:E2; [| discriminate].
    destruct (is_continuation (uchar (load bytes 3))) eqn:E3; [| discriminate].
    apply Hb in E1, E2, E3. cbn [decode_loop]. intros H. injection H as <-.
    clear Hl Hb. lia.
Qed.

(** [utflite_decode] on a buffer, with the bit operations read as
    arithmetic: the characterisation the codec properties rest on. *)
Lemma decode_cases bytes length :
  utflite_decode (Some bytes) length =
    if length <=? 0 then (UTFLITE_REPLACEMENT_CHAR, 1)
    else if (uchar (load bytes 0) <? 0x80)%N then (uchar (load bytes 0), 1)
    else
      match declared_length (uchar (load bytes 0)) with
      | None => (UTFLITE_REPLACEMENT_CHAR, 1)
      | Some n =>
          if length <? n then (UTFLITE_REPLACEMENT_CHAR, 1)
          else if forallb (fun i => is_continuation (uchar (load bytes i)))
                    (map Z.of_nat (seq 1 (Z.to_nat (n - 1))))
          then decode_check n (sequence_value bytes n)
          else (UTFLITE_REPLACEMENT_CHAR, 1)
      end.
Proof.
  unfold utflite_decode.
  destruct (length <=? 0); [reflexivity |].
  destruct (uchar (load bytes 0) <? 128)%N; [reflexivity |].
  rewrite decode_lead_declared.
  destruct (declared_length (uchar (load bytes 0))) as [n |] eqn:El;
    [| reflexivity].
  destruct (declared_length_cases _ _ El) as [[-> Hr] | [[-> Hr] | [-> Hr]]].
  - destruct (length <? 2); [reflexivity |].
    change (Z.to_nat (2 - 1)) with 1%nat. rewrite decode_loop_step.
    simpl forallb. simpl Z.add.
    destruct (is_continuation (uchar (load bytes 1))); reflexivity.
  - destruct (length <? 3); [reflexivity |].
    change (Z.to_nat (3 - 1)) with 2%nat. rewrite !decode_loop_step.
    simpl forallb. simpl Z.add.
    destruct (is_continuation (uchar (load bytes 1))); [| reflexivity].
    destruct (is_continuation (uchar (load bytes 2))); reflexivity.
  - destruct (length <? 4); [reflexivity |].
    change (Z.to_nat (4 - 1)) with 3%nat. rewrite !decode_loop_step.
    simpl forallb. simpl Z.add.
    destruct (is_continuation (uchar (load bytes 1))); [| reflexivity].
    destruct (is_continuation (uchar (load bytes 2))); [| reflexivity].
    destruct (is_continuation (uchar (load bytes 3))); reflexivity.
Qed.

(** *** Decode errors *)

(** A first byte that starts no sequence: a continuation byte or 0xF8..0xFF. *)
Definition invalid_lead (first : N) : Prop :=
  (0x80 <= first)%N /\ declared_length first = None.

(** Structural errors: no data, an invalid first byte, fewer bytes than the
    first byte declares, or a byte of the sequence that is not a continuation
    byte. *)
Inductive structural_error (bytes : list byte) (length : Z) : Prop :=
| no_data :
    length <= 0 -> structural_error bytes length
| bad_lead :
    0 < length -> invalid_lead (uchar (load bytes 0)) ->
    structural_error bytes length
| truncated n :
    0 < length -> declared_length (uchar (load bytes 0)) = Some n ->
    length < n -> structural_error bytes length
| bad_continuation n i :
    declared_length (uchar (load bytes 0)) = Some n -> n <= length ->
    1 <= i < n -> is_continuation (uchar (load bytes i)) = false ->
    structural_error bytes length.

(** A sequence of the declared length [n] whose bytes after the first are
    all continuation bytes. *)
Definition well_formed_sequence (bytes : list byte) (length n : Z) : Prop :=
  declared_length (uchar (load bytes 0)) = Some n
  /\ n <= length
  /\ forall i, 1 <= i < n -> is_continuation (uchar (load bytes i)) = true.

(** A value that fewer bytes than [n] can carry. *)
Definition overlong (n : Z) (v : N) : Prop :=
  (n = 2 /\ (v < 0x80)%N) \/ (n = 3 /\ (v < 0x800)%N)
  \/ (n = 4 /\ (v < 0x10000)%N).

Definition surrogate (v : N) : Prop := (0xD800 <= v <= 0xDFFF)%N.

(** Semantic errors: the sequence is well formed and its value is overlong,
    a surrogate, or above U+10FFFF. *)
Definition semantic_error (bytes : list byte) (length n : Z) : Prop :=
  well_formed_sequence bytes length n
  /\ (overlong n (sequence_value bytes n)
      \/ surrogate (sequence_value bytes n)
      \/ (0x10FFFF < sequence_value bytes n)%N).

Lemma continuations_all bytes n :
  (n = 2 \/ n = 3 \/ n = 4) ->
  forallb (fun i => is_continuation (uchar (load bytes i)))
    (map Z.of_nat (seq 1 (Z.to_nat (n - 1)))) = true
  <-> forall i, 1 <= i < n -> is_continuation (uchar (load bytes i)) = true.
Proof.
  intros Hn. rewrite forallb_forall. split.
  - intros H i Hi. apply H. apply in_map_iff. exists (Z.to_nat i).
    split; [lia |]. apply in_seq. lia.
  - intros H i Hi. apply in_map_iff in Hi. destruct Hi as [k [<- Hk]].
    apply in_seq in Hk. apply H. lia.
Qed.

Lemma decode_check_error n v :
  overlong n v \/ surrogate v \/ (0x10FFFF < v)%N ->
  decode_check n v = (UTFLITE_REPLACEMENT_CHAR, n).
Proof.
  unfold decode_check, overlong, surrogate. intros [H | [H | H]].
  - destruct H as [[-> H] | [[-> H] | [-> H]]]; apply N.ltb_lt in H;
      simpl; rewrite H; reflexivity.
  - destruct (_ || _); [reflexivity |].
    destruct H as [Ha Hb]. apply N.leb_le in Ha. apply N.leb_le in Hb.
    now rewrite Ha, Hb.
  - destruct (_ || _); [reflexivity |].
    destruct (_ && _)%N; [reflexivity |].
    apply N.ltb_lt in H. now rewrite H.
Qed.

(** C2: a structural error makes [utflite_decode] return U+FFFD and consume
    one byte; a semantic error makes it return U+FFFD and consume the
    declared length of the sequence (2, 3 or 4). *)
Theorem decode_error_consumption : forall (bytes : list byte) (length : Z),
  utflite_decode None length = (UTFLITE_REPLACEMENT_CHAR, 1)
  /\ (structural_error bytes length ->
      utflite_decode (Some bytes) length = (UTFLITE_REPLACEMENT_CHAR, 1))
  /\ (forall n, semantic_error bytes length n ->
      utflite_decode (Some bytes) length = (UTFLITE_REPLACEMENT_CHAR, n)
      /\ 2 <= n <= 4).
Proof.
  intros bytes length. split; [reflexivity |]. split.
  - intros H. rewrite decode_cases.
    destruct H as [H | H [Hl Hd] | n H Hd Hn | n i Hd Hn Hi Hc].
    + destruct (Z.leb_spec length 0); [reflexivity | lia].
    + destruct (Z.leb_spec length 0); [lia |].
      destruct (N.ltb_spec (uchar (load bytes 0)) 0x80); [lia |].
      now rewrite Hd.
    + destruct (Z.leb_spec length 0); [lia |].
      destruct (declared_length_cases _ _ Hd) as [[? Hr] | [[? Hr] | [? Hr]]];
        (destruct (N.ltb_spec (uchar (load bytes 0)) 0x80); [lia |]);
        rewrite Hd; (destruct (Z.ltb_spec length n); [reflexivity | lia]).
    + destruct (Z.leb_spec length 0); [reflexivity |].
      assert (Hn' : n = 2 \/ n = 3 \/ n = 4).
      { destruct (declared_length_cases _ _ Hd) as [[? _] | [[? _] | [? _]]];
          lia. }
      destruct (declared_length_cases _ _ Hd) as [[? Hr] | [[? Hr] | [? Hr]]];
        (destruct (N.ltb_spec (uchar (load bytes 0)) 0x80); [lia |]);
        rewrite Hd; (destruct (Z.ltb_spec length n); [reflexivity |]);
        (destruct (forallb _ _) eqn:Ef; [| reflexivity]);
        rewrite (proj1 (continuations_all bytes n Hn') Ef i Hi) in Hc;
        discriminate.
  - intros n [[Hd [Hn Hc]] Hv].
    assert (Hn' : n = 2 \/ n = 3 \/ n = 4).
    { destruct (declared_length_cases _ _ Hd) as [[? _] | [[? _] | [? _]]];
        lia. }
    split; [| lia].
    rewrite decode_cases.
    destruct (Z.leb_spec length 0); [lia |].
    destruct (N.ltb_spec (uchar (load bytes 0)) 0x80).
    { destruct (declared_length_cases _ _ Hd) as [[? Hr] | [[? Hr] | [? Hr]]];
        lia. }
    rewrite Hd.
    destruct (Z.ltb_spec length n); [lia |].
    rewrite (proj2 (continuations_all bytes n Hn') Hc).
    now apply decode_check_error.
Qed.

(** The overlong NUL [C0 80] is a semantic error: both bytes are consumed. *)
Lemma decode_error_consumption_witness :
  utflite_decode (Some [xc0; x80]) 2 = (UTFLITE_REPLACEMENT_CHAR, 2).
Proof.
  apply (proj2 (proj2 (decode_error_consumption [xc0; x80] 2)) 2).
  split.
  - split; [reflexivity |]. split; [lia |].
    intros i Hi. assert (i = 1) as -> by lia. reflexivity.
  - left. left. split; [reflexivity | vm_compute; reflexivity].
Defined.

(** *** Encode *)

Definition valid_codepoint (cp : N) : Prop :=
  (cp <= 0x10FFFF)%N /\ ~ (0xD800 <= cp <= 0xDFFF)%N.

Definition invalid_codepoint (cp : N) : Prop :=
  (0xD800 <= cp <= 0xDFFF)%N \/ (0x10FFFF < cp)%N.

(** The number of bytes the encoding of a valid codepoint takes. *)
Definition encoded_length (cp : N) : Z :=
  if (cp <? 0x80)%N then 1
  else if (cp <? 0x800)%N then 2
  else if (cp <? 0x10000)%N then 3
  else 4.

Lemma encode_cases (codepoint : N) (buffer : list byte) :
  (invalid_codepoint codepoint
   /\ utflite_encode codepoint buffer = (0, buffer))
  \/ (valid_codepoint codepoint
      /\ 1 <= fst (utflite_encode codepoint buffer) <= 4).
Proof.
  unfold utflite_encode, invalid_codepoint, valid_codepoint.
  destruct (N.ltb_spec codepoint 0x80); [right; simpl; lia |].
  destruct (N.ltb_spec codepoint 0x800); [right; simpl; lia |].
  destruct (N.ltb_spec codepoint 0x10000).
  - destruct (N.leb_spec 0xD800 codepoint);
      destruct (N.leb_spec codepoint 0xDFFF); simpl;
      solve [left; split; [lia | reflexivity] | right; lia].
  - destruct (N.leb_spec codepoint 0x10FFFF); [right; simpl; lia |].
    left. split; [lia | reflexivity].
Qed.

(** C4: [utflite_encode] returns 0 exactly on the invalid codepoints
    (surrogates and values above U+10FFFF) and then leaves every byte of the
    buffer as it was; on every valid codepoint it returns a count between 1
    and 4. *)
Theorem encode_failure : forall (codepoint : N) (buffer : list byte),
  (fst (utflite_encode codepoint buffer) = 0 <-> invalid_codepoint codepoint)
  /\ (fst (utflite_encode codepoint buffer) = 0 ->
      snd (utflite_encode codepoint buffer) = buffer)
  /\ (valid_codepoint codepoint ->
      1 <= fst (utflite_encode codepoint buffer) <= 4).
Proof.
  intros cp buffer.
  destruct (encode_cases cp buffer) as [[Hi E] | [Hv Hn]].
  - rewrite E. simpl. split; [tauto |]. split; [reflexivity |].
    intros [Hmax Hsur]. destruct Hi; [tauto | lia].
  - split; [| split; [lia | intros _; exact Hn]].
    split; [lia |].
    intros Hi. destruct Hv as [Hmax Hsur]. destruct Hi; [tauto | lia].
Qed.

(** The surrogate U+D800 is refused and the buffer keeps its bytes. *)
Lemma encode_failure_witness :
  snd (utflite_encode 0xD800 [x01; x02; x03; x04]) = [x01; x02; x03; x04].
Proof.
  apply (proj1 (proj2 (encode_failure 0xD800 [x01; x02; x03; x04]))).
  vm_compute. reflexivity.
Defined.

(** *** Round trip *)

Lemma split6 x :
  exists q r, (x = q * 64 + r /\ r < 64 /\ N.shiftr x 6 = q
               /\ N.land x 0x3F = r)%N.
Proof.
  exists (x / 64)%N, (x mod 64)%N. repeat split.
  - rewrite N.mul_comm. apply N.div_mod'.
  - apply N.mod_upper_bound. discriminate.
  - now rewrite N.shiftr_div_pow2.
  - change 0x3F%N with (N.ones 6). apply land_low.
Qed.

Lemma continuation_byte r :
  (r < 64)%N -> uchar (to_char (N.lor 0x80 r)) = (128 + r)%N.
Proof.
  intros H. change (N.lor 0x80 r) with (N.lor (N.shiftl 2 6) r).
  rewrite lor_shiftl_add by exact H. change (2 ^ 6)%N with 64%N.
  rewrite uchar_to_char_small; lia.
Qed.

Lemma lead_byte (tag k h : N) :
  (k <= 6)%N -> (h < 2 ^ k)%N -> (tag * 2 ^ k + 2 ^ k <= 256)%N ->
  uchar (to_char (N.lor (N.shiftl tag k) h)) = (tag * 2 ^ k + h)%N.
Proof.
  intros Hk Hh Ht. rewrite lor_shiftl_add by exact Hh.
  apply uchar_to_char_small. lia.
Qed.

Lemma decode_check_valid n cp :
  valid_codepoint cp -> n = encoded_length cp -> 2 <= n ->
  decode_check n cp = (cp, n).
Proof.
  unfold valid_codepoint, encoded_length, decode_check. intros [Hm Hs] -> Hn.
  destruct (N.ltb_spec cp 0x80); [lia |].
  destruct (N.ltb_spec cp 0x800); [| destruct (N.ltb_spec cp 0x10000)]; simpl;
    (destruct (N.leb_spec 0xD800 cp); destruct (N.leb_spec cp 0xDFFF); simpl;
     try lia);
    (destruct (N.ltb_spec 0x10FFFF cp); [lia | reflexivity]).
Qed.

Lemma is_continuation_payload r :
  (r < 64)%N -> is_continuation (128 + r) = true.
Proof.
  intros H. unfold is_continuation. apply andb_true_intro.
  split; [apply N.leb_le | apply N.ltb_lt]; lia.
Qed.

(** Decoding a buffer that starts with a two, three or four byte sequence
    whose payloads are known. *)
Lemma decode_two bytes q r :
  (q < 32)%N -> (r < 64)%N ->
  uchar (load bytes 0) = (192 + q)%N -> uchar (load bytes 1) = (128 + r)%N ->
  utflite_decode (Some bytes) 2 = decode_check 2 (q * 64 + r).
Proof.
  intros Hq Hr B0 B1. rewrite decode_cases. unfold sequence_value.
  rewrite B0, B1.
  destruct (N.ltb_spec (192 + q) 128); [lia |].
  replace (declared_length (192 + q)) with (Some 2)
    by (unfold declared_length;
        destruct (N.leb_spec 192 (192 + q));
        destruct (N.ltb_spec (192 + q) 224); simpl; try reflexivity; lia).
  change (map Z.of_nat (seq 1 (Z.to_nat (2 - 1)))) with [1].
  cbn [forallb]. rewrite B1, is_continuation_payload by exact Hr.
  cbn [andb]. change (2 <=? 0) with false. change (2 <? 2) with false.
  change (2 =? 2) with true. cbv iota. f_equal. lia.
Qed.

Lemma decode_three bytes q r s :
  (q < 16)%N -> (r < 64)%N -> (s < 64)%N ->
  uchar (load bytes 0) = (224 + q)%N -> uchar (load bytes 1) = (128 + r)%N ->
  uchar (load bytes 2) = (128 + s)%N ->
  utflite_decode (Some bytes) 3 = decode_check 3 ((q * 64 + r) * 64 + s).
Proof.
  intros Hq Hr Hs B0 B1 B2. rewrite decode_cases. unfold sequence_value.
  rewrite B0, B1, B2.
  destruct (N.ltb_spec (224 + q) 128); [lia |].
  replace (declared_length (224 + q)) with (Some 3)
    by (unfold declared_length;
        destruct (N.leb_spec 192 (224 + q));
        destruct (N.ltb_spec (224 + q) 224);
        destruct (N.leb_spec 224 (224 + q));
        destruct (N.ltb_spec (224 + q) 240); simpl; try reflexivity; lia).
  change (map Z.of_nat (seq 1 (Z.to_nat (3 - 1)))) with [1; 2].
  cbn [forallb]. rewrite B1, B2, !is_continuation_payload by assumption.
  cbn [andb]. change (3 <=? 0) with false. change (3 <? 3) with false.
  change (3 =? 2) with false. change (3 =? 3) with true. cbv iota.
  f_equal. lia.
Qed.

Lemma decode_four bytes q r s t :
  (q < 8)%N -> (r < 64)%N -> (s < 64)%N -> (t < 64)%N ->
  uchar (load bytes 0) = (240 + q)%N -> uchar (load bytes 1) = (128 + r)%N ->
  uchar (load bytes 2) = (128 + s)%N -> uchar (load bytes 3) = (128 + t)%N ->
  utflite_decode (Some bytes) 4
  = decode_check 4 (((q * 64 + r) * 64 + s) * 64 + t).
Proof.
  intros Hq Hr Hs Ht B0 B1 B2 B3. rewrite decode_cases. unfold sequence_value.
  rewrite B0, B1, B2, B3.
  destruct (N.ltb_spec (240 + q) 128); [lia |].
  replace (declared_length (240 + q)) with (Some 4)
    by (unfold declared_length;
        destruct (N.leb_spec 192 (240 + q));
        destruct (N.ltb_spec (240 + q) 224);
        destruct (N.leb_spec 224 (240 + q));
        destruct (N.ltb_spec (240 + q) 240);
        destruct (N.leb_spec 240 (240 + q));
        destruct (N.ltb_spec (240 + q) 248); simpl; try reflexivity; lia).
  change (map Z.of_nat (seq 1 (Z.to_nat (4 - 1)))) with [1; 2; 3].
  cbn [forallb]. rewrite B1, B2, B3, !is_continuation_payload by assumption.
  cbn [andb]. change (4 <=? 0) with false. change (4 <? 4) with false.
  change (4 =? 2) with false. change (4 =? 3) with false.
  change (4 =? 4) with true. cbv iota. f_equal. lia.
Qed.

Lemma lead_two q :
  (q < 32)%N -> uchar (to_char (N.lor 0xC0 q)) = (192 + q)%N.
Proof.
  intros H. change (N.lor 0xC0 q) with (N.lor (N.shiftl 6 5) q).
  rewrite (lead_byte 6 5 q) by (simpl; lia). reflexivity.
Qed.

Lemma lead_three q :
  (q < 16)%N -> uchar (to_char (N.lor 0xE0 q)) = (224 + q)%N.
Proof.
  intros H. change (N.lor 0xE0 q) with (N.lor (N.shiftl 14 4) q).
  rewrite (lead_byte 14 4 q) by (simpl; lia). reflexivity.
Qed.

Lemma lead_four q :
  (q < 8)%N -> uchar (to_char (N.lor 0xF0 q)) = (240 + q)%N.
Proof.
  intros H. change (N.lor 0xF0 q) with (N.lor (N.shiftl 30 3) q).
  rewrite (lead_byte 30 3 q) by (simpl; lia). reflexivity.
Qed.

Lemma encoded_length_cases cp :
  ((cp < 0x80)%N /\ encoded_length cp = 1)
  \/ ((0x80 <= cp < 0x800)%N /\ encoded_length cp = 2)
  \/ ((0x800 <= cp < 0x10000)%N /\ encoded_length cp = 3)
  \/ ((0x10000 <= cp)%N /\ encoded_length cp = 4).
Proof.
  unfold encoded_length.
  destruct (N.ltb_spec cp 0x80); [left; lia |].
  destruct (N.ltb_spec cp 0x800); [right; left; lia |].
  destruct (N.ltb_spec cp 0x10000); [right; right; left; lia |].
  right; right; right; lia.
Qed.

(** C3: a valid codepoint, encoded into a buffer of at least
    [UTFLITE_MAX_BYTES] bytes and decoded with the count [utflite_encode]
    returned as the length, comes back with the same count, which is 1, 2, 3
    or 4 according to its range. *)
Theorem encode_decode_roundtrip : forall (cp : N) (buffer : list byte),
  valid_codepoint cp ->
  UTFLITE_MAX_BYTES <= Z.of_nat (length buffer) ->
  utflite_decode (Some (snd (utflite_encode cp buffer)))
                 (fst (utflite_encode cp buffer))
  = (cp, fst (utflite_encode cp buffer))
  /\ fst (utflite_encode cp buffer) = encoded_length cp.
Proof.
  intros cp buffer Hv Hlen.
  destruct buffer as [| c0 [| c1 [| c2 [| c3 rest]]]];
    try (unfold UTFLITE_MAX_BYTES in Hlen; simpl in Hlen; lia).
  clear Hlen. pose proof Hv as [Hmax Hsur].
  destruct (split6 cp) as (q1 & r1 & E1 & Hr1 & S1 & L1).
  destruct (split6 q1) as (q2 & r2 & E2 & Hr2 & S2 & L2).
  destruct (split6 q2) as (q3 & r3 & E3 & Hr3 & S3 & L3).
  assert (S12 : N.shiftr cp 12 = q2)
    by (rewrite <- S2, <- S1, N.shiftr_shiftr; reflexivity).
  assert (S18 : N.shiftr cp 18 = q3)
    by (rewrite <- S3, <- S2, <- S1, !N.shiftr_shiftr; reflexivity).
  unfold utflite_encode.
  destruct (encoded_length_cases cp) as [[H El] | [[H El] | [[H El] | [H El]]]];
    rewrite El.
  - (* one byte *)
    destruct (N.ltb_spec cp 0x80); [| lia].
    cbn [fst snd store]. split; [| reflexivity].
    rewrite decode_cases. unfold load. cbn [Z.to_nat nth].
    rewrite uchar_to_char_small by lia.
    destruct (N.ltb_spec cp 0x80); [reflexivity | lia].
  - (* two bytes *)
    destruct (N.ltb_spec cp 0x80); [lia |].
    destruct (N.ltb_spec cp 0x800); [| lia].
    cbn [fst snd store]. split; [| reflexivity].
    rewrite (decode_two _ q1 r1); [| lia | lia | |].
    + replace (q1 * 64 + r1)%N with cp by lia.
      apply decode_check_valid; [exact Hv | lia | lia].
    + unfold load. cbn [Z.to_nat nth]. rewrite S1. apply lead_two. lia.
    + unfold load. change (Z.to_nat 1) with 1%nat. cbn [nth].
      rewrite L1. now apply continuation_byte.
  - (* three bytes *)
    destruct (N.ltb_spec cp 0x80); [lia |].
    destruct (N.ltb_spec cp 0x800); [lia |].
    destruct (N.ltb_spec cp 0x10000); [| lia].
    destruct ((0xD800 <=? cp) && (cp <=? 0xDFFF))%N eqn:Es.
    { apply andb_prop in Es. destruct Es as [Ea Eb].
      apply N.leb_le in Ea. apply N.leb_le in Eb. lia. }
    cbn [fst snd store]. split; [| reflexivity].
    rewrite (decode_three _ q2 r2 r1); [| lia | lia | lia | | |].
    + replace ((q2 * 64 + r2) * 64 + r1)%N with cp by lia.
      apply decode_check_valid; [exact Hv | lia | lia].
    + unfold load. cbn [Z.to_nat nth]. rewrite S12. apply lead_three. lia.
    + unfold load. change (Z.to_nat 1) with 1%nat. cbn [nth].
      rewrite S1, L2. now apply continuation_byte.
    + unfold load. change (Z.to_nat 2) with 2%nat. cbn [nth].
      rewrite L1. now apply continuation_byte.
  - (* four bytes *)
    destruct (N.ltb_spec cp 0x80); [lia |].
    destruct (N.ltb_spec cp 0x800); [lia |].
    destruct (N.ltb_spec cp 0x10000); [lia |].
    destruct (N.leb_spec cp 0x10FFFF); [| lia].
    cbn [fst snd store]. split; [| reflexivity].
    rewrite (decode_four _ q3 r3 r2 r1); [| lia | lia | lia | lia | | | |].
    + replace (((q3 * 64 + r3) * 64 + r2) * 64 + r1)%N with cp by lia.
      apply decode_check_valid; [exact Hv | lia | lia].
    + unfold load. cbn [Z.to_nat nth]. rewrite S18. apply lead_four. lia.
    + unfold load. change (Z.to_nat 1) with 1%nat. cbn [nth].
      rewrite S12, L3. now apply continuation_byte.
    + unfold load. change (Z.to_nat 2) with 2%nat. cbn [nth].
      rewrite S1, L2. now apply continuation_byte.
    + unfold load. change (Z.to_nat 3) with 3%nat. cbn [nth].
      rewrite L1. now apply continuation_byte.
Qed.

(** U+1F600 in a four-byte buffer. *)
Lemma encode_decode_roundtrip_witness :
  utflite_decode (Some (snd (utflite_encode 0x1F600 [x00; x00; x00; x00])))
                 (fst (utflite_encode 0x1F600 [x00; x00; x00; x00]))
  = (0x1F600%N, fst (utflite_encode 0x1F600 [x00; x00; x00; x00]))
  /\ fst (utflite_encode 0x1F600 [x00; x00; x00; x00]) = encoded_length 0x1F600.
Proof.
  apply (encode_decode_roundtrip 0x1F600 [x00; x00; x00; x00]).
  - unfold valid_codepoint. lia.
  - unfold UTFLITE_MAX_BYTES. simpl. lia.
Defined.

(** *** Footprint *)

Lemma sequence_value_footprint b1 b2 n :
  (n = 2 \/ n = 3 \/ n = 4) ->
  (forall i, 0 <= i < n -> load b1 i = load b2 i) ->
  sequence_value b1 n = sequence_value b2 n.
Proof.
  intros Hn H. unfold sequence_value.
  destruct Hn as [-> | [-> | ->]].
  - change (2 =? 2) with true. cbv iota.
    now rewrite (H 0), (H 1) by lia.
  - change (3 =? 2) with false. change (3 =? 3) with true. cbv iota.
    now rewrite (H 0), (H 1), (H 2) by lia.
  - change (4 =? 2) with false. change (4 =? 3) with false.
    change (4 =? 4) with true. cbv iota.
    now rewrite (H 0), (H 1), (H 2), (H 3) by lia.
Qed.

(** [utflite_decode] depends on the first [length] bytes only: it never
    reads past the length it is given. *)
Lemma decode_footprint b1 b2 length :
  (forall i, 0 <= i < length -> load b1 i = load b2 i) ->
  utflite_decode (Some b1) length = utflite_decode (Some b2) length.
Proof.
  intros H. rewrite !decode_cases.
  destruct (Z.leb_spec length 0) as [Hl | Hl]; [reflexivity |].
  rewrite <- (H 0) by lia.
  destruct (uchar (load b1 0) <? 128)%N; [reflexivity |].
  destruct (declared_length (uchar (load b1 0))) as [n |] eqn:Ed;
    [| reflexivity].
  assert (Hn : n = 2 \/ n = 3 \/ n = 4).
  { destruct (declared_length_cases _ _ Ed) as [[? _] | [[? _] | [? _]]]; lia. }
  destruct (Z.ltb_spec length n) as [Hs | Hs]; [reflexivity |].
  rewrite (sequence_value_footprint b1 b2 n Hn) by (intros; apply H; lia).
  destruct (forallb (fun i => is_continuation (uchar (load b1 i))) _) eqn:E1;
    destruct (forallb (fun i => is_continuation (uchar (load b2 i))) _) eqn:E2;
    try reflexivity; exfalso.
  - pose proof (proj1 (continuations_all b1 n Hn) E1) as Hc.
    apply not_true_iff_false in E2. apply E2.
    apply (proj2 (continuations_all b2 n Hn)).
    intros i Hi. rewrite <- (H i) by lia. now apply Hc.
  - pose proof (proj1 (continuations_all b2 n Hn) E2) as Hc.
    apply not_true_iff_false in E1. apply E1.
    apply (proj2 (continuations_all b1 n Hn)).
    intros i Hi. rewrite (H i) by lia. now apply Hc.
Qed.

(** ** Navigation *)

Lemma next_char_at_end text length offset :
  length <= offset -> utflite_next_char text length offset = length.
Proof.
  intros H. unfold utflite_next_char.
  destruct (Z.geb_spec offset length); [reflexivity | lia].
Qed.

(** From any offset of the buffer, [length - offset] steps of
    [utflite_next_char] are enough to reach [length]. *)
Lemma next_char_reaches_end text length :
  forall (m : nat) (offset : Z),
    offset <= length -> (Z.to_nat (length - offset) <= m)%nat ->
    exists k, (k <= m)%nat
              /\ Nat.iter k (utflite_next_char text length) offset = length.
Proof.
  induction m as [| m IH]; intros offset Hle Hm.
  - exists 0%nat. split; [lia |]. simpl. lia.
  - destruct (Z.eq_dec offset length) as [-> | Hne].
    + exists 0%nat. split; [lia | reflexivity].
    + pose proof (next_char_progress text length offset ltac:(lia)) as Hp.
      destruct (IH (utflite_next_char text length offset) ltac:(lia) ltac:(lia))
        as [k [Hk Ek]].
      exists (S k). split; [lia |].
      now rewrite Nat.iter_succ_r.
Qed.

(** C7: [utflite_decode] always consumes between 1 and 4 bytes, whatever the
    buffer holds; so [utflite_next_char] moves strictly forward from every
    offset in [0, length), returns [length] from [length] on, and reaches
    [length] from offset 0 in at most [length] steps. *)
Theorem forward_progress :
  (forall (bytes : option (list byte)) (length : Z),
      1 <= snd (utflite_decode bytes length) <= 4)
  /\ (forall (text : list byte) (length offset : Z),
         0 <= offset < length ->
         offset < utflite_next_char text length offset <= length)
  /\ (forall (text : list byte) (length offset : Z),
         length <= offset -> utflite_next_char text length offset = length)
  /\ (forall (text : list byte) (length : Z),
         0 <= length ->
         exists k, (k <= Z.to_nat length)%nat
                   /\ Nat.iter k (utflite_next_char text length) 0 = length).
Proof.
  split; [exact decode_consumed |].
  split; [intros; apply next_char_progress; lia |].
  split; [exact next_char_at_end |].
  intros text length H.
  apply next_char_reaches_end; [lia |].
  rewrite Z.sub_0_r. lia.
Qed.

(** Three steps over ["A"], a truncated lead byte and a stray continuation
    byte. *)
Lemma forward_progress_witness :
  0 < utflite_next_char [x41; xe4; x80] 3 0 <= 3
  /\ exists k, (k <= Z.to_nat 3)%nat
               /\ Nat.iter k (utflite_next_char [x41; xe4; x80] 3) 0 = 3.
Proof.
  destruct forward_progress as (_ & Hstep & _ & Hiter).
  split; [apply Hstep; lia | apply Hiter; lia].
Defined.

(** The backward loop stops between its limit and its start. *)
Lemma prev_char_loop_range text limit pos :
  limit <= pos -> limit <= prev_char_loop text limit pos <= pos.
Proof.
  intros H.
  remember (Z.to_nat (pos - limit)) as m eqn:Em.
  revert pos H Em. induction m as [m IH] using lt_wf_ind. intros.
  rewrite prev_char_loop_equation_1.
  destruct (Z_gt_le_dec pos limit) as [Hgt | Hle]; simpl; [| lia].
  destruct (N.land _ _ =? _)%N; [| lia].
  specialize (IH (Z.to_nat (pos - 1 - limit)) ltac:(lia) (pos - 1)
                 ltac:(lia) eq_refl).
  lia.
Qed.

Lemma prev_char_range text offset :
  0 < offset -> Z.max 0 (offset - 4) <= utflite_prev_char text offset < offset.
Proof.
  intros H. unfold utflite_prev_char.
  destruct (Z.leb_spec offset 0); [lia |].
  destruct (Z.gtb_spec offset 4).
  - pose proof (prev_char_loop_range text (offset - 4) (offset - 1) ltac:(lia)).
    lia.
  - pose proof (prev_char_loop_range text 0 (offset - 1) ltac:(lia)). lia.
Qed.

Lemma prev_char_at_start text offset :
  offset <= 0 -> utflite_prev_char text offset = 0.
Proof.
  intros H. unfold utflite_prev_char.
  destruct (Z.leb_spec offset 0); [reflexivity | lia].
Qed.

Lemma rewind_range text remaining scan_start :
  0 <= scan_start -> 0 <= rewind text remaining scan_start <= scan_start.
Proof.
  revert scan_start. induction remaining as [| r IH]; intros s Hs; simpl.
  - lia.
  - destruct (Z.gtb_spec s 0); [| lia].
    pose proof (prev_char_range text s ltac:(lia)) as Hp.
    destruct (Z.eqb_spec (utflite_prev_char text s) s); [lia |].
    specialize (IH (utflite_prev_char text s) ltac:(lia)). lia.
Qed.

Lemma scan_forward_range text offset curr grapheme_start :
  0 <= curr -> 0 <= grapheme_start < offset ->
  0 <= scan_forward text offset curr grapheme_start < offset.
Proof.
  remember (Z.to_nat (offset - curr)) as m eqn:Em.
  revert curr grapheme_start Em. induction m as [m IH] using lt_wf_ind.
  intros curr gs Em Hc Hg.
  rewrite scan_forward_equation_1.
  destruct (Z_lt_ge_dec curr offset) as [Hlt | Hge];
    cbn [scan_forward_unfold_clause_1]; [| lia].
  pose proof (next_grapheme_progress (Some text) offset curr Hlt) as Hp.
  destruct (Z.geb_spec (utflite_next_grapheme (Some text) offset curr) offset);
    [lia |].
  eapply IH; [| reflexivity | lia | lia]. lia.
Qed.

Lemma prev_grapheme_range text offset :
  0 < offset -> 0 <= utflite_prev_grapheme text offset < offset.
Proof.
  intros H. unfold utflite_prev_grapheme.
  destruct text as [text |]; [| lia].
  destruct (Z.leb_spec offset 0); [lia |].
  cbv zeta.
  pose proof (prev_char_range text offset H) as Hp.
  destruct ((utflite_prev_char text offset =? 0) && (offset >? 0)); [lia |].
  pose proof (rewind_range text GRAPHEME_MAX_BACKTRACK
                (utflite_prev_char text offset) ltac:(lia)) as Hr.
  apply scan_forward_range; lia.
Qed.

(** C10: from an offset above 0, [utflite_prev_char] moves back by at least
    one and at most four bytes without passing 0, and [utflite_prev_grapheme]
    moves strictly back without passing 0; from an offset at or below 0 both
    return 0. *)
Theorem backward_progress :
  (forall (text : list byte) (offset : Z),
      0 < offset ->
      Z.max 0 (offset - 4) <= utflite_prev_char text offset < offset)
  /\ (forall (text : option (list byte)) (offset : Z),
         0 < offset -> 0 <= utflite_prev_grapheme text offset < offset)
  /\ (forall (text : list byte) (offset : Z),
         offset <= 0 ->
         utflite_prev_char text offset = 0
         /\ utflite_prev_grapheme (Some text) offset = 0
         /\ utflite_prev_grapheme None offset = 0).
Proof.
  split; [exact prev_char_range |].
  split; [exact prev_grapheme_range |].
  intros text offset H. split; [now apply prev_char_at_start |].
  unfold utflite_prev_grapheme.
  destruct (Z.leb_spec offset 0); [split; reflexivity | lia].
Qed.

(** Ten stray continuation bytes: the scan back from offset 10 stops within
    four bytes. *)
Lemma backward_progress_witness :
  Z.max 0 (10 - 4)
  <= utflite_prev_char [x80; x80; x80; x80; x80; x80; x80; x80; x80; x80] 10
  < 10
  /\ 0 <= utflite_prev_grapheme
            (Some [x80; x80; x80; x80; x80; x80; x80; x80; x80; x80]) 10
     < 10.
Proof.
  destruct backward_progress as (Hc & Hg & _).
  split; [apply Hc; lia | apply Hg; lia].
Defined.

(** ** Validation *)

(** The walk of [utflite_validate]: from an offset before [length], a decode
    step leads to the offset plus the bytes consumed.  [decode_walk text
    length o o'] says that the walk from [o] visits [o']. *)
Inductive decode_walk (text : list byte) (length : Z) : Z -> Z -> Prop :=
| walk_here o : decode_walk text length o o
| walk_step o o' :
    o < length ->
    decode_walk text length (o + snd (decode_at text length o)) o' ->
    decode_walk text length o o'.

(** The three bytes at [o] are the encoding of U+FFFD itself. *)
Definition literal_replacement (text : list byte) (length o : Z) : Prop :=
  o + 3 <= length
  /\ load text o = xef /\ load text (o + 1) = xbf /\ load text (o + 2) = xbd.

(** The decode step at [o] is no error. *)
Definition step_accepted (text : list byte) (length o : Z) : Prop :=
  fst (decode_at text length o) <> UTFLITE_REPLACEMENT_CHAR
  \/ literal_replacement text length o.

Lemma uchar_inj c d : uchar c = uchar d -> c = d.
Proof.
  unfold uchar. intros H.
  pose proof (Byte.of_to_N c) as Hc. rewrite H, Byte.of_to_N in Hc.
  now injection Hc.
Qed.

Lemma uchar_is c d : (uchar c =? uchar d)%N = true <-> c = d.
Proof.
  rewrite N.eqb_eq. split; [apply uchar_inj | now intros ->].
Qed.

Lemma not_literal_replacement_spec text length o :
  not_literal_replacement text length o = true
  <-> ~ literal_replacement text length o.
Proof.
  unfold not_literal_replacement, literal_replacement.
  change 0xEF%N with (uchar xef). change 0xBF%N with (uchar xbf).
  change 0xBD%N with (uchar xbd).
  rewrite !orb_true_iff, !negb_true_iff, Z.ltb_lt.
  rewrite <- !not_true_iff_false, !uchar_is.
  split.
  - intros H (H0 & H1 & H2 & H3). intuition lia.
  - intros H.
    destruct (Z_lt_ge_dec (length - o) 3); [tauto |].
    destruct (byte_eq_dec (load text o) xef); [| tauto].
    destruct (byte_eq_dec (load text (o + 1)) xbf); [| tauto].
    destruct (byte_eq_dec (load text (o + 2)) xbd); [| tauto].
    exfalso. apply H. repeat split; [lia | assumption ..].
Qed.

Lemma decode_walk_ge text length o o' :
  decode_walk text length o o' -> o <= o'.
Proof.
  induction 1 as [| o o' Hlt Hw IH]; [lia |].
  pose proof (decode_consumed (Some (advance text o)) (length - o)) as Hc.
  fold (decode_at text length o) in Hc. lia.
Qed.

(** What the loop of [utflite_validate] returns from an offset: 1 when every
    step of the walk is accepted, else 0 and the offset of the first step
    that is not. *)
Lemma validate_loop_walk text length offset :
  (validate_loop text length offset = (1, None)
   /\ forall o, decode_walk text length offset o -> o < length ->
                step_accepted text length o)
  \/ (exists e,
         validate_loop text length offset = (0, Some e)
         /\ decode_walk text length offset e /\ e < length
         /\ ~ step_accepted text length e
         /\ forall o, decode_walk text length offset o -> o < e ->
                      step_accepted text length o).
Proof.
  remember (Z.to_nat (length - offset)) as m eqn:Em.
  revert offset Em. induction m as [m IH] using lt_wf_ind. intros offset Em.
  rewrite validate_loop_equation_1.
  destruct (Z_lt_ge_dec offset length) as [Hlt | Hge];
    cbn [validate_loop_unfold_clause_1].
  - pose proof (decode_consumed (Some (advance text offset)) (length - offset))
      as Hc.
    fold (decode_at text length offset) in Hc.
    destruct ((fst (decode_at text length offset) =? UTFLITE_REPLACEMENT_CHAR)%N
              && not_literal_replacement text length offset) eqn:Ec.
    + right. exists offset.
      apply andb_prop in Ec. destruct Ec as [E1 E2].
      apply N.eqb_eq in E1. apply not_literal_replacement_spec in E2.
      split; [reflexivity |]. split; [constructor |]. split; [exact Hlt |].
      split.
      * intros [H | H]; [now apply H | now apply E2].
      * intros o Hw Ho. apply decode_walk_ge in Hw. lia.
    + assert (Hacc : step_accepted text length offset).
      { apply andb_false_iff in Ec. destruct Ec as [E1 | E2].
        - left. now apply N.eqb_neq in E1.
        - right. apply not_true_iff_false in E2.
          destruct (not_literal_replacement text length offset) eqn:E;
            [now elim E2 |].
          unfold literal_replacement.
          unfold not_literal_replacement in E.
          change 0xEF%N with (uchar xef) in E.
          change 0xBF%N with (uchar xbf) in E.
          change 0xBD%N with (uchar xbd) in E.
          rewrite !orb_false_iff, !negb_false_iff, Z.ltb_ge in E.
          rewrite !uchar_is in E. intuition lia. }
      destruct (IH (Z.to_nat (length - (offset
                                        + snd (decode_at text length offset))))
                  ltac:(lia) _ eq_refl)
        as [[Ev Hall] | [e (Ev & Hw & He & Hn & Hall)]].
      * left. split; [exact Ev |].
        intros o Hwo Ho. inversion Hwo; subst; [exact Hacc |].
        now apply Hall.
      * right. exists e. split; [exact Ev |].
        split; [now apply walk_step |]. split; [exact He |].
        split; [exact Hn |].
        intros o Hwo Ho. inversion Hwo; subst; [exact Hacc |].
        now apply Hall.
  - left. split; [reflexivity |].
    intros o Hw Ho. inversion Hw; subst; lia.
Qed.

(** C8: [utflite_validate] returns 1 exactly when every step of the decode
    walk from offset 0 either yields a codepoint other than U+FFFD or stands
    on the literal bytes EF BF BD; otherwise it returns 0 and reports the
    offset of the first step of the walk that yields U+FFFD without those
    bytes. *)
Theorem validate_walk : forall (text : list byte) (length : Z),
  (fst (utflite_validate text length) = 1
   <-> forall o, decode_walk text length 0 o -> o < length ->
                 step_accepted text length o)
  /\ (fst (utflite_validate text length) = 1
      \/ fst (utflite_validate text length) = 0)
  /\ (fst (utflite_validate text length) = 0 ->
      exists e,
        snd (utflite_validate text length) = Some e
        /\ decode_walk text length 0 e /\ e < length
        /\ ~ step_accepted text length e
        /\ forall o, decode_walk text length 0 o -> o < e ->
                     step_accepted text length o).
Proof.
  intros text length. unfold utflite_validate.
  destruct (validate_loop_walk text length 0)
    as [[Ev Hall] | [e (Ev & Hw & He & Hn & Hall)]]; rewrite Ev; simpl.
  - split; [split; [intros _; exact Hall | reflexivity] |].
    split; [now left | discriminate].
  - split.
    + split; [discriminate |].
      intros H. exfalso. apply Hn. now apply H.
    + split; [now right |].
      intros _. exists e. repeat split; assumption.
Qed.

(** ["A"] followed by the overlong [C0 80]: the error is at offset 1. *)
Lemma validate_walk_witness :
  exists e,
    snd (utflite_validate [x41; xc0; x80] 3) = Some e
    /\ decode_walk [x41; xc0; x80] 3 0 e /\ e < 3
    /\ ~ step_accepted [x41; xc0; x80] 3 e
    /\ forall o, decode_walk [x41; xc0; x80] 3 0 o -> o < e ->
                 step_accepted [x41; xc0; x80] 3 o.
Proof.
  apply (proj2 (proj2 (validate_walk [x41; xc0; x80] 3))).
  vm_compute. reflexivity.
Defined.

(** ** Width-bounded truncation *)

(** Character boundaries: the offsets [utflite_next_char] reaches from 0. *)
Inductive char_boundary (text : list byte) (length : Z) : Z -> Prop :=
| boundary_start : char_boundary text length 0
| boundary_next o :
    char_boundary text length o ->
    char_boundary text length (utflite_next_char text length o).

(** The walk of the string loops: [char_walk text length o o'] says that the
    loop that stands at [o] comes to stand at [o']. *)
Inductive char_walk (text : list byte) (length : Z) : Z -> Z -> Prop :=
| char_walk_here o : char_walk text length o o
| char_walk_step o o' :
    o < length ->
    char_walk text length (utflite_next_char text length o) o' ->
    char_walk text length o o'.

(** A decode that fits in a shorter length gives the same result there. *)
Lemma decode_shorter bytes len len' :
  snd (utflite_decode (Some bytes) len) <= len' <= len ->
  utflite_decode (Some bytes) len' = utflite_decode (Some bytes) len.
Proof.
  pose proof (decode_consumed (Some bytes) len) as Hc.
  rewrite !decode_cases in *.
  destruct (Z.leb_spec len 0) as [Hl | Hl]; [simpl; lia |].
  intros Hs.
  destruct (Z.leb_spec len' 0) as [Hl' | Hl']; [lia |].
  destruct (uchar (load bytes 0) <? 128)%N; [reflexivity |].
  destruct (declared_length (uchar (load bytes 0))) as [n |]; [| reflexivity].
  destruct (Z.ltb_spec len n) as [Hn | Hn].
  - destruct (Z.ltb_spec len' n); [reflexivity | lia].
  - destruct (forallb _ _).
    + rewrite decode_check_snd in Hs.
      destruct (Z.ltb_spec len' n); [lia | reflexivity].
    + destruct (Z.ltb_spec len' n); reflexivity.
Qed.

Lemma char_walk_le text length o o' :
  char_walk text length o o' -> o <= o'.
Proof.
  induction 1 as [| o o' Hlt Hw IH]; [lia |].
  pose proof (next_char_progress text length o Hlt). lia.
Qed.

Lemma char_walk_bound text length o o' :
  char_walk text length o o' -> o <= length -> o' <= length.
Proof.
  induction 1 as [| o o' Hlt Hw IH]; [lia |]. intros _.
  pose proof (next_char_progress text length o Hlt). apply IH. lia.
Qed.

Lemma char_walk_trans text length a b c :
  char_walk text length a b -> char_walk text length b c ->
  char_walk text length a c.
Proof.
  induction 1 as [| o o' Hlt Hw IH]; [trivial |].
  intros Hc. apply char_walk_step; [exact Hlt | now apply IH].
Qed.

Lemma char_walk_boundary text length o r :
  char_boundary text length o -> char_walk text length o r ->
  char_boundary text length r.
Proof.
  intros Hb Hw. induction Hw as [| o o' Hlt Hw IH]; [exact Hb |].
  apply IH. now apply boundary_next.
Qed.

(** Before a boundary [r] of the walk over [length] bytes, the walk over [r]
    bytes sees the same characters. *)
Lemma prefix_agrees text length o r :
  o < r -> r <= length -> char_walk text length o r ->
  utflite_next_char text r o = utflite_next_char text length o
  /\ utflite_char_width text r o = utflite_char_width text length o.
Proof.
  intros Hor Hr Hw.
  inversion Hw as [| ? ? Hlt Hw']; subst; [lia |].
  apply char_walk_le in Hw'.
  unfold utflite_next_char, utflite_char_width in *.
  destruct (Z.geb_spec o r); [lia |]. destruct (Z.geb_spec o length); [lia |].
  cbv zeta in *.
  pose proof (decode_consumed (Some (advance text o)) (length - o)) as Hc.
  unfold decode_at in *.
  destruct (Z.gtb_spec (o + snd (utflite_decode (Some (advance text o))
                                   (length - o))) length) as [Hout | Hin].
  - assert (r = length) by lia. subst r.
    destruct (Z.gtb_spec (o + snd (utflite_decode (Some (advance text o))
                                     (length - o))) length); [| lia].
    split; reflexivity.
  - rewrite (decode_shorter (advance text o) (length - o) (r - o)) by lia.
    destruct (Z.gtb_spec (o + snd (utflite_decode (Some (advance text o))
                                     (length - o))) r); [lia |].
    split; reflexivity.
Qed.

Lemma char_walk_restrict text length o r r' :
  char_walk text length o r -> char_walk text length r r' -> r' <= length ->
  char_walk text r' o r.
Proof.
  intros Hw Hr Hle. induction Hw as [| o r Hlt Hw IH]; [constructor |].
  pose proof (char_walk_le _ _ _ _ Hw). pose proof (char_walk_le _ _ _ _ Hr).
  pose proof (next_char_progress text length o Hlt).
  assert (Hor : char_walk text length o r').
  { apply char_walk_step; [exact Hlt |]. eapply char_walk_trans; eassumption. }
  destruct (prefix_agrees text length o r' ltac:(lia) Hle Hor) as [En _].
  apply char_walk_step; [lia |]. rewrite En. now apply IH.
Qed.

Lemma string_width_loop_step text length width offset :
  offset < length ->
  string_width_loop text length width offset =
    string_width_loop text length
      (if utflite_char_width text length offset >? 0
       then width + utflite_char_width text length offset else width)
      (utflite_next_char text length offset).
Proof.
  intros H. rewrite string_width_loop_equation_1.
  destruct (Z_lt_ge_dec offset length); [reflexivity | lia].
Qed.

Lemma string_width_loop_exit text length width offset :
  length <= offset -> string_width_loop text length width offset = width.
Proof.
  intros H. rewrite string_width_loop_equation_1.
  destruct (Z_lt_ge_dec offset length); [lia | reflexivity].
Qed.

Lemma string_width_loop_ge text length width offset :
  width <= string_width_loop text length width offset.
Proof.
  remember (Z.to_nat (length - offset)) as m eqn:Em.
  revert width offset Em. induction m as [m IH] using lt_wf_ind. intros.
  destruct (Z_lt_ge_dec offset length) as [Hlt | Hge].
  - rewrite string_width_loop_step by exact Hlt.
    pose proof (next_char_progress text length offset Hlt).
    etransitivity; [| eapply IH; [| reflexivity]; lia].
    destruct (Z.gtb_spec (utflite_char_width text length offset) 0); lia.
  - rewrite string_width_loop_exit by lia. lia.
Qed.

(** The loop over [length] bytes passes through the state of the loop over
    the prefix that ends at a boundary [r]. *)
Lemma string_width_loop_split text length width o r :
  char_walk text length o r -> r <= length ->
  string_width_loop text length width o =
    string_width_loop text length (string_width_loop text r width o) r.
Proof.
  intros Hw Hr. revert width.
  induction Hw as [| o r Hlt Hw IH]; intros width.
  - now rewrite (string_width_loop_exit text o width o) by lia.
  - pose proof (char_walk_le _ _ _ _ Hw).
    pose proof (next_char_progress text length o Hlt).
    destruct (prefix_agrees text length o r ltac:(lia) Hr
                (char_walk_step _ _ _ _ Hlt Hw)) as [En Ew].
    rewrite (string_width_loop_step text length) by exact Hlt.
    rewrite (string_width_loop_step text r) by lia.
    rewrite En, Ew. apply IH. exact Hr.
Qed.

(** The width of a prefix grows by the width of the next character, when
    that width is positive. *)
Lemma string_width_extend text length r :
  char_walk text length 0 r -> r < length ->
  utflite_string_width text (utflite_next_char text length r) =
    utflite_string_width text r
    + Z.max 0 (utflite_char_width text length r).
Proof.
  intros Hw Hr.
  pose proof (next_char_progress text length r Hr) as Hp.
  set (r' := utflite_next_char text length r) in *.
  assert (Hrr : char_walk text length r r').
  { apply char_walk_step; [exact Hr | constructor]. }
  pose proof (char_walk_restrict text length 0 r r' Hw Hrr ltac:(lia)) as Hw'.
  destruct (prefix_agrees text length r r' ltac:(lia) ltac:(lia) Hrr)
    as [En Ew].
  unfold utflite_string_width.
  rewrite (string_width_loop_split text r' 0 0 r Hw') by lia.
  rewrite string_width_loop_step by lia.
  rewrite En, Ew. fold r'.
  rewrite string_width_loop_exit by lia.
  destruct (Z.gtb_spec (utflite_char_width text length r) 0); lia.
Qed.

Lemma string_width_mono text length r :
  char_walk text length 0 r -> r <= length ->
  utflite_string_width text r <= utflite_string_width text length.
Proof.
  intros Hw Hr. unfold utflite_string_width.
  rewrite (string_width_loop_split text length 0 0 r Hw Hr).
  apply string_width_loop_ge.
Qed.

Lemma truncate_loop_step text length max_cols width offset :
  offset < length ->
  truncate_loop text length max_cols width offset =
    if (utflite_char_width text length offset >? 0)
       && (width + utflite_char_width text length offset >? max_cols)
    then offset
    else truncate_loop text length max_cols
           (if utflite_char_width text length offset >? 0
            then width + utflite_char_width text length offset else width)
           (utflite_next_char text length offset).
Proof.
  intros H. rewrite truncate_loop_equation_1.
  destruct (Z_lt_ge_dec offset length); [reflexivity | lia].
Qed.

Lemma truncate_loop_exit text length max_cols width offset :
  length <= offset -> truncate_loop text length max_cols width offset = length.
Proof.
  intros H. rewrite truncate_loop_equation_1.
  destruct (Z_lt_ge_dec offset length); [lia | reflexivity].
Qed.

(** The invariant of the loop of [utflite_truncate]: it stands on a boundary
    and [width] is the width of the prefix before it, which fits. *)
Lemma truncate_loop_spec text length max_cols :
  0 <= max_cols ->
  forall width offset,
    char_walk text length 0 offset ->
    width = utflite_string_width text offset -> width <= max_cols ->
    let r := truncate_loop text length max_cols width offset in
    char_boundary text length r
    /\ utflite_string_width text r <= max_cols
    /\ (r < length ->
        max_cols < utflite_string_width text (utflite_next_char text length r))
    /\ (utflite_string_width text length <= max_cols -> r = length).
Proof.
  intros Hcols width offset.
  remember (Z.to_nat (length - offset)) as m eqn:Em.
  revert width offset Em. induction m as [m IH] using lt_wf_ind.
  intros width offset Em Hw Ewidth Hfits. cbv zeta.
  pose proof (char_walk_boundary text length 0 offset
                (boundary_start text length) Hw) as Hb.
  destruct (Z_lt_ge_dec offset length) as [Hlt | Hge].
  - rewrite truncate_loop_step by exact Hlt.
    pose proof (next_char_progress text length offset Hlt) as Hp.
    pose proof (string_width_extend text length offset Hw Hlt) as Hext.
    assert (Hnext : char_walk text length 0
                      (utflite_next_char text length offset)).
    { eapply char_walk_trans; [exact Hw |].
      apply char_walk_step; [exact Hlt | constructor]. }
    destruct (Z.gtb_spec (utflite_char_width text length offset) 0) as [Hpos | Hnon];
      cbn [andb].
    + destruct (Z.gtb_spec (width + utflite_char_width text length offset)
                  max_cols) as [Hover | Hin].
      * split; [exact Hb |]. split; [lia |]. split; [lia |].
        intros Hall.
        pose proof (string_width_mono text length _ Hnext ltac:(lia)). lia.
      * eapply IH; [| reflexivity | exact Hnext | lia | lia]. lia.
    + eapply IH; [| reflexivity | exact Hnext | lia | lia]. lia.
  - rewrite truncate_loop_exit by lia.
    split.
    { pose proof (boundary_next text length offset Hb) as Hn.
      now rewrite next_char_at_end in Hn by lia. }
    assert (Hend : utflite_string_width text length <= max_cols).
    { destruct (Z.eq_dec offset length) as [<- | Hne]; [lia |].
      pose proof (char_walk_le _ _ _ _ Hw).
      unfold utflite_string_width.
      rewrite string_width_loop_exit; [lia |].
      destruct (Z_le_gt_dec 0 length); [| lia].
      pose proof (char_walk_bound _ _ _ _ Hw ltac:(lia)). lia. }
    split; [exact Hend |]. split; [lia | reflexivity].
Qed.

(** C6: for a non-negative [max_cols], the offset [utflite_truncate] returns
    is a character boundary; the prefix before it is at most [max_cols]
    columns wide; when it is not [length], the prefix extended by the next
    character is wider than [max_cols]; and when the whole string fits, it is
    [length]. *)
Theorem truncate_boundary :
  forall (text : list byte) (length max_cols : Z),
    0 <= max_cols ->
    char_boundary text length (utflite_truncate text length max_cols)
    /\ utflite_string_width text (utflite_truncate text length max_cols)
       <= max_cols
    /\ (utflite_truncate text length max_cols < length ->
        max_cols
        < utflite_string_width text
            (utflite_next_char text length
               (utflite_truncate text length max_cols)))
    /\ (utflite_string_width text length <= max_cols ->
        utflite_truncate text length max_cols = length).
Proof.
  intros text length max_cols Hcols. unfold utflite_truncate.
  apply (truncate_loop_spec text length max_cols Hcols 0 0).
  - constructor.
  - unfold utflite_string_width. now rewrite string_width_loop_exit by lia.
  - exact Hcols.
Qed.

(** A CJK character and ["A"] in two columns: the cut is after the CJK
    character. *)
Lemma truncate_boundary_witness :
  char_boundary [xe4; xb8; xad; x41] 4
    (utflite_truncate [xe4; xb8; xad; x41] 4 2)
  /\ utflite_string_width [xe4; xb8; xad; x41]
       (utflite_truncate [xe4; xb8; xad; x41] 4 2) <= 2
  /\ (utflite_truncate [xe4; xb8; xad; x41] 4 2 < 4 ->
      2 < utflite_string_width [xe4; xb8; xad; x41]
            (utflite_next_char [xe4; xb8; xad; x41] 4
               (utflite_truncate [xe4; xb8; xad; x41] 4 2)))
  /\ (utflite_string_width [xe4; xb8; xad; x41] 4 <= 2 ->
      utflite_truncate [xe4; xb8; xad; x41] 4 2 = 4).
Proof.
  apply (truncate_boundary [xe4; xb8; xad; x41] 4 2). lia.
Defined.

(** ** Backward grapheme navigation *)

(** The anchor of the rescan: from [pos], up to [bound] steps of
    [utflite_prev_char], stopping at the start of the buffer. *)
Fixpoint anchor (text : list byte) (bound : nat) (pos : Z) : Z :=
  match bound with
  | O => pos
  | S b => if pos <=? 0 then pos else anchor text b (utflite_prev_char text pos)
  end.

(** The boundaries [utflite_next_grapheme], bounded at [offset], enumerates
    from [from], up to the first one that is not strictly before [offset].
    There are fewer than [offset - from] of them, which bounds [fuel]. *)
Fixpoint boundaries_before (text : list byte) (offset : Z) (fuel : nat)
  (from : Z) : list Z :=
  match fuel with
  | O => []
  | S f =>
      if utflite_next_grapheme (Some text) offset from <? offset
      then utflite_next_grapheme (Some text) offset from
             :: boundaries_before text offset f
                  (utflite_next_grapheme (Some text) offset from)
      else []
  end.

(** The rescan as the specification words it: the last boundary found from
    the anchor, or 0 if none is found. *)
Definition prev_grapheme_stated (text : list byte) (offset : Z) : Z :=
  let start := anchor text GRAPHEME_MAX_BACKTRACK (utflite_prev_char text offset) in
  last (boundaries_before text offset (Z.to_nat offset) start) 0.

(** The rescan as the code does it: nothing is rescanned when the previous
    codepoint boundary is the start of the buffer, and the anchor stands for
    a boundary when none is found after it. *)
Definition prev_grapheme_rescan (text : list byte) (offset : Z) : Z :=
  if utflite_prev_char text offset =? 0 then 0
  else
    let start := anchor text GRAPHEME_MAX_BACKTRACK (utflite_prev_char text offset) in
    last (boundaries_before text offset (Z.to_nat offset) start) start.

(** ["a"] followed by 130 combining acute accents (U+0301): one cluster of
    131 codepoints and 261 bytes. *)
Definition long_cluster : list byte :=
  x61 :: concat (repeat [xcc; x81] 130).

Lemma rewind_anchor text bound pos :
  rewind text bound pos = anchor text bound pos.
Proof.
  revert pos. induction bound as [| b IH]; intros pos; simpl; [reflexivity |].
  destruct (Z.gtb_spec pos 0) as [Hpos | Hle];
    destruct (Z.leb_spec pos 0) as [H0 | H0]; try lia.
  pose proof (prev_char_range text pos Hpos).
  destruct (Z.eqb_spec (utflite_prev_char text pos) pos); [lia |].
  apply IH.
Qed.

Lemma anchor_range text bound pos :
  0 <= pos -> 0 <= anchor text bound pos <= pos.
Proof.
  intros H. rewrite <- rewind_anchor. now apply rewind_range.
Qed.

(** The anchor is the start of the buffer or lies the full bound of
    [utflite_prev_char] steps before the position. *)
Lemma anchor_steps text bound pos :
  0 <= pos ->
  anchor text bound pos = 0
  \/ anchor text bound pos = Nat.iter bound (utflite_prev_char text) pos.
Proof.
  revert pos. induction bound as [| b IH]; intros pos H; simpl anchor.
  - now right.
  - destruct (Z.leb_spec pos 0); [left; lia |].
    pose proof (prev_char_range text pos ltac:(lia)).
    destruct (IH (utflite_prev_char text pos) ltac:(lia)) as [E | E];
      [now left | right].
    now rewrite Nat.iter_succ_r.
Qed.

Lemma last_cons (a d : Z) (l : list Z) : last (a :: l) d = last l a.
Proof.
  revert a d. induction l as [| b l IH]; intros a d; [reflexivity |].
  change (last (a :: b :: l) d) with (last (b :: l) d).
  now rewrite (IH b d), (IH b a).
Qed.

(** The forward scan returns the last boundary of the enumeration, or its
    starting value when the enumeration is empty. *)
Lemma scan_forward_last text offset :
  forall (fuel : nat) (curr grapheme_start : Z),
    (Z.to_nat (offset - curr) <= fuel)%nat ->
    scan_forward text offset curr grapheme_start
    = last (boundaries_before text offset fuel curr) grapheme_start.
Proof.
  induction fuel as [| f IH]; intros curr gs Hf;
    rewrite scan_forward_equation_1;
    destruct (Z_lt_ge_dec curr offset) as [Hlt | Hge];
    cbn [scan_forward_unfold_clause_1 boundaries_before];
    try lia; try reflexivity.
  - pose proof (next_grapheme_progress (Some text) offset curr Hlt) as Hp.
    destruct (Z.geb_spec (utflite_next_grapheme (Some text) offset curr) offset);
      destruct (Z.ltb_spec (utflite_next_grapheme (Some text) offset curr) offset);
      try lia; [reflexivity |].
    rewrite last_cons. apply IH. lia.
  - assert (E : utflite_next_grapheme (Some text) offset curr = offset).
    { unfold utflite_next_grapheme.
      destruct (Z.geb_spec curr offset); [reflexivity | lia]. }
    rewrite E. now rewrite Z.ltb_irrefl.
Qed.

(** The enumeration does not depend on the fuel, once there is enough. *)
Lemma boundaries_before_fuel text offset :
  forall (fuel fuel' : nat) (from : Z),
    (Z.to_nat (offset - from) <= fuel)%nat ->
    (Z.to_nat (offset - from) <= fuel')%nat ->
    boundaries_before text offset fuel from
    = boundaries_before text offset fuel' from.
Proof.
  induction fuel as [| f IH]; intros fuel' from Hf Hf'.
  - destruct fuel' as [| f']; [reflexivity |]. cbn [boundaries_before].
    assert (E : utflite_next_grapheme (Some text) offset from = offset).
    { unfold utflite_next_grapheme.
      destruct (Z.geb_spec from offset); [reflexivity | lia]. }
    rewrite E. now rewrite Z.ltb_irrefl.
  - destruct fuel' as [| f']; cbn [boundaries_before].
    + assert (E : utflite_next_grapheme (Some text) offset from = offset).
      { unfold utflite_next_grapheme.
        destruct (Z.geb_spec from offset); [reflexivity | lia]. }
      rewrite E. now rewrite Z.ltb_irrefl.
    + destruct (Z.ltb_spec (utflite_next_grapheme (Some text) offset from)
                  offset) as [Hlt | Hge]; [| reflexivity].
      f_equal.
      destruct (Z_lt_ge_dec from offset) as [Hfo | Hfo].
      * pose proof (next_grapheme_progress (Some text) offset from Hfo).
        apply IH; lia.
      * exfalso. unfold utflite_next_grapheme in Hlt.
        destruct (Z.geb_spec from offset); cbn [orb] in Hlt; lia.
Qed.

(** C9, as stated, fails on [long_cluster] at its end (offset 261): the
    anchor, 128 codepoints before the last one, is offset 3; the rescan from
    it finds no boundary before 261, and the code returns the anchor, not 0.
    It also fails on malformed input through the guard on the previous
    codepoint boundary: after ["A"] and two stray continuation bytes
    [utflite_prev_char] leads from offset 3 to the start of the buffer and
    the code returns 0, although a rescan from 0 finds the boundaries 1
    and 2. *)
Lemma prev_grapheme_stated_fails :
  (anchor long_cluster GRAPHEME_MAX_BACKTRACK
     (utflite_prev_char long_cluster 261) = 3
   /\ boundaries_before long_cluster 261 (Z.to_nat 261) 3 = []
   /\ utflite_prev_grapheme (Some long_cluster) 261 = 3
   /\ utflite_prev_grapheme (Some long_cluster) 261
      <> prev_grapheme_stated long_cluster 261)
  /\ (utflite_prev_char [x41; x80; x80] 3 = 0
      /\ boundaries_before [x41; x80; x80] 3 (Z.to_nat 3) 0 = [1; 2]
      /\ utflite_prev_grapheme (Some [x41; x80; x80]) 3 = 0
      /\ utflite_prev_grapheme (Some [x41; x80; x80]) 3
         <> prev_grapheme_stated [x41; x80; x80] 3).
Proof.
  split.
  - split; [vm_compute; reflexivity |].
    split; [vm_compute; reflexivity |].
    split; [vm_compute; reflexivity |].
    vm_compute. discriminate.
  - split; [vm_compute; reflexivity |].
    split; [vm_compute; reflexivity |].
    split; [vm_compute; reflexivity |].
    vm_compute. discriminate.
Qed.

(** C9 (amended): from an offset above 0, [utflite_prev_grapheme] returns 0
    when [utflite_prev_char] leads to the start of the buffer; otherwise it
    rewinds by [utflite_prev_char] to an anchor at most 128 codepoints before
    the previous codepoint boundary (or at the start of the buffer), rescans
    forward with [utflite_next_grapheme] bounded at the offset, and returns
    the last boundary strictly before the offset found this way, or the
    anchor itself if none is found. *)
Theorem prev_grapheme_rescans : forall (text : list byte) (offset : Z),
  0 < offset ->
  utflite_prev_grapheme (Some text) offset = prev_grapheme_rescan text offset
  /\ (let start := anchor text GRAPHEME_MAX_BACKTRACK
                     (utflite_prev_char text offset) in
      0 <= start <= utflite_prev_char text offset
      /\ (start = 0
          \/ start = Nat.iter GRAPHEME_MAX_BACKTRACK (utflite_prev_char text)
                       (utflite_prev_char text offset))).
Proof.
  intros text offset Hpos.
  pose proof (prev_char_range text offset Hpos) as Hp.
  split.
  - unfold utflite_prev_grapheme, prev_grapheme_rescan.
    destruct (Z.leb_spec offset 0); [lia |].
    cbv zeta.
    destruct (Z.gtb_spec offset 0); [| lia].
    rewrite andb_true_r.
    destruct (Z.eqb_spec (utflite_prev_char text offset) 0); [reflexivity |].
    rewrite rewind_anchor.
    apply scan_forward_last.
    pose proof (anchor_range text GRAPHEME_MAX_BACKTRACK
                  (utflite_prev_char text offset) ltac:(lia)).
    lia.
  - cbv zeta. split.
    + apply anchor_range. lia.
    + apply anchor_steps. lia.
Qed.

(** The amended rescan on [long_cluster]: the anchor is returned. *)
Lemma prev_grapheme_rescans_witness :
  utflite_prev_grapheme (Some long_cluster) 261
  = prev_grapheme_rescan long_cluster 261.
Proof.
  apply (prev_grapheme_rescans long_cluster 261). lia.
Defined.

(** * Further properties of the library *)

(** ** Buffers *)

Lemma load_advance text o i :
  0 <= o -> 0 <= i -> load (advance text o) i = load text (o + i).
Proof.
  intros Ho Hi. unfold load, advance. rewrite nth_skipn. f_equal. lia.
Qed.

Lemma load_firstn text n i :
  0 <= i < n -> load (firstn (Z.to_nat n) text) i = load text i.
Proof.
  intros H. unfold load. rewrite nth_firstn.
  destruct (Nat.ltb_spec (Z.to_nat i) (Z.to_nat n)); [reflexivity | lia].
Qed.

Lemma store_length buffer i c : length (store buffer i c) = length buffer.
Proof.
  revert i. induction buffer as [| b rest IH]; intros i; [reflexivity |].
  destruct i; simpl; [reflexivity | now rewrite IH].
Qed.

Lemma load_store_other buffer i c j :
  0 <= j -> Z.of_nat i <> j -> load (store buffer i c) j = load buffer j.
Proof.
  unfold load. intros Hj Hne.
  assert (Hn : i <> Z.to_nat j) by lia. clear Hne Hj.
  revert i Hn. generalize (Z.to_nat j) as k.
  induction buffer as [| b rest IH]; intros k i Hn; [reflexivity |].
  destruct i, k; simpl; try reflexivity; try lia.
  apply IH. lia.
Qed.

Lemma to_char_uchar c : to_char (uchar c) = c.
Proof.
  unfold to_char, uchar.
  pose proof (Byte.to_N_bounded c).
  rewrite N.mod_small by lia. now rewrite Byte.of_to_N.
Qed.

(** ** Decoding *)

Lemma decode_check_valid_result n v :
  valid_codepoint (fst (decode_check n v)).
Proof.
  unfold decode_check, valid_codepoint, UTFLITE_REPLACEMENT_CHAR.
  destruct (_ || _); [simpl; lia |].
  destruct (N.leb_spec 0xD800 v); destruct (N.leb_spec v 0xDFFF);
    cbn [andb]; try (simpl; lia);
    (destruct (N.ltb_spec 0x10FFFF v); simpl; lia).
Qed.

Lemma decode_consumed_le bytes length :
  1 <= length -> snd (utflite_decode bytes length) <= length.
Proof.
  destruct bytes as [bytes |]; intros Hl; [| simpl; lia].
  rewrite decode_cases.
  destruct (Z.leb_spec length 0); [lia |].
  destruct (uchar (load bytes 0) <? 128)%N; [simpl; lia |].
  destruct (declared_length (uchar (load bytes 0))) as [n |]; [| simpl; lia].
  destruct (Z.ltb_spec length n); [simpl; lia |].
  destruct (forallb _ _); [| simpl; lia].
  rewrite decode_check_snd. lia.
Qed.

Lemma next_char_unclamped text length offset :
  offset < length ->
  utflite_next_char text length offset
  = offset + snd (decode_at text length offset).
Proof.
  intros Hlt. unfold utflite_next_char.
  destruct (Z.geb_spec offset length); [lia |]. cbv zeta.
  pose proof (decode_consumed_le (Some (advance text offset))
                (length - offset) ltac:(lia)) as Hc.
  fold (decode_at text length offset) in Hc.
  destruct (Z.gtb_spec (offset + snd (decode_at text length offset)) length);
    [lia | reflexivity].
Qed.

(** X1: whatever the buffer holds, the codepoint [utflite_decode] returns is
    a Unicode scalar value (at most U+10FFFF and no surrogate), and with at
    least one byte available it never consumes more bytes than [length]; so
    [utflite_next_char] is the offset plus the bytes consumed, without
    clamping. *)
Theorem decode_within_bounds :
  (forall (bytes : option (list byte)) (length : Z),
      valid_codepoint (fst (utflite_decode bytes length)))
  /\ (forall (bytes : option (list byte)) (length : Z),
         1 <= length -> snd (utflite_decode bytes length) <= length)
  /\ (forall (text : list byte) (length offset : Z),
         0 <= offset < length ->
         utflite_next_char text length offset
         = offset + snd (decode_at text length offset)).
Proof.
  split; [| split; [exact decode_consumed_le
                   | intros; apply next_char_unclamped; lia]].
  intros [bytes |] length;
    [| unfold valid_codepoint; simpl; unfold UTFLITE_REPLACEMENT_CHAR; lia].
  rewrite decode_cases.
  assert (Hr : valid_codepoint UTFLITE_REPLACEMENT_CHAR)
    by (unfold valid_codepoint, UTFLITE_REPLACEMENT_CHAR; lia).
  destruct (length <=? 0); [exact Hr |].
  destruct (N.ltb_spec (uchar (load bytes 0)) 128);
    [unfold valid_codepoint; simpl; lia |].
  destruct (declared_length (uchar (load bytes 0))) as [n |]; [| exact Hr].
  destruct (length <? n); [exact Hr |].
  destruct (forallb _ _); [| exact Hr].
  apply decode_check_valid_result.
Qed.

(** The lead byte of a three-byte sequence at the end of the buffer: one
    byte is available and one byte is consumed. *)
Lemma decode_within_bounds_witness :
  snd (utflite_decode (Some [xe4]) 1) <= 1
  /\ utflite_next_char [x41; xe4] 2 1
     = 1 + snd (decode_at [x41; xe4] 2 1).
Proof.
  destruct decode_within_bounds as (_ & Hle & Hnc).
  split; [apply Hle; lia | apply Hnc; lia].
Defined.

(** X2: [utflite_decode] reads the first [length] bytes of the buffer only:
    two buffers that agree there decode alike, and so does the buffer cut at
    [length]. *)
Theorem decode_reads_within_length :
  forall (b1 b2 : list byte) (length : Z),
    (forall i, 0 <= i < length -> load b1 i = load b2 i) ->
    utflite_decode (Some b1) length = utflite_decode (Some b2) length
    /\ utflite_decode (Some (firstn (Z.to_nat length) b1)) length
       = utflite_decode (Some b1) length.
Proof.
  intros b1 b2 length H. split.
  - now apply decode_footprint.
  - apply decode_footprint. intros i Hi. now apply load_firstn.
Qed.

(** The bytes after a two-byte sequence do not matter. *)
Lemma decode_reads_within_length_witness :
  utflite_decode (Some [xc3; xa9; x41]) 2
  = utflite_decode (Some [xc3; xa9; xff]) 2
  /\ utflite_decode (Some (firstn (Z.to_nat 2) [xc3; xa9; x41])) 2
     = utflite_decode (Some [xc3; xa9; x41]) 2.
Proof.
  apply (decode_reads_within_length [xc3; xa9; x41] [xc3; xa9; xff] 2).
  intros i Hi.
  assert (i = 0 \/ i = 1) as [-> | ->] by lia; reflexivity.
Defined.

(** ** Encoding *)

(** The bytes [utflite_encode] writes for a valid codepoint, as numbers:
    the payload is cut into groups of six bits, most significant first. *)
Lemma encode_layout (cp : N) (buffer : list byte) :
  valid_codepoint cp ->
  UTFLITE_MAX_BYTES <= Z.of_nat (length buffer) ->
  let n := fst (utflite_encode cp buffer) in
  let b i := uchar (load (snd (utflite_encode cp buffer)) i) in
  ((cp < 0x80)%N /\ n = 1 /\ b 0 = cp)
  \/ (exists q r,
         (0x80 <= cp < 0x800 /\ q < 32 /\ r < 64 /\ cp = q * 64 + r)%N
         /\ n = 2 /\ b 0 = (192 + q)%N /\ b 1 = (128 + r)%N)
  \/ (exists q r s,
         (0x800 <= cp < 0x10000 /\ q < 16 /\ r < 64 /\ s < 64
          /\ cp = (q * 64 + r) * 64 + s)%N
         /\ n = 3 /\ b 0 = (224 + q)%N /\ b 1 = (128 + r)%N
         /\ b 2 = (128 + s)%N)
  \/ (exists q r s t,
         (0x10000 <= cp /\ q < 8 /\ r < 64 /\ s < 64 /\ t < 64
          /\ cp = ((q * 64 + r) * 64 + s) * 64 + t)%N
         /\ n = 4 /\ b 0 = (240 + q)%N /\ b 1 = (128 + r)%N
         /\ b 2 = (128 + s)%N /\ b 3 = (128 + t)%N).
Proof.
  intros Hv Hlen. cbv zeta.
  destruct buffer as [| c0 [| c1 [| c2 [| c3 rest]]]];
    try (unfold UTFLITE_MAX_BYTES in Hlen; simpl in Hlen; lia).
  clear Hlen. pose proof Hv as [Hmax Hsur].
  destruct (split6 cp) as (q1 & r1 & E1 & Hr1 & S1 & L1).
  destruct (split6 q1) as (q2 & r2 & E2 & Hr2 & S2 & L2).
  destruct (split6 q2) as (q3 & r3 & E3 & Hr3 & S3 & L3).
  assert (S12 : N.shiftr cp 12 = q2)
    by (rewrite <- S2, <- S1, N.shiftr_shiftr; reflexivity).
  assert (S18 : N.shiftr cp 18 = q3)
    by (rewrite <- S3, <- S2, <- S1, !N.shiftr_shiftr; reflexivity).
  unfold utflite_encode.
  destruct (N.ltb_spec cp 0x80) as [H1 | H1].
  { left. cbn [fst snd store]. split; [exact H1 |]. split; [reflexivity |].
    unfold load. cbn [Z.to_nat nth]. apply uchar_to_char_small. lia. }
  destruct (N.ltb_spec cp 0x800) as [H2 | H2].
  { right. left. exists q1, r1. cbn [fst snd store].
    split; [lia |]. split; [reflexivity |]. split.
    - unfold load. cbn [Z.to_nat nth]. rewrite S1. apply lead_two. lia.
    - unfold load. change (Z.to_nat 1) with 1%nat. cbn [nth].
      rewrite L1. now apply continuation_byte. }
  destruct (N.ltb_spec cp 0x10000) as [H3 | H3].
  { destruct ((0xD800 <=? cp) && (cp <=? 0xDFFF))%N eqn:Es.
    { apply andb_prop in Es. destruct Es as [Ea Eb].
      apply N.leb_le in Ea. apply N.leb_le in Eb. lia. }
    right. right. left. exists q2, r2, r1. cbn [fst snd store].
    split; [lia |]. split; [reflexivity |]. split; [| split].
    - unfold load. cbn [Z.to_nat nth]. rewrite S12. apply lead_three. lia.
    - unfold load. change (Z.to_nat 1) with 1%nat. cbn [nth].
      rewrite S1, L2. now apply continuation_byte.
    - unfold load. change (Z.to_nat 2) with 2%nat. cbn [nth].
      rewrite L1. now apply continuation_byte. }
  destruct (N.leb_spec cp 0x10FFFF) as [H4 | H4]; [| lia].
  right. right. right. exists q3, r3, r2, r1. cbn [fst snd store].
  split; [lia |]. split; [reflexivity |]. split; [| split; [| split]].
  - unfold load. cbn [Z.to_nat nth]. rewrite S18. apply lead_four. lia.
  - unfold load. change (Z.to_nat 1) with 1%nat. cbn [nth].
    rewrite S12, L3. now apply continuation_byte.
  - unfold load. change (Z.to_nat 2) with 2%nat. cbn [nth].
    rewrite S1, L2. now apply continuation_byte.
  - unfold load. change (Z.to_nat 3) with 3%nat. cbn [nth].
    rewrite L1. now apply continuation_byte.
Qed.

(** X3: [utflite_encode] writes the bytes it counts and nothing else: the
    buffer keeps its length, and every byte from the returned count on is
    left as it was. *)
Theorem encode_frame : forall (codepoint : N) (buffer : list byte),
  length (snd (utflite_encode codepoint buffer)) = length buffer
  /\ forall i, fst (utflite_encode codepoint buffer) <= i ->
               load (snd (utflite_encode codepoint buffer)) i = load buffer i.
Proof.
  intros cp buffer. unfold utflite_encode.
  repeat match goal with
         | |- context [if ?c then _ else _] => destruct c
         end;
    cbn [fst snd];
    (split; [now rewrite ?store_length |]);
    intros i Hi; rewrite ?load_store_other; trivial; simpl; lia.
Qed.

(** U+00E9 takes two bytes; the third and fourth byte of the buffer stay. *)
Lemma encode_frame_witness :
  load (snd (utflite_encode 0xE9 [x01; x02; x03; x04])) 2
  = load [x01; x02; x03; x04] 2.
Proof.
  apply (proj2 (encode_frame 0xE9 [x01; x02; x03; x04]) 2).
  vm_compute. discriminate.
Defined.

Lemma decode_check_success n v :
  fst (decode_check n v) <> UTFLITE_REPLACEMENT_CHAR ->
  decode_check n v = (v, n)
  /\ valid_codepoint v
  /\ (n = 2 -> (0x80 <= v)%N) /\ (n = 3 -> (0x800 <= v)%N)
  /\ (n = 4 -> (0x10000 <= v)%N).
Proof.
  unfold decode_check, valid_codepoint.
  destruct (Z.eqb_spec n 2); destruct (Z.eqb_spec n 3);
    destruct (Z.eqb_spec n 4); try lia;
    destruct (N.ltb_spec v 0x80); destruct (N.ltb_spec v 0x800);
    destruct (N.ltb_spec v 0x10000); cbn [andb orb fst];
    try (intros Hx; now elim Hx); try lia;
    (destruct (N.leb_spec 0xD800 v); destruct (N.leb_spec v 0xDFFF);
     cbn [andb fst]; try (intros Hx; now elim Hx);
     (destruct (N.ltb_spec 0x10FFFF v); cbn [fst];
      [intros Hx; now elim Hx |]);
     intros _; repeat split; lia).
Qed.

(** X4: UTF-8 is canonical for the codec: when [utflite_decode] yields a
    codepoint other than U+FFFD from [n] bytes, [utflite_encode] of that
    codepoint writes exactly these [n] bytes. *)
Theorem decode_encode_canonical :
  forall (bytes : list byte) (length : Z) (buffer : list byte),
    UTFLITE_MAX_BYTES <= Z.of_nat (List.length buffer) ->
    fst (utflite_decode (Some bytes) length) <> UTFLITE_REPLACEMENT_CHAR ->
    fst (utflite_encode (fst (utflite_decode (Some bytes) length)) buffer)
    = snd (utflite_decode (Some bytes) length)
    /\ forall i, 0 <= i < snd (utflite_decode (Some bytes) length) ->
         load (snd (utflite_encode (fst (utflite_decode (Some bytes) length))
                      buffer)) i
         = load bytes i.
Proof.
  intros bytes length buffer Hbuf.
  rewrite decode_cases.
  destruct (length <=? 0); [intros Hx; now elim Hx |].
  destruct (N.ltb_spec (uchar (load bytes 0)) 128) as [Ha | Ha].
  { (* one byte *)
    intros _. cbn [fst snd].
    assert (Hv : valid_codepoint (uchar (load bytes 0)))
      by (unfold valid_codepoint; lia).
    destruct (encode_layout _ buffer Hv Hbuf)
      as [(_ & En & B0) | [(q & r & ? & _) | [(q & r & s & ? & _)
                                              | (q & r & s & t & ? & _)]]];
      try lia.
    split; [exact En |].
    intros i Hi. assert (i = 0) as -> by lia. now apply uchar_inj. }
  destruct (declared_length (uchar (load bytes 0))) as [n |] eqn:Ed;
    [| intros Hx; now elim Hx].
  destruct (length <? n); [intros Hx; now elim Hx |].
  assert (Hn : n = 2 \/ n = 3 \/ n = 4).
  { destruct (declared_length_cases _ _ Ed) as [[? _] | [[? _] | [? _]]]; lia. }
  destruct (forallb _ _) eqn:Ef; [| intros Hx; now elim Hx].
  pose proof (proj1 (continuations_all bytes n Hn) Ef) as Hc.
  assert (Hcont : forall i, 1 <= i < n ->
                            (128 <= uchar (load bytes i) < 192)%N).
  { intros i Hi. specialize (Hc i Hi). unfold is_continuation in Hc.
    apply andb_prop in Hc. destruct Hc as [H1 H2].
    apply N.leb_le in H1. apply N.ltb_lt in H2. lia. }
  intros Hok.
  destruct (decode_check_success _ _ Hok) as (Ev & Hv & Hm2 & Hm3 & Hm4).
  rewrite Ev. cbn [fst snd].
  pose proof (encode_layout _ buffer Hv Hbuf) as Hlay. cbv zeta in Hlay.
  unfold sequence_value in *.
  destruct (declared_length_cases _ _ Ed) as [[-> Hr] | [[-> Hr] | [-> Hr]]].
  - change (2 =? 2) with true in *. cbv iota in *.
    pose proof (Hcont 1 ltac:(lia)) as H1. specialize (Hm2 eq_refl).
    destruct Hlay
      as [(? & _) | [(q & r & Hq & En & B0 & B1)
                    | [(q & r & s & ? & _) | (q & r & s & t & ? & _)]]];
      try lia.
    split; [exact En |]. intros i Hi.
    assert (i = 0 \/ i = 1) as [-> | ->] by lia; apply uchar_inj; lia.
  - change (3 =? 2) with false in *. change (3 =? 3) with true in *.
    cbv iota in *.
    pose proof (Hcont 1 ltac:(lia)) as H1.
    pose proof (Hcont 2 ltac:(lia)) as H2. specialize (Hm3 eq_refl).
    destruct Hlay
      as [(? & _) | [(q & r & ? & _)
                    | [(q & r & s & Hq & En & B0 & B1 & B2)
                      | (q & r & s & t & ? & _)]]];
      try lia.
    split; [exact En |]. intros i Hi.
    assert (i = 0 \/ i = 1 \/ i = 2) as [-> | [-> | ->]] by lia;
      apply uchar_inj; lia.
  - change (4 =? 2) with false in *. change (4 =? 3) with false in *.
    change (4 =? 4) with true in *. cbv iota in *.
    pose proof (Hcont 1 ltac:(lia)) as H1.
    pose proof (Hcont 2 ltac:(lia)) as H2.
    pose proof (Hcont 3 ltac:(lia)) as H3. specialize (Hm4 eq_refl).
    destruct Hlay
      as [(? & _) | [(q & r & ? & _)
                    | [(q & r & s & ? & _)
                      | (q & r & s & t & Hq & En & B0 & B1 & B2 & B3)]]];
      try lia.
    split; [exact En |]. intros i Hi.
    assert (i = 0 \/ i = 1 \/ i = 2 \/ i = 3) as [-> | [-> | [-> | ->]]]
        by lia;
      apply uchar_inj; lia.
Qed.

(** The three bytes of U+4E2D, decoded and encoded again. *)
Lemma decode_encode_canonical_witness :
  fst (utflite_encode (fst (utflite_decode (Some [xe4; xb8; xad]) 3))
         [x00; x00; x00; x00])
  = snd (utflite_decode (Some [xe4; xb8; xad]) 3).
Proof.
  apply (decode_encode_canonical [xe4; xb8; xad] 3 [x00; x00; x00; x00]).
  - unfold UTFLITE_MAX_BYTES. simpl. lia.
  - vm_compute. discriminate.
Defined.

(** ** The codec and the string functions together *)

Lemma advance_zero text : advance text 0 = text.
Proof. reflexivity. Qed.

Lemma encode_then_decode (cp : N) (buffer : list byte) :
  valid_codepoint cp ->
  UTFLITE_MAX_BYTES <= Z.of_nat (length buffer) ->
  decode_at (snd (utflite_encode cp buffer))
    (fst (utflite_encode cp buffer)) 0
  = (cp, fst (utflite_encode cp buffer))
  /\ 1 <= fst (utflite_encode cp buffer) <= 4.
Proof.
  intros Hv Hbuf. unfold decode_at. rewrite advance_zero, Z.sub_0_r.
  pose proof (encode_layout cp buffer Hv Hbuf) as Hlay. cbv zeta in Hlay.
  destruct Hlay
    as [(Hc & En & B0)
       | [(q & r & Hq & En & B0 & B1)
         | [(q & r & s & Hq & En & B0 & B1 & B2)
           | (q & r & s & t & Hq & En & B0 & B1 & B2 & B3)]]];
    rewrite En; (split; [| lia]).
  - rewrite decode_cases. rewrite B0.
    destruct (N.ltb_spec cp 128); [reflexivity | lia].
  - rewrite (decode_two _ q r) by (try assumption; lia).
    replace (q * 64 + r)%N with cp by lia.
    apply decode_check_valid; [exact Hv | | lia].
    destruct (encoded_length_cases cp) as [? | [? | [? | ?]]]; lia.
  - rewrite (decode_three _ q r s) by (try assumption; lia).
    replace ((q * 64 + r) * 64 + s)%N with cp by lia.
    apply decode_check_valid; [exact Hv | | lia].
    destruct (encoded_length_cases cp) as [? | [? | [? | ?]]]; lia.
  - rewrite (decode_four _ q r s t) by (try assumption; lia).
    replace (((q * 64 + r) * 64 + s) * 64 + t)%N with cp by lia.
    apply decode_check_valid; [exact Hv | | lia].
    destruct (encoded_length_cases cp) as [? | [? | [? | ?]]]; lia.
Qed.

(** The encoding of U+FFFD itself is the byte sequence the validator looks
    for. *)
Lemma encode_replacement_literal (buffer : list byte) :
  UTFLITE_MAX_BYTES <= Z.of_nat (length buffer) ->
  not_literal_replacement (snd (utflite_encode UTFLITE_REPLACEMENT_CHAR buffer))
    (fst (utflite_encode UTFLITE_REPLACEMENT_CHAR buffer)) 0 = false.
Proof.
  intros Hbuf.
  destruct buffer as [| c0 [| c1 [| c2 [| c3 rest]]]];
    try (unfold UTFLITE_MAX_BYTES in Hbuf; simpl in Hbuf; lia).
  reflexivity.
Qed.

(** X5: what [utflite_encode] writes for a valid codepoint is a valid string
    of one codepoint: [utflite_validate] accepts it (also for U+FFFD, whose
    encoding is the literal the validator re-examines),
    [utflite_codepoint_count] is 1 and [utflite_string_width] is the width of
    the codepoint, or 0 for a control. *)
Theorem encoded_string :
  forall (cp : N) (buffer : list byte),
    valid_codepoint cp ->
    UTFLITE_MAX_BYTES <= Z.of_nat (length buffer) ->
    let text := snd (utflite_encode cp buffer) in
    let n := fst (utflite_encode cp buffer) in
    utflite_validate text n = (1, None)
    /\ utflite_codepoint_count text n = 1
    /\ utflite_string_width text n = Z.max 0 (utflite_codepoint_width cp).
Proof.
  intros cp buffer Hv Hbuf. cbv zeta.
  destruct (encode_then_decode cp buffer Hv Hbuf) as [Ed Hn].
  set (text := snd (utflite_encode cp buffer)) in *.
  set (n := fst (utflite_encode cp buffer)) in *.
  assert (Enc : utflite_next_char text n 0 = n).
  { rewrite next_char_unclamped by lia. rewrite Ed. simpl. lia. }
  split; [| split].
  - unfold utflite_validate. rewrite validate_loop_equation_1.
    destruct (Z_lt_ge_dec 0 n); [| lia].
    cbn [validate_loop_unfold_clause_1]. rewrite Ed. cbn [fst snd].
    replace ((cp =? UTFLITE_REPLACEMENT_CHAR)%N
             && not_literal_replacement text n 0) with false.
    + rewrite validate_loop_equation_1.
      destruct (Z_lt_ge_dec (0 + n) n); [lia | reflexivity].
    + symmetry. destruct (N.eqb_spec cp UTFLITE_REPLACEMENT_CHAR) as [E | E];
        [| reflexivity].
      subst text n. rewrite E. cbn [andb].
      now apply encode_replacement_literal.
  - unfold utflite_codepoint_count. rewrite codepoint_count_loop_equation_1.
    destruct (Z_lt_ge_dec 0 n); [| lia].
    cbn [codepoint_count_loop_unfold_clause_1]. rewrite Enc.
    rewrite codepoint_count_loop_equation_1.
    destruct (Z_lt_ge_dec n n); [lia | reflexivity].
  - unfold utflite_string_width. rewrite string_width_loop_step by lia.
    rewrite Enc. rewrite string_width_loop_exit by lia.
    unfold utflite_char_width.
    destruct (Z.geb_spec 0 n); [lia |]. rewrite Ed. cbn [fst].
    destruct (Z.gtb_spec (utflite_codepoint_width cp) 0); lia.
Qed.

(** U+FFFD encoded: three bytes that validate. *)
Lemma encoded_string_witness :
  utflite_validate (snd (utflite_encode 0xFFFD [x00; x00; x00; x00]))
    (fst (utflite_encode 0xFFFD [x00; x00; x00; x00])) = (1, None).
Proof.
  apply (encoded_string 0xFFFD [x00; x00; x00; x00]).
  - unfold valid_codepoint. lia.
  - unfold UTFLITE_MAX_BYTES. simpl. lia.
Defined.

(** The backward loop over a run of continuation bytes stops on the byte
    before the run. *)
Lemma prev_char_loop_back text limit o :
  forall (k : nat) (pos : Z),
    pos = o + Z.of_nat k -> limit <= o ->
    (forall i, o < i <= pos -> is_continuation (uchar (load text i)) = true) ->
    (o = limit \/ is_continuation (uchar (load text o)) = false) ->
    prev_char_loop text limit pos = o.
Proof.
  induction k as [| k IH]; intros pos Ep Hl Hrun Hstop;
    rewrite prev_char_loop_equation_1.
  - simpl in Ep. rewrite Z.add_0_r in Ep. subst pos.
    destruct (Z_gt_le_dec o limit); cbn [prev_char_loop_unfold_clause_1];
      [| reflexivity].
    destruct Hstop as [-> | Hstop]; [lia |].
    rewrite continuation_test, Hstop. reflexivity.
  - destruct (Z_gt_le_dec pos limit); cbn [prev_char_loop_unfold_clause_1];
      [| lia].
    rewrite continuation_test, Hrun by lia.
    apply IH; [lia | exact Hl | | exact Hstop].
    intros i Hi. apply Hrun. lia.
Qed.

(** X6: stepping forward over a character that decodes to anything but
    U+FFFD and then back with [utflite_prev_char] returns to where the
    character starts. *)
Theorem prev_char_after_next_char :
  forall (text : list byte) (length offset : Z),
    0 <= offset < length ->
    fst (decode_at text length offset) <> UTFLITE_REPLACEMENT_CHAR ->
    utflite_prev_char text (utflite_next_char text length offset) = offset.
Proof.
  intros text length o Ho Hok.
  rewrite next_char_unclamped by lia.
  pose proof (decode_consumed (Some (advance text o)) (length - o)) as Hc.
  fold (decode_at text length o) in Hc.
  set (n := snd (decode_at text length o)) in *.
  assert (Hshape :
            is_continuation (uchar (load text o)) = false
            /\ forall i, o < i <= o + n - 1 ->
                         is_continuation (uchar (load text i)) = true).
  { subst n. unfold decode_at in *. rewrite decode_cases in *.
    rewrite load_advance in * by lia. rewrite Z.add_0_r in *.
    destruct (length - o <=? 0); [now elim Hok |].
    destruct (N.ltb_spec (uchar (load text o)) 128) as [Ha | Ha].
    { cbn [snd]. split; [| intros; lia].
      unfold is_continuation.
      destruct (N.leb_spec 128 (uchar (load text o))); [lia | reflexivity]. }
    destruct (declared_length (uchar (load text o))) as [m |] eqn:Ed;
      [| now elim Hok].
    destruct (length - o <? m); [now elim Hok |].
    assert (Hm : m = 2 \/ m = 3 \/ m = 4).
    { destruct (declared_length_cases _ _ Ed) as [[? _] | [[? _] | [? _]]];
        lia. }
    destruct (forallb _ _) eqn:Ef; [| now elim Hok].
    rewrite decode_check_snd. split.
    - unfold is_continuation.
      destruct (declared_length_cases _ _ Ed) as [[_ ?] | [[_ ?] | [_ ?]]];
        (destruct (N.ltb_spec (uchar (load text o)) 192);
         [lia | apply andb_false_r]).
    - intros i Hi.
      pose proof (proj1 (continuations_all (advance text o) m Hm) Ef (i - o)
                    ltac:(lia)) as Hci.
      rewrite load_advance in Hci by lia.
      now replace (o + (i - o)) with i in Hci by lia. }
  destruct Hshape as [Hlead Hrun].
  unfold utflite_prev_char.
  destruct (Z.leb_spec (o + n) 0); [lia |].
  replace (o + n - 1) with (o + Z.of_nat (Z.to_nat (n - 1))) by lia.
  apply (prev_char_loop_back text _ o (Z.to_nat (n - 1)));
    [reflexivity | | | now right].
  - destruct (Z.gtb_spec (o + n) 4); lia.
  - intros i Hi. apply Hrun. lia.
Qed.

(** Forward over the CJK character at offset 1 and back. *)
Lemma prev_char_after_next_char_witness :
  utflite_prev_char [x41; xe4; xb8; xad]
    (utflite_next_char [x41; xe4; xb8; xad] 4 1) = 1.
Proof.
  apply (prev_char_after_next_char [x41; xe4; xb8; xad] 4 1).
  - lia.
  - vm_compute. discriminate.
Defined.

(** ** Property lookup *)

(** X7: on any table whose ranges are well formed, sorted and disjoint,
    with [count] the number of its ranges, [unicode_range_contains] answers 1
    when some range of the table holds the codepoint and 0 when none
    does. *)
Theorem unicode_range_contains_decides :
  forall (ranges : list utflite_unicode_range) (codepoint : N),
    sorted_ranges ranges = true ->
    (unicode_range_contains codepoint ranges (Z.of_nat (length ranges)) = 1
     /\ exists r, In r ranges
                  /\ (range_start r <= codepoint <= range_end r)%N)
    \/ (unicode_range_contains codepoint ranges (Z.of_nat (length ranges)) = 0
        /\ forall r, In r ranges ->
                     ~ (range_start r <= codepoint <= range_end r)%N).
Proof.
  intros ranges cp Hs.
  pose proof (unicode_range_contains_correct ranges Hs cp) as Hc.
  unfold unicode_range_contains in *.
  destruct (range_search_sound ranges cp 0 (Z.of_nat (length ranges) - 1))
    as [E | [E _]]; rewrite E in *;
    [change (truthy 0) with false in Hc | change (truthy 1) with true in Hc];
    symmetry in Hc.
  - right. split; [reflexivity |].
    intros r Hr Hin.
    assert (Ht : in_table cp ranges = true).
    { unfold in_table. apply existsb_exists. exists r. split; [exact Hr |].
      unfold in_range. apply andb_true_intro.
      split; apply N.leb_le; lia. }
    congruence.
  - left. split; [reflexivity |].
    unfold in_table in Hc. apply existsb_exists in Hc.
    destruct Hc as [r [Hr Hin]]. exists r. split; [exact Hr |].
    unfold in_range in Hin. apply andb_prop in Hin.
    destruct Hin as [H1 H2]. apply N.leb_le in H1. apply N.leb_le in H2. lia.
Qed.

(** KA (U+0915) is found in the table of Indic consonants. *)
Lemma unicode_range_contains_decides_witness :
  (unicode_range_contains 0x915 INCB_CONSONANTS
     (Z.of_nat (length INCB_CONSONANTS)) = 1
   /\ exists r, In r INCB_CONSONANTS
                /\ (range_start r <= 0x915 <= range_end r)%N)
  \/ (unicode_range_contains 0x915 INCB_CONSONANTS
        (Z.of_nat (length INCB_CONSONANTS)) = 0
      /\ forall r, In r INCB_CONSONANTS ->
                   ~ (range_start r <= 0x915 <= range_end r)%N).
Proof.
  apply (unicode_range_contains_decides INCB_CONSONANTS 0x915).
  vm_compute. reflexivity.
Defined.

Lemma truthy_01 x : x = 0 \/ x = 1 -> (truthy x = true <-> x = 1).
Proof.
  intros [-> | ->]; vm_compute; split; intros H;
    try discriminate H; reflexivity.
Qed.

Lemma unicode_range_contains_01 ranges cp count :
  unicode_range_contains cp ranges count = 0
  \/ unicode_range_contains cp ranges count = 1.
Proof.
  unfold unicode_range_contains.
  destruct (range_search_sound ranges cp 0 (count - 1)) as [E | [E _]];
    [now left | now right].
Qed.

(** X8: [utflite_is_zero_width] and [utflite_is_wide] answer 1 exactly on
    the codepoints of their tables and 0 elsewhere, and they agree with
    [utflite_codepoint_width]: the width is 0 exactly for NUL and the
    zero-width codepoints, 2 exactly for the wide codepoints that are not
    zero-width, and always between -1 and 2. *)
Theorem width_predicates : forall cp : N,
  (utflite_is_zero_width cp = 1 <-> in_table cp ZERO_WIDTH_RANGES = true)
  /\ (utflite_is_zero_width cp = 0 <-> in_table cp ZERO_WIDTH_RANGES = false)
  /\ (utflite_is_wide cp = 1 <-> in_table cp DOUBLE_WIDTH_RANGES = true)
  /\ (utflite_is_wide cp = 0 <-> in_table cp DOUBLE_WIDTH_RANGES = false)
  /\ (utflite_codepoint_width cp = 0
      <-> cp = 0%N \/ utflite_is_zero_width cp = 1)
  /\ (utflite_codepoint_width cp = 2
      <-> utflite_is_wide cp = 1 /\ utflite_is_zero_width cp = 0)
  /\ -1 <= utflite_codepoint_width cp <= 2.
Proof.
  intros cp.
  pose proof (is_zero_width_in_table cp) as Hz.
  pose proof (is_wide_in_table cp) as Hw.
  pose proof (unicode_range_contains_01 ZERO_WIDTH_RANGES cp ZERO_WIDTH_COUNT)
    as Hz01.
  pose proof (unicode_range_contains_01 DOUBLE_WIDTH_RANGES cp
                DOUBLE_WIDTH_COUNT) as Hw01.
  fold (utflite_is_zero_width cp) in Hz01. fold (utflite_is_wide cp) in Hw01.
  assert (Ez : utflite_is_zero_width cp = 1
               <-> in_table cp ZERO_WIDTH_RANGES = true).
  { rewrite <- Hz. symmetry. apply truthy_01. tauto. }
  assert (Ew : utflite_is_wide cp = 1
               <-> in_table cp DOUBLE_WIDTH_RANGES = true).
  { rewrite <- Hw. symmetry. apply truthy_01. tauto. }
  assert (Ez0 : utflite_is_zero_width cp = 0
                <-> in_table cp ZERO_WIDTH_RANGES = false).
  { rewrite <- not_true_iff_false, <- Ez. lia. }
  assert (Ew0 : utflite_is_wide cp = 0
                <-> in_table cp DOUBLE_WIDTH_RANGES = false).
  { rewrite <- not_true_iff_false, <- Ew. lia. }
  split; [exact Ez |]. split; [exact Ez0 |].
  split; [exact Ew |]. split; [exact Ew0 |].
  rewrite Ez, Ew, Ez0. rewrite codepoint_width_cases.
  pose proof (zero_width_table_min cp) as Mz.
  pose proof (double_width_table_min cp) as Md.
  assert (Had : in_table 0xAD DOUBLE_WIDTH_RANGES = false)
    by (vm_compute; reflexivity).
  destruct (N.ltb_spec cp 0x20); [destruct (N.eqb_spec cp 0) |];
    [| | destruct (N.ltb_spec cp 0x7F);
         [| destruct (N.eqb_spec cp 0x7F);
            [| destruct (N.ltb_spec cp 0xA0);
               [| destruct (N.eqb_spec cp 0xAD)]]]].
  all: try subst cp; try rewrite Had.
  all: destruct (in_table _ ZERO_WIDTH_RANGES) eqn:Tz;
    destruct (in_table _ DOUBLE_WIDTH_RANGES) eqn:Td.
  all: try specialize (Mz eq_refl); try specialize (Md eq_refl).
  all: try lia.
  all: repeat split; try intros; try lia; try discriminate; try tauto.
  all: try (left; lia); try (right; reflexivity).
  all: try (intuition (try lia; try discriminate)).
Qed.

(** U+0301, a combining accent: zero-width, hence of width 0. *)
Lemma width_predicates_witness :
  utflite_is_zero_width 0x301 = 1 /\ utflite_codepoint_width 0x301 = 0.
Proof.
  destruct (width_predicates 0x301%N) as (Hz & _ & _ & _ & H0 & _).
  assert (E : utflite_is_zero_width 0x301 = 1)
    by (apply Hz; vm_compute; reflexivity).
  split; [exact E | apply H0; right; exact E].
Defined.

(** [INCB_LINKERS] read as a table of one-codepoint ranges. *)
Definition linker_ranges : list utflite_unicode_range :=
  map (fun x => rg x x) INCB_LINKERS.

Lemma linker_search_ranges cp low high :
  linker_search cp low high = range_search cp linker_ranges low high.
Proof.
  remember (Z.to_nat (high - low + 1)) as m eqn:Em.
  revert low high Em. induction m as [m IH] using lt_wf_ind. intros.
  rewrite linker_search_equation_1, range_search_equation_1.
  destruct (Z_le_gt_dec low high) as [Hle | Hgt];
    cbn [linker_search_unfold_clause_1 range_search_unfold_clause_1];
    [| reflexivity].
  pose proof (midpoint_bounds low high Hle).
  assert (E : range_at linker_ranges (midpoint low high)
              = rg (linker_at (midpoint low high))
                   (linker_at (midpoint low high))).
  { unfold range_at, linker_ranges, linker_at.
    exact (map_nth (fun x => rg x x) INCB_LINKERS 0%N _). }
  rewrite E. cbn [range_start range_end].
  destruct (cp <? linker_at (midpoint low high))%N.
  - eapply IH; [| reflexivity]. lia.
  - destruct (linker_at (midpoint low high) <? cp)%N; [| reflexivity].
    eapply IH; [| reflexivity]. lia.
Qed.

(** X9: [is_incb_linker] answers 1 exactly on the codepoints listed in
    [INCB_LINKERS] and 0 on every other codepoint. *)
Theorem is_incb_linker_decides : forall cp : N,
  (is_incb_linker cp = 1 /\ In cp INCB_LINKERS)
  \/ (is_incb_linker cp = 0 /\ ~ In cp INCB_LINKERS).
Proof.
  intros cp.
  assert (Hs : sorted_ranges linker_ranges = true)
    by (vm_compute; reflexivity).
  assert (Hin : in_table cp linker_ranges = true <-> In cp INCB_LINKERS).
  { unfold in_table, linker_ranges. rewrite existsb_exists. split.
    - intros [r [Hr Hc]]. apply in_map_iff in Hr. destruct Hr as [x [<- Hx]].
      unfold in_range in Hc. cbn [range_start range_end] in Hc.
      apply andb_prop in Hc. destruct Hc as [H1 H2].
      apply N.leb_le in H1. apply N.leb_le in H2.
      assert (x = cp) as <- by lia. exact Hx.
    - intros Hx. exists (rg cp cp). split.
      + apply in_map_iff. now exists cp.
      + unfold in_range. cbn [range_start range_end].
        now rewrite N.leb_refl. }
  pose proof (unicode_range_contains_correct linker_ranges Hs cp) as Hc.
  unfold is_incb_linker. rewrite linker_search_ranges.
  unfold unicode_range_contains in Hc.
  replace (Z.of_nat (length linker_ranges)) with INCB_LINKER_COUNT in Hc
    by (unfold linker_ranges, INCB_LINKER_COUNT; now rewrite length_map).
  destruct (range_search_sound linker_ranges cp 0 (INCB_LINKER_COUNT - 1))
    as [E | [E _]]; rewrite E in *;
    [change (truthy 0) with false in Hc | change (truthy 1) with true in Hc];
    symmetry in Hc.
  - right. split; [reflexivity |]. rewrite <- Hin. congruence.
  - left. split; [reflexivity |]. now apply Hin.
Qed.

(** *** The Grapheme_Cluster_Break property *)

Definition gcb_in (cp : N) (g : gcb_range) : bool :=
  ((gcb_start g <=? cp) && (cp <=? gcb_end g))%N.

Definition is_hangul_syllable (cp : N) : Prop :=
  (HANGUL_SBASE <= cp <= HANGUL_SEND)%N.

(** An answer of the search other than [GCB_OTHER] is the property of a
    range that holds the codepoint. *)
Lemma gcb_search_sound cp low high :
  gcb_search cp low high = GCB_OTHER
  \/ exists k, low <= k <= high
               /\ gcb_in cp (gcb_at k) = true
               /\ gcb_search cp low high = gcb_prop (gcb_at k).
Proof.
  remember (Z.to_nat (high - low + 1)) as m eqn:Em.
  revert low high Em. induction m as [m IH] using lt_wf_ind. intros.
  rewrite gcb_search_equation_1.
  destruct (Z_le_gt_dec low high) as [Hle | Hgt];
    cbn [gcb_search_unfold_clause_1]; [| now left].
  pose proof (midpoint_bounds low high Hle) as Hm.
  destruct (N.ltb_spec cp (gcb_start (gcb_at (midpoint low high)))).
  - destruct (IH (Z.to_nat (midpoint low high - 1 - low + 1)) ltac:(lia)
                low (midpoint low high - 1) eq_refl) as [E | [k [Hk [Hin E]]]];
      [now left | right].
    exists k. split; [lia |]. split; [exact Hin | exact E].
  - destruct (N.ltb_spec (gcb_end (gcb_at (midpoint low high))) cp).
    + destruct (IH (Z.to_nat (high - (midpoint low high + 1) + 1)) ltac:(lia)
                  (midpoint low high + 1) high eq_refl)
        as [E | [k [Hk [Hin E]]]];
        [now left | right].
      exists k. split; [lia |]. split; [exact Hin | exact E].
    + right. exists (midpoint low high). split; [lia |].
      split; [| reflexivity].
      unfold gcb_in. apply andb_true_intro. split; apply N.leb_le; lia.
Qed.

Lemma gcb_at_in k : 0 <= k < GCB_RANGE_COUNT -> In (gcb_at k) GCB_RANGES.
Proof.
  intros H. unfold gcb_at. apply nth_In. unfold GCB_RANGE_COUNT in H. lia.
Qed.

(** X10: [get_gcb] classifies exactly the Hangul syllables U+AC00..U+D7A3
    as LV or LVT (LV when the offset from U+AC00 is a multiple of 28);
    for every other codepoint its answer is [GCB_OTHER] or the property of
    a range of [GCB_RANGES] that holds the codepoint. *)
Theorem get_gcb_sound : forall cp : N,
  (is_hangul_syllable cp
   /\ get_gcb cp
      = if ((cp - HANGUL_SBASE) mod HANGUL_TCOUNT =? 0)%N
        then GCB_LV else GCB_LVT)
  \/ (~ is_hangul_syllable cp
      /\ get_gcb cp <> GCB_LV /\ get_gcb cp <> GCB_LVT
      /\ (get_gcb cp = GCB_OTHER
          \/ exists g, In g GCB_RANGES /\ gcb_in cp g = true
                       /\ gcb_prop g = get_gcb cp)).
Proof.
  intros cp. unfold get_gcb, is_hangul_syllable.
  destruct (N.leb_spec HANGUL_SBASE cp); destruct (N.leb_spec cp HANGUL_SEND);
    cbn [andb]; [left; split; [lia | reflexivity] | | |];
    (right; split; [lia |]).
  all: assert (Hnone : forallb (fun g =>
                          negb (gcb_property_beq (gcb_prop g) GCB_LV)
                          && negb (gcb_property_beq (gcb_prop g) GCB_LVT))
                         GCB_RANGES = true) by (vm_compute; reflexivity).
  all: rewrite forallb_forall in Hnone.
  all: destruct (gcb_search_sound cp 0 (GCB_RANGE_COUNT - 1))
      as [E | [k [Hk [Hin E]]]].
  all: try (rewrite E; split; [discriminate |];
            split; [discriminate | now left]).
  all: specialize (Hnone (gcb_at k) (gcb_at_in k ltac:(lia)));
    rewrite E;
    (split; [| split]);
    [ intros Hp; rewrite Hp in Hnone; discriminate
    | intros Hp; rewrite Hp in Hnone; discriminate
    | right; exists (gcb_at k);
      split; [apply gcb_at_in; lia | split; [exact Hin | reflexivity]] ].
Qed.

(** The table lookup [get_gcb] stands for: the property of the first range
    of [GCB_RANGES] that holds the codepoint, the Hangul syllables apart. *)
Definition gcb_lookup (cp : N) : gcb_property :=
  if ((HANGUL_SBASE <=? cp) && (cp <=? HANGUL_SEND))%N
  then (if ((cp - HANGUL_SBASE) mod HANGUL_TCOUNT =? 0)%N
        then GCB_LV else GCB_LVT)
  else
    match find (gcb_in cp) GCB_RANGES with
    | Some g => gcb_prop g
    | None => GCB_OTHER
    end.

(** Below [bound] the ranges of a table are well formed and do not overlap:
    each one ends before every later one starts, unless the later one starts
    at [bound] or above. *)
Fixpoint ordered_below (bound : N) (l : list gcb_range) : bool :=
  match l with
  | [] => true
  | g :: rest =>
      (gcb_start g <=? gcb_end g)%N
      && forallb (fun g' => (gcb_end g <? gcb_start g')%N
                            || (bound <=? gcb_start g')%N) rest
      && ordered_below bound rest
  end.

(** U+113B9: the start of the first range of [GCB_RANGES] that lies inside
    the range before it. *)
Definition GCB_ORDERED_BOUND : N := 0x113B9.

Lemma ordered_below_nth bound (l : list gcb_range) (i j : nat) d :
  ordered_below bound l = true -> (i < j < length l)%nat ->
  (gcb_start (nth i l d) <= gcb_end (nth i l d))%N
  /\ ((gcb_end (nth i l d) < gcb_start (nth j l d))%N
      \/ (bound <= gcb_start (nth j l d))%N).
Proof.
  revert i j. induction l as [| g rest IH]; intros i j Ho Hij.
  - simpl in Hij. lia.
  - simpl in Ho. rewrite !andb_true_iff in Ho. destruct Ho as [[Hw Hf] Hr].
    destruct j as [| j]; [lia |].
    destruct i as [| i].
    + simpl. split; [now apply N.leb_le |].
      rewrite forallb_forall in Hf.
      assert (Hj : (j < length rest)%nat) by (simpl in Hij; lia).
      specialize (Hf (nth j rest d) (nth_In rest d Hj)).
      apply orb_prop in Hf. destruct Hf as [Hf | Hf];
        [left; now apply N.ltb_lt | right; now apply N.leb_le].
    + simpl. apply IH; [exact Hr | simpl in Hij; lia].
Qed.

Lemma ordered_below_wf bound (l : list gcb_range) (i : nat) d :
  ordered_below bound l = true -> (i < length l)%nat ->
  (gcb_start (nth i l d) <= gcb_end (nth i l d))%N.
Proof.
  revert i. induction l as [| g rest IH]; intros i Ho Hi.
  - simpl in Hi. lia.
  - simpl in Ho. rewrite !andb_true_iff in Ho. destruct Ho as [[Hw Hf] Hr].
    destruct i as [| i]; simpl; [now apply N.leb_le |].
    apply IH; [exact Hr | simpl in Hi; lia].
Qed.

Lemma gcb_ranges_ordered : ordered_below GCB_ORDERED_BOUND GCB_RANGES = true.
Proof. vm_compute. reflexivity. Qed.

(** Below the bound the search finds the range that holds the codepoint. *)
Lemma gcb_search_complete cp low high k :
  (cp < GCB_ORDERED_BOUND)%N ->
  0 <= low -> high < GCB_RANGE_COUNT -> low <= k <= high ->
  gcb_in cp (gcb_at k) = true ->
  gcb_search cp low high = gcb_prop (gcb_at k).
Proof.
  intros Hb.
  remember (Z.to_nat (high - low + 1)) as m eqn:Em.
  revert low high Em. induction m as [m IH] using lt_wf_ind.
  intros low high Em Hlow Hhigh Hk Hin.
  rewrite gcb_search_equation_1.
  destruct (Z_le_gt_dec low high) as [Hle | Hgt];
    cbn [gcb_search_unfold_clause_1]; [| lia].
  pose proof (midpoint_bounds low high Hle) as Hm.
  pose proof Hin as Hin'.
  unfold gcb_in in Hin'. apply andb_prop in Hin'. destruct Hin' as [H1 H2].
  apply N.leb_le in H1. apply N.leb_le in H2.
  assert (Hord : forall i j, 0 <= i < j -> j < GCB_RANGE_COUNT ->
            (gcb_start (gcb_at i) <= gcb_end (gcb_at i))%N
            /\ ((gcb_end (gcb_at i) < gcb_start (gcb_at j))%N
                \/ (GCB_ORDERED_BOUND <= gcb_start (gcb_at j))%N)).
  { intros i j Hi Hj. unfold gcb_at.
    apply ordered_below_nth; [exact gcb_ranges_ordered |].
    unfold GCB_RANGE_COUNT in Hj. lia. }
  destruct (Z.compare_spec k (midpoint low high)) as [Ek | Hlt | Hgt].
  - subst k.
    destruct (N.ltb_spec cp (gcb_start (gcb_at (midpoint low high))));
      [lia |].
    destruct (N.ltb_spec (gcb_end (gcb_at (midpoint low high))) cp);
      [lia | reflexivity].
  - destruct (Hord k (midpoint low high) ltac:(lia) ltac:(lia))
      as [_ [Ho | Ho]];
      (destruct (N.ltb_spec cp (gcb_start (gcb_at (midpoint low high))));
       [| lia]);
      (eapply IH; [| reflexivity | | | | exact Hin]; lia).
  - destruct (Hord (midpoint low high) k ltac:(lia) ltac:(lia))
      as [Hw [Ho | Ho]]; [| lia].
    destruct (N.ltb_spec cp (gcb_start (gcb_at (midpoint low high))));
      [lia |].
    destruct (N.ltb_spec (gcb_end (gcb_at (midpoint low high))) cp);
      [| lia].
    eapply IH; [| reflexivity | | | | exact Hin]; lia.
Qed.

(** X11: for every codepoint below U+113B9, which covers the Basic
    Multilingual Plane, [get_gcb] is the table lookup: the property of the
    range of [GCB_RANGES] that holds the codepoint, [GCB_OTHER] when none
    does, and LV or LVT on the Hangul syllables. *)
Theorem get_gcb_lookup : forall cp : N,
  (cp < GCB_ORDERED_BOUND)%N -> get_gcb cp = gcb_lookup cp.
Proof.
  intros cp Hb. unfold get_gcb, gcb_lookup.
  destruct ((HANGUL_SBASE <=? cp) && (cp <=? HANGUL_SEND))%N; [reflexivity |].
  destruct (find (gcb_in cp) GCB_RANGES) as [g |] eqn:Ef.
  - apply find_some in Ef. destruct Ef as [Hg Hin].
    destruct (In_nth _ _ (gr 0 0 GCB_OTHER) Hg) as [i [Hi Ei]].
    assert (Eg : gcb_at (Z.of_nat i) = g)
      by (unfold gcb_at; now rewrite Nat2Z.id).
    rewrite <- Eg in *.
    apply gcb_search_complete;
      [exact Hb | lia | lia | unfold GCB_RANGE_COUNT; lia | exact Hin].
  - destruct (gcb_search_sound cp 0 (GCB_RANGE_COUNT - 1))
      as [E | [k [Hk [Hin E]]]]; [exact E |].
    pose proof (find_none _ _ Ef (gcb_at k) (gcb_at_in k ltac:(lia))).
    congruence.
Qed.

(** The combining acute accent is an Extend character. *)
Lemma get_gcb_lookup_witness : get_gcb 0x301 = gcb_lookup 0x301.
Proof.
  apply (get_gcb_lookup 0x301). vm_compute. reflexivity.
Defined.

(** ** Grapheme clusters *)

Lemma next_grapheme_loop_step text length prev_prop ri ext incb next_offset :
  next_offset < length ->
  next_grapheme_loop text length prev_prop ri ext incb next_offset =
    if truthy (is_grapheme_break prev_prop
                 (get_gcb (fst (decode_at text length next_offset)))
                 ri ext (fst (decode_at text length next_offset)) incb)
    then next_offset
    else
      next_grapheme_loop text length
        (get_gcb (fst (decode_at text length next_offset)))
        (next_ri_count (get_gcb (fst (decode_at text length next_offset))) ri)
        (next_in_ext_pict (fst (decode_at text length next_offset))
           (get_gcb (fst (decode_at text length next_offset))) ext)
        (next_incb_state (fst (decode_at text length next_offset))
           (get_gcb (fst (decode_at text length next_offset))) incb)
        (next_offset + snd (decode_at text length next_offset)).
Proof.
  intros H. rewrite next_grapheme_loop_equation_1.
  destruct (Z_lt_ge_dec next_offset length); [reflexivity | lia].
Qed.

Lemma next_grapheme_loop_exit text length prev_prop ri ext incb next_offset :
  length <= next_offset ->
  next_grapheme_loop text length prev_prop ri ext incb next_offset = length.
Proof.
  intros H. rewrite next_grapheme_loop_equation_1.
  destruct (Z_lt_ge_dec next_offset length); [lia | reflexivity].
Qed.

Lemma decode_at_consumed text length offset :
  offset < length ->
  1 <= snd (decode_at text length offset) <= length - offset.
Proof.
  intros H. unfold decode_at.
  pose proof (decode_consumed (Some (advance text offset)) (length - offset)).
  pose proof (decode_consumed_le (Some (advance text offset))
                (length - offset) ltac:(lia)).
  lia.
Qed.

(** The loop of [utflite_next_grapheme] walks from character to
    character. *)
Lemma next_grapheme_loop_walk text length :
  forall prev_prop ri ext incb next_offset,
    next_offset <= length ->
    char_walk text length next_offset
      (next_grapheme_loop text length prev_prop ri ext incb next_offset).
Proof.
  intros prev_prop ri ext incb next_offset.
  remember (Z.to_nat (length - next_offset)) as m eqn:Em.
  revert prev_prop ri ext incb next_offset Em.
  induction m as [m IH] using lt_wf_ind. intros p ri ext incb o Em Hle.
  destruct (Z_lt_ge_dec o length) as [Hlt | Hge].
  - rewrite next_grapheme_loop_step by exact Hlt.
    destruct (truthy _); [constructor |].
    pose proof (decode_at_consumed text length o Hlt).
    apply char_walk_step; [exact Hlt |].
    rewrite next_char_unclamped by exact Hlt.
    eapply IH; [| reflexivity |]; lia.
  - rewrite next_grapheme_loop_exit by lia.
    replace o with length by lia. constructor.
Qed.

(** X12: [utflite_next_grapheme] returns [length] for a NULL text and for
    an offset outside [0, length); from an offset inside, it moves strictly
    forward, stays within [length], and arrives on a character boundary: the
    boundary it returns is reached from the offset by [utflite_next_char]
    steps, so a cluster never splits a character. *)
Theorem next_grapheme_boundary :
  (forall (length offset : Z), utflite_next_grapheme None length offset = length)
  /\ (forall (text : list byte) (length offset : Z),
         length <= offset \/ offset < 0 ->
         utflite_next_grapheme (Some text) length offset = length)
  /\ (forall (text : list byte) (length offset : Z),
         0 <= offset < length ->
         offset < utflite_next_grapheme (Some text) length offset <= length
         /\ char_walk text length offset
              (utflite_next_grapheme (Some text) length offset)).
Proof.
  split; [reflexivity |]. split.
  - intros text length offset H. unfold utflite_next_grapheme.
    destruct (Z.geb_spec offset length); destruct (Z.ltb_spec offset 0);
      cbn [orb]; try reflexivity; lia.
  - intros text length offset H.
    split; [apply next_grapheme_progress; lia |].
    unfold utflite_next_grapheme.
    destruct (Z.geb_spec offset length); destruct (Z.ltb_spec offset 0);
      cbn [orb]; try lia.
    cbv zeta.
    pose proof (decode_at_consumed text length offset ltac:(lia)) as Hc.
    apply char_walk_step; [lia |].
    rewrite next_char_unclamped by lia.
    destruct (Z.geb_spec (offset + snd (decode_at text length offset)) length).
    + replace (offset + snd (decode_at text length offset)) with length by lia.
      constructor.
    + apply next_grapheme_loop_walk. lia.
Qed.

(** ["e"], a combining acute accent and ["A"]: the first cluster ends at
    offset 3, after the two-byte accent. *)
Lemma next_grapheme_boundary_witness :
  0 < utflite_next_grapheme (Some [x65; xcc; x81; x41]) 4 0 <= 4
  /\ char_walk [x65; xcc; x81; x41] 4 0
       (utflite_next_grapheme (Some [x65; xcc; x81; x41]) 4 0).
Proof.
  apply (proj2 (proj2 next_grapheme_boundary) [x65; xcc; x81; x41] 4 0). lia.
Defined.

Lemma decode_at_ascii text length offset :
  0 <= offset < length -> (uchar (load text offset) < 0x80)%N ->
  decode_at text length offset = (uchar (load text offset), 1).
Proof.
  intros Ho Ha. unfold decode_at. rewrite decode_cases.
  rewrite load_advance, Z.add_0_r by lia.
  destruct (Z.leb_spec (length - offset) 0); [lia |].
  destruct (N.ltb_spec (uchar (load text offset)) 128); [reflexivity | lia].
Qed.

Lemma break_after_lf curr_prop ri ext cp incb :
  is_grapheme_break GCB_LF curr_prop ri ext cp incb = 1.
Proof. reflexivity. Qed.

(** X13: a carriage return followed by a line feed is one cluster, whatever
    comes before and after: from the offset of the CR,
    [utflite_next_grapheme] returns the offset after the LF. *)
Theorem next_grapheme_crlf :
  forall (text : list byte) (length offset : Z),
    0 <= offset -> offset + 2 <= length ->
    load text offset = x0d -> load text (offset + 1) = x0a ->
    utflite_next_grapheme (Some text) length offset = offset + 2.
Proof.
  intros text length o Ho Hl Hcr Hlf.
  assert (Dcr : decode_at text length o = (13%N, 1)).
  { rewrite decode_at_ascii by (try rewrite Hcr; try lia; reflexivity).
    now rewrite Hcr. }
  assert (Dlf : decode_at text length (o + 1) = (10%N, 1)).
  { rewrite decode_at_ascii by (try rewrite Hlf; try lia; reflexivity).
    now rewrite Hlf. }
  unfold utflite_next_grapheme.
  destruct (Z.geb_spec o length); destruct (Z.ltb_spec o 0); cbn [orb];
    try lia.
  cbv zeta. rewrite Dcr. cbn [fst snd].
  destruct (Z.geb_spec (o + 1) length); [lia |].
  replace (get_gcb 13) with GCB_CR by (vm_compute; reflexivity).
  rewrite next_grapheme_loop_step by lia.
  rewrite Dlf. cbn [fst snd].
  replace (get_gcb 10) with GCB_LF by (vm_compute; reflexivity).
  change (truthy (is_grapheme_break GCB_CR GCB_LF _ _ _ _)) with false.
  cbv iota.
  destruct (Z_lt_ge_dec (o + 1 + 1) length) as [Hlt | Hge].
  - rewrite next_grapheme_loop_step by exact Hlt.
    rewrite break_after_lf. change (truthy 1) with true. cbv iota. lia.
  - rewrite next_grapheme_loop_exit by lia. lia.
Qed.

(** ["a"], CR, LF, ["b"]: the cluster that starts at offset 1 ends at 3. *)
Lemma next_grapheme_crlf_witness :
  utflite_next_grapheme (Some [x61; x0d; x0a; x62]) 4 1 = 1 + 2.
Proof.
  apply (next_grapheme_crlf [x61; x0d; x0a; x62] 4 1);
    try lia; reflexivity.
Defined.

(** The loop finds the same boundary when the buffer is cut at it. *)
Lemma next_grapheme_loop_cut text length :
  forall prev_prop ri ext incb next_offset,
    next_offset <= length ->
    next_grapheme_loop text
      (next_grapheme_loop text length prev_prop ri ext incb next_offset)
      prev_prop ri ext incb next_offset
    = next_grapheme_loop text length prev_prop ri ext incb next_offset.
Proof.
  intros prev_prop ri ext incb next_offset.
  remember (Z.to_nat (length - next_offset)) as m eqn:Em.
  revert prev_prop ri ext incb next_offset Em.
  induction m as [m IH] using lt_wf_ind. intros p ri ext incb o Em Hle.
  pose proof (next_grapheme_loop_range text length p ri ext incb o Hle) as Hr.
  destruct (Z_lt_ge_dec o length) as [Hlt | Hge].
  - rewrite (next_grapheme_loop_step text length) in * by exact Hlt.
    destruct (truthy (is_grapheme_break p _ ri ext _ incb)) eqn:Eb.
    + now rewrite next_grapheme_loop_exit by lia.
    + pose proof (decode_at_consumed text length o Hlt) as Hc.
      set (o' := o + snd (decode_at text length o)) in *.
      set (p' := get_gcb (fst (decode_at text length o))) in *.
      set (ri' := next_ri_count p' ri) in *.
      set (ext' := next_in_ext_pict (fst (decode_at text length o)) p' ext)
        in *.
      set (incb' := next_incb_state (fst (decode_at text length o)) p' incb)
        in *.
      set (r := next_grapheme_loop text length p' ri' ext' incb' o') in *.
      pose proof (next_grapheme_loop_range text length p' ri' ext' incb' o'
                    ltac:(lia)) as Hr'.
      fold r in Hr'.
      assert (Ed : decode_at text r o = decode_at text length o).
      { unfold decode_at. apply decode_shorter.
        fold (decode_at text length o). lia. }
      rewrite (next_grapheme_loop_step text r) by lia.
      rewrite Ed. fold p'. rewrite Eb. fold ri' ext' incb' o'.
      subst r. eapply IH; [| reflexivity |]; lia.
  - rewrite (next_grapheme_loop_exit text length) by lia.
    now rewrite next_grapheme_loop_exit by lia.
Qed.

(** [utflite_next_grapheme] after its guard and its first decode. *)
Definition cluster_scan (text : list byte) (length offset : Z) (prev_cp : N)
  (bytes : Z) : Z :=
  if offset + bytes >=? length then length
  else
    next_grapheme_loop text length (get_gcb prev_cp)
      (if is_prop (get_gcb prev_cp) GCB_REGIONAL_INDICATOR then 1 else 0)
      (is_extended_pictographic prev_cp)
      (if truthy (is_incb_consonant prev_cp) then 1 else 0)
      (offset + bytes).

Lemma next_grapheme_scan text length offset :
  0 <= offset < length ->
  utflite_next_grapheme (Some text) length offset
  = cluster_scan text length offset (fst (decode_at text length offset))
      (snd (decode_at text length offset)).
Proof.
  intros Ho. unfold utflite_next_grapheme, cluster_scan.
  destruct (Z.geb_spec offset length); destruct (Z.ltb_spec offset 0);
    cbn [orb]; first [lia | reflexivity].
Qed.

Lemma cluster_scan_cut text length offset prev_cp bytes :
  offset + bytes <= length ->
  offset + bytes <= cluster_scan text length offset prev_cp bytes <= length
  /\ cluster_scan text (cluster_scan text length offset prev_cp bytes) offset
       prev_cp bytes
     = cluster_scan text length offset prev_cp bytes.
Proof.
  intros Hle. unfold cluster_scan at 1 2 4 5.
  destruct (Z.geb_spec (offset + bytes) length) as [Hend | Hin].
  - split; [lia |]. unfold cluster_scan.
    destruct (Z.geb_spec (offset + bytes) length); [reflexivity | lia].
  - match goal with
    | |- _ <= ?r <= _ /\ _ =>
        pose proof (next_grapheme_loop_range text length (get_gcb prev_cp)
                      (if is_prop (get_gcb prev_cp) GCB_REGIONAL_INDICATOR
                       then 1 else 0)
                      (is_extended_pictographic prev_cp)
                      (if truthy (is_incb_consonant prev_cp) then 1 else 0)
                      (offset + bytes) ltac:(lia)) as Hr
    end.
    split; [exact Hr |]. unfold cluster_scan.
    match goal with
    | |- (if _ >=? ?r then _ else _) = _ =>
        destruct (Z.geb_spec (offset + bytes) r); [reflexivity |]
    end.
    apply next_grapheme_loop_cut. lia.
Qed.

Lemma next_grapheme_cut text length offset :
  0 <= offset < length ->
  utflite_next_grapheme (Some text)
    (utflite_next_grapheme (Some text) length offset) offset
  = utflite_next_grapheme (Some text) length offset.
Proof.
  intros Ho.
  pose proof (next_grapheme_progress (Some text) length offset ltac:(lia))
    as Hp.
  pose proof (decode_at_consumed text length offset ltac:(lia)) as Hc.
  rewrite (next_grapheme_scan text length offset Ho) in *.
  destruct (cluster_scan_cut text length offset
              (fst (decode_at text length offset))
              (snd (decode_at text length offset)) ltac:(lia)) as [Hr Ecut].
  set (r := cluster_scan text length offset
              (fst (decode_at text length offset))
              (snd (decode_at text length offset))) in *.
  rewrite (next_grapheme_scan text r offset) by lia.
  assert (Ed : decode_at text r offset = decode_at text length offset).
  { unfold decode_at. apply decode_shorter.
    fold (decode_at text length offset). lia. }
  rewrite Ed. exact Ecut.
Qed.

Lemma rewind_to_start text :
  forall (remaining : nat) (scan_start : Z),
    0 <= scan_start <= Z.of_nat remaining ->
    rewind text remaining scan_start = 0.
Proof.
  induction remaining as [| r IH]; intros s Hs; simpl; [lia |].
  destruct (Z.gtb_spec s 0); [| lia].
  pose proof (prev_char_range text s ltac:(lia)).
  destruct (Z.eqb_spec (utflite_prev_char text s) s); [lia |].
  apply IH. lia.
Qed.

(** X15: forward and back over the first cluster: when the first cluster of
    a text is at most 129 bytes long (so that the bounded rewind reaches the
    start of the buffer), [utflite_prev_grapheme] from the boundary
    [utflite_next_grapheme] found returns 0. *)
Theorem prev_grapheme_after_next_grapheme :
  forall (text : list byte) (length : Z),
    0 < length ->
    utflite_next_grapheme (Some text) length 0 <= 129 ->
    utflite_prev_grapheme (Some text)
      (utflite_next_grapheme (Some text) length 0) = 0.
Proof.
  intros text length Hl Hr.
  pose proof (next_grapheme_progress (Some text) length 0 Hl) as Hp.
  pose proof (next_grapheme_cut text length 0 ltac:(lia)) as Hcut.
  set (r := utflite_next_grapheme (Some text) length 0) in *.
  unfold utflite_prev_grapheme.
  destruct (Z.leb_spec r 0); [lia |]. cbv zeta.
  pose proof (prev_char_range text r ltac:(lia)) as Hpc.
  destruct (Z.eqb_spec (utflite_prev_char text r) 0); cbn [andb].
  { destruct (Z.gtb_spec r 0); [reflexivity | lia]. }
  rewrite rewind_to_start
    by (unfold GRAPHEME_MAX_BACKTRACK; lia).
  rewrite scan_forward_equation_1.
  destruct (Z_lt_ge_dec 0 r); [| lia].
  cbn [scan_forward_unfold_clause_1]. rewrite Hcut.
  destruct (Z.geb_spec r r); [reflexivity | lia].
Qed.

(** The family emoji followed by ["A"]: forward to offset 18 and back
    to 0. *)
Lemma prev_grapheme_after_next_grapheme_witness :
  utflite_prev_grapheme
    (Some [xf0; x9f; x91; xa8; xe2; x80; x8d; xf0; x9f; x91; xa9;
           xe2; x80; x8d; xf0; x9f; x91; xa7; x41])
    (utflite_next_grapheme
       (Some [xf0; x9f; x91; xa8; xe2; x80; x8d; xf0; x9f; x91; xa9;
              xe2; x80; x8d; xf0; x9f; x91; xa7; x41]) 19 0) = 0.
Proof.
  apply (prev_grapheme_after_next_grapheme
           [xf0; x9f; x91; xa8; xe2; x80; x8d; xf0; x9f; x91; xa9;
            xe2; x80; x8d; xf0; x9f; x91; xa7; x41] 19).
  - lia.
  - vm_compute. discriminate.
Defined.

(** ** What the string functions read *)

(** Two buffers hold the same first [length] bytes. *)
Definition same_prefix (t1 t2 : list byte) (length : Z) : Prop :=
  forall i, 0 <= i < length -> load t1 i = load t2 i.

Lemma decode_at_footprint t1 t2 length offset :
  same_prefix t1 t2 length -> 0 <= offset ->
  decode_at t1 length offset = decode_at t2 length offset.
Proof.
  intros H Ho. unfold decode_at. apply decode_footprint.
  intros i Hi. rewrite !load_advance by lia. apply H. lia.
Qed.

Lemma next_char_footprint t1 t2 length offset :
  same_prefix t1 t2 length -> 0 <= offset ->
  utflite_next_char t1 length offset = utflite_next_char t2 length offset.
Proof.
  intros H Ho. unfold utflite_next_char.
  now rewrite (decode_at_footprint t1 t2 length offset H Ho).
Qed.

Lemma char_width_footprint t1 t2 length offset :
  same_prefix t1 t2 length -> 0 <= offset ->
  utflite_char_width t1 length offset = utflite_char_width t2 length offset.
Proof.
  intros H Ho. unfold utflite_char_width.
  now rewrite (decode_at_footprint t1 t2 length offset H Ho).
Qed.

Lemma not_literal_replacement_footprint t1 t2 length offset :
  same_prefix t1 t2 length -> 0 <= offset < length ->
  not_literal_replacement t1 length offset
  = not_literal_replacement t2 length offset.
Proof.
  intros H Ho. unfold not_literal_replacement.
  rewrite (H offset) by lia.
  destruct (Z.ltb_spec (length - offset) 3) as [Hs | Hs].
  - now rewrite !orb_true_r.
  - now rewrite (H (offset + 1)), (H (offset + 2)) by lia.
Qed.

Lemma validate_loop_footprint t1 t2 length :
  same_prefix t1 t2 length ->
  forall offset, 0 <= offset ->
    validate_loop t1 length offset = validate_loop t2 length offset.
Proof.
  intros H offset.
  remember (Z.to_nat (length - offset)) as m eqn:Em.
  revert offset Em. induction m as [m IH] using lt_wf_ind. intros o Em Ho.
  rewrite !validate_loop_equation_1.
  destruct (Z_lt_ge_dec o length) as [Hlt | Hge];
    cbn [validate_loop_unfold_clause_1]; [| reflexivity].
  rewrite (decode_at_footprint t1 t2 length o H Ho).
  rewrite (not_literal_replacement_footprint t1 t2 length o H) by lia.
  destruct (_ && _); [reflexivity |].
  pose proof (decode_at_consumed t2 length o Hlt).
  eapply IH; [| reflexivity |]; lia.
Qed.

Lemma codepoint_count_loop_footprint t1 t2 length :
  same_prefix t1 t2 length ->
  forall count offset, 0 <= offset ->
    codepoint_count_loop t1 length count offset
    = codepoint_count_loop t2 length count offset.
Proof.
  intros H count offset.
  remember (Z.to_nat (length - offset)) as m eqn:Em.
  revert count offset Em. induction m as [m IH] using lt_wf_ind.
  intros c o Em Ho.
  rewrite !codepoint_count_loop_equation_1.
  destruct (Z_lt_ge_dec o length) as [Hlt | Hge];
    cbn [codepoint_count_loop_unfold_clause_1]; [| reflexivity].
  rewrite (next_char_footprint t1 t2 length o H Ho).
  pose proof (next_char_progress t2 length o Hlt).
  eapply IH; [| reflexivity |]; lia.
Qed.

Lemma string_width_loop_footprint t1 t2 length :
  same_prefix t1 t2 length ->
  forall width offset, 0 <= offset ->
    string_width_loop t1 length width offset
    = string_width_loop t2 length width offset.
Proof.
  intros H width offset.
  remember (Z.to_nat (length - offset)) as m eqn:Em.
  revert width offset Em. induction m as [m IH] using lt_wf_ind.
  intros w o Em Ho.
  destruct (Z_lt_ge_dec o length) as [Hlt | Hge].
  - rewrite (string_width_loop_step t1), (string_width_loop_step t2)
      by exact Hlt.
    rewrite (next_char_footprint t1 t2 length o H Ho).
    rewrite (char_width_footprint t1 t2 length o H Ho).
    pose proof (next_char_progress t2 length o Hlt).
    eapply IH; [| reflexivity |]; lia.
  - now rewrite (string_width_loop_exit t1), (string_width_loop_exit t2)
      by lia.
Qed.

Lemma truncate_loop_footprint t1 t2 length max_cols :
  same_prefix t1 t2 length ->
  forall width offset, 0 <= offset ->
    truncate_loop t1 length max_cols width offset
    = truncate_loop t2 length max_cols width offset.
Proof.
  intros H width offset.
  remember (Z.to_nat (length - offset)) as m eqn:Em.
  revert width offset Em. induction m as [m IH] using lt_wf_ind.
  intros w o Em Ho.
  destruct (Z_lt_ge_dec o length) as [Hlt | Hge].
  - rewrite (truncate_loop_step t1), (truncate_loop_step t2) by exact Hlt.
    rewrite (next_char_footprint t1 t2 length o H Ho).
    rewrite (char_width_footprint t1 t2 length o H Ho).
    destruct (_ && _); [reflexivity |].
    pose proof (next_char_progress t2 length o Hlt).
    eapply IH; [| reflexivity |]; lia.
  - now rewrite (truncate_loop_exit t1), (truncate_loop_exit t2) by lia.
Qed.

Lemma next_grapheme_loop_footprint t1 t2 length :
  same_prefix t1 t2 length ->
  forall prev_prop ri ext incb next_offset, 0 <= next_offset ->
    next_grapheme_loop t1 length prev_prop ri ext incb next_offset
    = next_grapheme_loop t2 length prev_prop ri ext incb next_offset.
Proof.
  intros H prev_prop ri ext incb next_offset.
  remember (Z.to_nat (length - next_offset)) as m eqn:Em.
  revert prev_prop ri ext incb next_offset Em.
  induction m as [m IH] using lt_wf_ind. intros p ri ext incb o Em Ho.
  destruct (Z_lt_ge_dec o length) as [Hlt | Hge].
  - rewrite (next_grapheme_loop_step t1), (next_grapheme_loop_step t2)
      by exact Hlt.
    rewrite (decode_at_footprint t1 t2 length o H Ho).
    destruct (truthy _); [reflexivity |].
    pose proof (decode_at_consumed t2 length o Hlt).
    eapply IH; [| reflexivity |]; lia.
  - now rewrite (next_grapheme_loop_exit t1), (next_grapheme_loop_exit t2)
      by lia.
Qed.

Lemma next_grapheme_footprint t1 t2 length offset :
  same_prefix t1 t2 length ->
  utflite_next_grapheme (Some t1) length offset
  = utflite_next_grapheme (Some t2) length offset.
Proof.
  intros H. unfold utflite_next_grapheme.
  destruct (Z.geb_spec offset length); destruct (Z.ltb_spec offset 0);
    cbn [orb]; try reflexivity.
  cbv zeta. rewrite (decode_at_footprint t1 t2 length offset H) by lia.
  destruct (_ >=? _); [reflexivity |].
  pose proof (decode_at_consumed t2 length offset ltac:(lia)).
  apply next_grapheme_loop_footprint; [exact H | lia].
Qed.

(** X16: the forward string functions read the first [length] bytes of the
    text and nothing after them: on two buffers that agree on these bytes,
    [utflite_next_char], [utflite_char_width], [utflite_validate],
    [utflite_codepoint_count], [utflite_string_width], [utflite_truncate]
    and [utflite_next_grapheme] return the same results. *)
Theorem string_functions_footprint :
  forall (t1 t2 : list byte) (length : Z),
    same_prefix t1 t2 length ->
    (forall offset, 0 <= offset ->
        utflite_next_char t1 length offset = utflite_next_char t2 length offset
        /\ utflite_char_width t1 length offset
           = utflite_char_width t2 length offset)
    /\ utflite_validate t1 length = utflite_validate t2 length
    /\ utflite_codepoint_count t1 length = utflite_codepoint_count t2 length
    /\ utflite_string_width t1 length = utflite_string_width t2 length
    /\ (forall max_cols,
           utflite_truncate t1 length max_cols
           = utflite_truncate t2 length max_cols)
    /\ (forall offset,
           utflite_next_grapheme (Some t1) length offset
           = utflite_next_grapheme (Some t2) length offset).
Proof.
  intros t1 t2 length H.
  split; [intros offset Ho; split;
          [now apply next_char_footprint | now apply char_width_footprint] |].
  split; [now apply validate_loop_footprint |].
  split; [now apply codepoint_count_loop_footprint |].
  split; [now apply string_width_loop_footprint |].
  split; [intros max_cols; now apply truncate_loop_footprint |].
  intros offset. now apply next_grapheme_footprint.
Qed.

(** ["e"] with a combining acute accent, followed by ["A"] or by a second
    accent: with [length] 3 the last byte is not looked at. *)
Lemma string_functions_footprint_witness :
  utflite_string_width [x65; xcc; x81; x41] 3
  = utflite_string_width [x65; xcc; x81; xcc] 3
  /\ utflite_next_grapheme (Some [x65; xcc; x81; x41]) 3 0
     = utflite_next_grapheme (Some [x65; xcc; x81; xcc]) 3 0.
Proof.
  destruct (string_functions_footprint
              [x65; xcc; x81; x41] [x65; xcc; x81; xcc] 3)
    as (_ & _ & _ & Hw & _ & Hg).
  - intros i Hi.
    assert (i = 0 \/ i = 1 \/ i = 2) as [-> | [-> | ->]] by lia; reflexivity.
  - split; [exact Hw | apply Hg].
Defined.

(** X14: the boundary [utflite_next_grapheme] finds does not depend on what
    follows it: with the length cut at the boundary, and whatever bytes the
    buffer holds from the boundary on, the scan from the same offset returns
    the same boundary. *)
Theorem next_grapheme_local :
  forall (text text' : list byte) (length offset : Z),
    0 <= offset < length ->
    same_prefix text text' (utflite_next_grapheme (Some text) length offset) ->
    utflite_next_grapheme (Some text')
      (utflite_next_grapheme (Some text) length offset) offset
    = utflite_next_grapheme (Some text) length offset.
Proof.
  intros text text' length offset Ho Hsame.
  rewrite <- (next_grapheme_footprint text text' _ offset Hsame).
  now apply next_grapheme_cut.
Qed.

(** The flag of Canada followed by ["A"]: the flag ends at offset 8, with
    or without the ["A"]. *)
Lemma next_grapheme_local_witness :
  utflite_next_grapheme
    (Some [xf0; x9f; x87; xa8; xf0; x9f; x87; xa6])
    (utflite_next_grapheme
       (Some [xf0; x9f; x87; xa8; xf0; x9f; x87; xa6; x41]) 9 0) 0
  = utflite_next_grapheme
      (Some [xf0; x9f; x87; xa8; xf0; x9f; x87; xa6; x41]) 9 0.
Proof.
  apply (next_grapheme_local
           [xf0; x9f; x87; xa8; xf0; x9f; x87; xa6; x41]
           [xf0; x9f; x87; xa8; xf0; x9f; x87; xa6] 9 0).
  - lia.
  - replace (utflite_next_grapheme
               (Some [xf0; x9f; x87; xa8; xf0; x9f; x87; xa6; x41]) 9 0)
      with 8 by (vm_compute; reflexivity).
    intros i Hi.
    assert (i = 0 \/ i = 1 \/ i = 2 \/ i = 3 \/ i = 4 \/ i = 5 \/ i = 6
            \/ i = 7) as [-> | [-> | [-> | [-> | [-> | [-> | [-> | ->]]]]]]]
        by lia; reflexivity.
Defined.

(** ** ASCII text *)

(** The first [length] bytes are ASCII (below 0x80). *)
Definition ascii_text (text : list byte) (length : Z) : Prop :=
  forall i, 0 <= i < length -> (uchar (load text i) < 0x80)%N.

(** The first [length] bytes are printable ASCII (0x20..0x7E). *)
Definition printable_text (text : list byte) (length : Z) : Prop :=
  forall i, 0 <= i < length -> (0x20 <= uchar (load text i) < 0x7F)%N.

Lemma printable_is_ascii text length :
  printable_text text length -> ascii_text text length.
Proof. intros H i Hi. specialize (H i Hi). lia. Qed.

Lemma ascii_next_char text length offset :
  ascii_text text length -> 0 <= offset < length ->
  utflite_next_char text length offset = offset + 1.
Proof.
  intros H Ho. rewrite next_char_unclamped by lia.
  now rewrite decode_at_ascii by (try apply H; lia).
Qed.

Lemma codepoint_width_printable cp :
  (0x20 <= cp < 0x7F)%N -> utflite_codepoint_width cp = 1.
Proof.
  intros H. unfold utflite_codepoint_width.
  destruct (N.ltb_spec cp 0x20); [lia |].
  destruct (N.ltb_spec cp 0x7F); [reflexivity | lia].
Qed.

Lemma printable_char_width text length offset :
  printable_text text length -> 0 <= offset < length ->
  utflite_char_width text length offset = 1.
Proof.
  intros H Ho. unfold utflite_char_width.
  destruct (Z.geb_spec offset length); [lia |].
  rewrite decode_at_ascii by (try apply (printable_is_ascii _ _ H); lia).
  apply codepoint_width_printable. now apply H.
Qed.

Lemma ascii_validate_loop text length :
  ascii_text text length ->
  forall offset, 0 <= offset ->
    validate_loop text length offset = (1, None).
Proof.
  intros H offset.
  remember (Z.to_nat (length - offset)) as m eqn:Em.
  revert offset Em. induction m as [m IH] using lt_wf_ind. intros o Em Ho.
  rewrite validate_loop_equation_1.
  destruct (Z_lt_ge_dec o length) as [Hlt | Hge];
    cbn [validate_loop_unfold_clause_1]; [| reflexivity].
  rewrite decode_at_ascii by (try apply H; lia). cbn [fst snd].
  specialize (H o ltac:(lia)).
  destruct (N.eqb_spec (uchar (load text o)) UTFLITE_REPLACEMENT_CHAR) as [E | E];
    [unfold UTFLITE_REPLACEMENT_CHAR in E; lia |].
  cbn [andb]. eapply IH; [| reflexivity |]; lia.
Qed.

Lemma ascii_count_loop text length :
  ascii_text text length ->
  forall count offset, 0 <= offset ->
    codepoint_count_loop text length count offset
    = count + Z.max 0 (length - offset).
Proof.
  intros H count offset.
  remember (Z.to_nat (length - offset)) as m eqn:Em.
  revert count offset Em. induction m as [m IH] using lt_wf_ind.
  intros c o Em Ho.
  rewrite codepoint_count_loop_equation_1.
  destruct (Z_lt_ge_dec o length) as [Hlt | Hge];
    cbn [codepoint_count_loop_unfold_clause_1]; [| lia].
  rewrite ascii_next_char by (try exact H; lia).
  rewrite (IH (Z.to_nat (length - (o + 1)))) by lia. lia.
Qed.

(** X17: on a text of ASCII bytes [utflite_validate] succeeds and
    [utflite_codepoint_count] is the number of bytes. *)
Theorem ascii_text_valid : forall (text : list byte) (length : Z),
  ascii_text text length ->
  utflite_validate text length = (1, None)
  /\ utflite_codepoint_count text length = Z.max 0 length.
Proof.
  intros text length H. split.
  - unfold utflite_validate. apply ascii_validate_loop; [exact H | lia].
  - unfold utflite_codepoint_count.
    rewrite ascii_count_loop by (try exact H; lia).
    now rewrite Z.sub_0_r.
Qed.

(** ["Hello"]. *)
Lemma ascii_text_valid_witness :
  utflite_validate text_hello 5 = (1, None)
  /\ utflite_codepoint_count text_hello 5 = Z.max 0 5.
Proof.
  apply (ascii_text_valid text_hello 5).
  intros i Hi.
  assert (i = 0 \/ i = 1 \/ i = 2 \/ i = 3 \/ i = 4)
    as [-> | [-> | [-> | [-> | ->]]]] by lia;
    (vm_compute; reflexivity).
Defined.

Lemma printable_width_loop text length :
  printable_text text length ->
  forall width offset, 0 <= offset ->
    string_width_loop text length width offset
    = width + Z.max 0 (length - offset).
Proof.
  intros H width offset.
  remember (Z.to_nat (length - offset)) as m eqn:Em.
  revert width offset Em. induction m as [m IH] using lt_wf_ind.
  intros w o Em Ho.
  destruct (Z_lt_ge_dec o length) as [Hlt | Hge].
  - rewrite string_width_loop_step by exact Hlt.
    rewrite printable_char_width by (try exact H; lia).
    rewrite ascii_next_char
      by (try apply (printable_is_ascii _ _ H); lia).
    change (1 >? 0) with true. cbv iota.
    rewrite (IH (Z.to_nat (length - (o + 1)))) by lia. lia.
  - rewrite string_width_loop_exit by lia. lia.
Qed.

Lemma printable_truncate_loop text length max_cols :
  printable_text text length ->
  forall width offset, 0 <= offset -> width <= max_cols ->
    truncate_loop text length max_cols width offset
    = if offset <? length
      then Z.min length (offset + (max_cols - width)) else length.
Proof.
  intros H width offset.
  remember (Z.to_nat (length - offset)) as m eqn:Em.
  revert width offset Em. induction m as [m IH] using lt_wf_ind.
  intros w o Em Ho Hw.
  destruct (Z.ltb_spec o length) as [Hlt | Hge].
  - rewrite truncate_loop_step by exact Hlt.
    rewrite printable_char_width by (try exact H; lia).
    rewrite ascii_next_char
      by (try apply (printable_is_ascii _ _ H); lia).
    change (1 >? 0) with true. cbv iota. cbn [andb].
    destruct (Z.gtb_spec (w + 1) max_cols); [lia |].
    rewrite (IH (Z.to_nat (length - (o + 1)))) by lia.
    destruct (Z.ltb_spec (o + 1) length); lia.
  - now rewrite truncate_loop_exit by lia.
Qed.

(** X18: on a text of printable ASCII bytes [utflite_string_width] is the
    number of bytes, and [utflite_truncate] with a non-negative [max_cols]
    cuts after [max_cols] bytes, or returns [length] when the text is
    shorter. *)
Theorem printable_text_width : forall (text : list byte) (length : Z),
  printable_text text length ->
  utflite_string_width text length = Z.max 0 length
  /\ forall max_cols, 0 <= max_cols ->
       utflite_truncate text length max_cols = Z.min length max_cols.
Proof.
  intros text length H. split.
  - unfold utflite_string_width.
    rewrite printable_width_loop by (try exact H; lia).
    now rewrite Z.sub_0_r.
  - intros max_cols Hm. unfold utflite_truncate.
    rewrite (printable_truncate_loop text length max_cols H) by lia.
    destruct (Z.ltb_spec 0 length); lia.
Qed.

(** ["Hello"] in three columns. *)
Lemma printable_text_width_witness :
  utflite_string_width text_hello 5 = Z.max 0 5
  /\ forall max_cols, 0 <= max_cols ->
       utflite_truncate text_hello 5 max_cols = Z.min 5 max_cols.
Proof.
  apply (printable_text_width text_hello 5).
  intros i Hi.
  assert (i = 0 \/ i = 1 \/ i = 2 \/ i = 3 \/ i = 4)
    as [-> | [-> | [-> | [-> | ->]]]] by lia;
    (vm_compute; split; [intro E; discriminate E | reflexivity]).
Defined.

Lemma get_gcb_printable c :
  (0x20 <= uchar c < 0x7F)%N -> get_gcb (uchar c) = GCB_OTHER.
Proof.
  destruct c; intros [H1 H2]; try (vm_compute; reflexivity); exfalso;
    revert H1 H2; vm_compute; intros H1 H2;
    solve [apply H1; reflexivity | discriminate H2].
Qed.

Lemma break_between_other ri ext cp incb :
  incb = 0 \/ incb = 1 ->
  is_grapheme_break GCB_OTHER GCB_OTHER ri ext cp incb = 1.
Proof.
  intros [-> | ->]; unfold is_grapheme_break;
    cbn -[is_incb_consonant is_extended_pictographic truthy];
    (destruct (truthy ext); reflexivity).
Qed.

Lemma printable_next_grapheme text length offset :
  printable_text text length -> 0 <= offset < length ->
  utflite_next_grapheme (Some text) length offset = offset + 1.
Proof.
  intros H Ho.
  pose proof (printable_is_ascii _ _ H) as Ha.
  rewrite next_grapheme_scan by exact Ho.
  rewrite decode_at_ascii by (try apply Ha; lia). cbn [fst snd].
  unfold cluster_scan.
  destruct (Z.geb_spec (offset + 1) length); [lia |].
  rewrite next_grapheme_loop_step by lia.
  rewrite decode_at_ascii by (try apply Ha; lia). cbn [fst snd].
  rewrite !get_gcb_printable by (apply H; lia).
  rewrite break_between_other; [reflexivity |].
  destruct (truthy _); [now right | now left].
Qed.

Lemma printable_prev_char text offset :
  0 < offset -> printable_text text offset ->
  utflite_prev_char text offset = offset - 1.
Proof.
  intros Ho H. unfold utflite_prev_char.
  destruct (Z.leb_spec offset 0); [lia |].
  apply (prev_char_loop_back text _ (offset - 1) 0);
    [simpl; lia | destruct (Z.gtb_spec offset 4); lia | intros; lia |].
  right. specialize (H (offset - 1) ltac:(lia)).
  unfold is_continuation.
  destruct (N.leb_spec 128 (uchar (load text (offset - 1))));
    [lia | reflexivity].
Qed.

Lemma printable_scan_forward text offset :
  printable_text text offset ->
  forall curr, 0 <= curr < offset ->
    scan_forward text offset curr curr = offset - 1.
Proof.
  intros H curr.
  remember (Z.to_nat (offset - curr)) as m eqn:Em.
  revert curr Em. induction m as [m IH] using lt_wf_ind. intros c Em Hc.
  rewrite scan_forward_equation_1.
  destruct (Z_lt_ge_dec c offset); [| lia].
  cbn [scan_forward_unfold_clause_1].
  rewrite printable_next_grapheme by (try exact H; lia).
  destruct (Z.geb_spec (c + 1) offset); [lia |].
  eapply IH; [| reflexivity |]; lia.
Qed.

(** X19: on printable ASCII text every byte is a cluster of its own:
    [utflite_next_grapheme] moves one byte forward and
    [utflite_prev_grapheme] one byte back. *)
Theorem printable_text_graphemes :
  (forall (text : list byte) (length offset : Z),
      printable_text text length -> 0 <= offset < length ->
      utflite_next_grapheme (Some text) length offset = offset + 1)
  /\ (forall (text : list byte) (offset : Z),
         printable_text text offset -> 0 < offset ->
         utflite_prev_grapheme (Some text) offset = offset - 1).
Proof.
  split; [exact printable_next_grapheme |].
  intros text offset H Ho. unfold utflite_prev_grapheme.
  destruct (Z.leb_spec offset 0); [lia |]. cbv zeta.
  rewrite printable_prev_char by assumption.
  destruct (Z.eqb_spec (offset - 1) 0) as [E | E]; cbn [andb].
  { destruct (Z.gtb_spec offset 0); lia. }
  pose proof (rewind_range text GRAPHEME_MAX_BACKTRACK (offset - 1)
                ltac:(lia)).
  apply printable_scan_forward; [exact H | lia].
Qed.

(** ["Hello"]: from offset 2 forward to 3, from offset 5 back to 4. *)
Lemma printable_text_graphemes_witness :
  utflite_next_grapheme (Some text_hello) 5 2 = 2 + 1
  /\ utflite_prev_grapheme (Some text_hello) 5 = 5 - 1.
Proof.
  assert (H : printable_text text_hello 5).
  { intros i Hi.
    assert (i = 0 \/ i = 1 \/ i = 2 \/ i = 3 \/ i = 4)
      as [-> | [-> | [-> | [-> | ->]]]] by lia;
      (vm_compute; split; [intro E; discriminate E | reflexivity]). }
  destruct printable_text_graphemes as [Hn Hp].
  split; [apply Hn; [exact H | lia] | apply Hp; [exact H | lia]].
Defined.

(** ** Counts, widths and cuts *)

Lemma codepoint_width_range cp : -1 <= utflite_codepoint_width cp <= 2.
Proof.
  unfold utflite_codepoint_width.
  repeat match goal with |- context [if ?c then _ else _] => destruct c end;
    lia.
Qed.

Lemma char_width_range text length offset :
  -1 <= utflite_char_width text length offset <= 2.
Proof.
  unfold utflite_char_width.
  destruct (offset >=? length); [lia | apply codepoint_width_range].
Qed.

Lemma next_char_at_most_four text length offset :
  offset < length -> utflite_next_char text length offset <= offset + 4.
Proof.
  intros H. rewrite next_char_unclamped by exact H.
  unfold decode_at.
  pose proof (decode_consumed (Some (advance text offset)) (length - offset)).
  lia.
Qed.

Lemma codepoint_count_loop_bounds text length :
  forall count offset,
    Z.max 0 (length - offset)
    <= 4 * (codepoint_count_loop text length count offset - count)
    /\ codepoint_count_loop text length count offset - count
       <= Z.max 0 (length - offset).
Proof.
  intros count offset.
  remember (Z.to_nat (length - offset)) as m eqn:Em.
  revert count offset Em. induction m as [m IH] using lt_wf_ind.
  intros c o Em.
  rewrite codepoint_count_loop_equation_1.
  destruct (Z_lt_ge_dec o length) as [Hlt | Hge];
    cbn [codepoint_count_loop_unfold_clause_1]; [| lia].
  pose proof (next_char_progress text length o Hlt) as Hp.
  pose proof (next_char_at_most_four text length o Hlt) as H4.
  specialize (IH (Z.to_nat (length - utflite_next_char text length o))
                ltac:(lia) (c + 1) (utflite_next_char text length o) eq_refl).
  lia.
Qed.

Lemma string_width_loop_bounds text length :
  forall width count offset,
    string_width_loop text length width offset - width
    <= 2 * (codepoint_count_loop text length count offset - count).
Proof.
  intros width count offset.
  remember (Z.to_nat (length - offset)) as m eqn:Em.
  revert width count offset Em. induction m as [m IH] using lt_wf_ind.
  intros w c o Em.
  destruct (Z_lt_ge_dec o length) as [Hlt | Hge].
  - rewrite string_width_loop_step by exact Hlt.
    rewrite codepoint_count_loop_equation_1.
    destruct (Z_lt_ge_dec o length) as [Hlt' | Hge]; [| lia].
    cbn [codepoint_count_loop_unfold_clause_1].
    pose proof (next_char_progress text length o Hlt) as Hp.
    pose proof (char_width_range text length o) as Hr.
    match goal with
    | |- string_width_loop _ _ ?w' ?o' - _ <= _ =>
        specialize (IH (Z.to_nat (length - o')) ltac:(lia) w' (c + 1) o' eq_refl);
          assert (w' - w <= 2)
          by (destruct (utflite_char_width text length o >? 0); lia)
    end.
    lia.
  - rewrite string_width_loop_exit by lia.
    rewrite codepoint_count_loop_equation_1.
    destruct (Z_lt_ge_dec o length); [lia |].
    cbn [codepoint_count_loop_unfold_clause_1]. lia.
Qed.

(** X20: a character takes one to four bytes and zero to two columns:
    [utflite_codepoint_count] lies between a quarter of the byte length and
    the byte length, and [utflite_string_width] between 0 and twice the
    count. *)
Theorem count_and_width_bounds : forall (text : list byte) (length : Z),
  Z.max 0 length <= 4 * utflite_codepoint_count text length
  /\ utflite_codepoint_count text length <= Z.max 0 length
  /\ 0 <= utflite_string_width text length
       <= 2 * utflite_codepoint_count text length.
Proof.
  intros text length.
  unfold utflite_codepoint_count, utflite_string_width.
  pose proof (codepoint_count_loop_bounds text length 0 0) as Hc.
  pose proof (string_width_loop_bounds text length 0 0 0) as Hw.
  pose proof (string_width_loop_ge text length 0 0) as Hg.
  rewrite Z.sub_0_r in *. lia.
Qed.

Lemma truncate_loop_range text length max_cols :
  forall width offset, offset <= length ->
    offset <= truncate_loop text length max_cols width offset <= length.
Proof.
  intros width offset.
  remember (Z.to_nat (length - offset)) as m eqn:Em.
  revert width offset Em. induction m as [m IH] using lt_wf_ind.
  intros w o Em Ho.
  destruct (Z_lt_ge_dec o length) as [Hlt | Hge].
  - rewrite truncate_loop_step by exact Hlt.
    pose proof (next_char_progress text length o Hlt) as Hp.
    destruct (_ && _); [lia |].
    match goal with
    | |- _ <= truncate_loop _ _ _ ?w' ?o' <= _ =>
        specialize (IH (Z.to_nat (length - o')) ltac:(lia) w' o' eq_refl
                      ltac:(lia))
    end.
    lia.
  - rewrite truncate_loop_exit by lia. lia.
Qed.

Lemma truncate_loop_mono text length m1 m2 :
  m1 <= m2 ->
  forall width offset,
    truncate_loop text length m1 width offset
    <= truncate_loop text length m2 width offset.
Proof.
  intros Hm width offset.
  remember (Z.to_nat (length - offset)) as m eqn:Em.
  revert width offset Em. induction m as [m IH] using lt_wf_ind.
  intros w o Em.
  destruct (Z_lt_ge_dec o length) as [Hlt | Hge].
  - rewrite (truncate_loop_step text length m1),
      (truncate_loop_step text length m2) by exact Hlt.
    pose proof (next_char_progress text length o Hlt) as Hp.
    destruct (utflite_char_width text length o >? 0); cbn [andb].
    + destruct (Z.gtb_spec (w + utflite_char_width text length o) m1) as [H1 | H1];
        destruct (Z.gtb_spec (w + utflite_char_width text length o) m2) as [H2 | H2].
      * lia.
      * pose proof (truncate_loop_range text length m2
                      (w + utflite_char_width text length o)
                      (utflite_next_char text length o) ltac:(lia)). lia.
      * lia.
      * eapply IH; [| reflexivity]. lia.
    + eapply IH; [| reflexivity]. lia.
  - rewrite !truncate_loop_exit by lia. lia.
Qed.

(** X21: [utflite_truncate] returns an offset between 0 and [length] (for a
    non-negative [length], and whatever the sign of [max_cols]), and it is
    monotone in [max_cols]: more columns never give a shorter cut. *)
Theorem truncate_monotone :
  forall (text : list byte) (length m1 m2 : Z),
    0 <= length -> m1 <= m2 ->
    0 <= utflite_truncate text length m1
    /\ utflite_truncate text length m1 <= utflite_truncate text length m2
    /\ utflite_truncate text length m2 <= length.
Proof.
  intros text length m1 m2 Hl Hm. unfold utflite_truncate.
  pose proof (truncate_loop_range text length m1 0 0 Hl).
  pose proof (truncate_loop_range text length m2 0 0 Hl).
  pose proof (truncate_loop_mono text length m1 m2 Hm 0 0).
  lia.
Qed.

(** A CJK character and ["A"]: one column is too narrow for the CJK
    character, two columns hold it. *)
Lemma truncate_monotone_witness :
  0 <= utflite_truncate text_cjk_A 4 1
  /\ utflite_truncate text_cjk_A 4 1 <= utflite_truncate text_cjk_A 4 2
  /\ utflite_truncate text_cjk_A 4 2 <= 4.
Proof. apply (truncate_monotone text_cjk_A 4 1 2); lia. Defined.

(** ** Backward navigation reads before the offset only *)

Lemma same_prefix_shorter t1 t2 n m :
  same_prefix t1 t2 n -> m <= n -> same_prefix t1 t2 m.
Proof. intros H Hm i Hi. apply H. lia. Qed.

Lemma prev_char_loop_footprint t1 t2 offset limit :
  same_prefix t1 t2 offset -> 0 <= limit ->
  forall pos, pos < offset ->
    prev_char_loop t1 limit pos = prev_char_loop t2 limit pos.
Proof.
  intros H Hl pos.
  remember (Z.to_nat (pos - limit)) as m eqn:Em.
  revert pos Em. induction m as [m IH] using lt_wf_ind. intros p Em Hp.
  rewrite (prev_char_loop_equation_1 t1), (prev_char_loop_equation_1 t2).
  destruct (Z_gt_le_dec p limit) as [Hgt | Hle];
    cbn [prev_char_loop_unfold_clause_1]; [| reflexivity].
  rewrite (H p) by lia.
  destruct (_ =? _)%N; [| reflexivity].
  eapply IH; [| reflexivity |]; lia.
Qed.

Lemma prev_char_footprint t1 t2 offset :
  same_prefix t1 t2 offset ->
  utflite_prev_char t1 offset = utflite_prev_char t2 offset.
Proof.
  intros H. unfold utflite_prev_char.
  destruct (offset <=? 0); [reflexivity |].
  apply (prev_char_loop_footprint t1 t2 offset); [exact H | | lia].
  destruct (Z.gtb_spec offset 4); lia.
Qed.

Lemma rewind_footprint t1 t2 offset :
  same_prefix t1 t2 offset ->
  forall remaining scan_start, scan_start <= offset ->
    rewind t1 remaining scan_start = rewind t2 remaining scan_start.
Proof.
  intros H remaining.
  induction remaining as [| r IH]; intros s Hs; [reflexivity |].
  cbn [rewind].
  rewrite (prev_char_footprint t1 t2 s)
    by (apply (same_prefix_shorter _ _ offset); assumption).
  destruct (Z.gtb_spec s 0) as [Hpos | Hnon]; [| reflexivity].
  destruct (_ =? _); [reflexivity |].
  apply IH. pose proof (prev_char_range t2 s ltac:(lia)). lia.
Qed.

Lemma scan_forward_footprint t1 t2 offset :
  same_prefix t1 t2 offset ->
  forall curr grapheme_start,
    scan_forward t1 offset curr grapheme_start
    = scan_forward t2 offset curr grapheme_start.
Proof.
  intros H curr.
  remember (Z.to_nat (offset - curr)) as m eqn:Em.
  revert curr Em. induction m as [m IH] using lt_wf_ind. intros c Em g.
  rewrite (scan_forward_equation_1 t1), (scan_forward_equation_1 t2).
  destruct (Z_lt_ge_dec c offset) as [Hlt | Hge];
    cbn [scan_forward_unfold_clause_1]; [| reflexivity].
  rewrite (next_grapheme_footprint t1 t2 offset c H).
  destruct (_ >=? _); [reflexivity |].
  pose proof (next_grapheme_progress (Some t2) offset c) as Hp.
  eapply IH; [| reflexivity].
  unfold utflite_next_grapheme in Hp |- *. cbv zeta in Hp. lia.
Qed.

(** X22: the backward functions read before the offset only: on two
    buffers that agree on the bytes before [offset], [utflite_prev_char] and
    [utflite_prev_grapheme] return the same offsets. *)
Theorem backward_functions_footprint :
  forall (t1 t2 : list byte) (offset : Z),
    same_prefix t1 t2 offset ->
    utflite_prev_char t1 offset = utflite_prev_char t2 offset
    /\ utflite_prev_grapheme (Some t1) offset
       = utflite_prev_grapheme (Some t2) offset.
Proof.
  intros t1 t2 offset H.
  pose proof (prev_char_footprint t1 t2 offset H) as Hp.
  split; [exact Hp |].
  unfold utflite_prev_grapheme.
  destruct (Z.leb_spec offset 0); [reflexivity |]. cbv zeta.
  rewrite Hp. destruct (_ && _); [reflexivity |].
  pose proof (prev_char_range t2 offset ltac:(lia)).
  rewrite (rewind_footprint t1 t2 offset H) by lia.
  apply scan_forward_footprint. exact H.
Qed.

(** ["e"], U+0301 and then ["X"] or ["Y"]: from offset 3 both go back
    to 0. *)
Lemma backward_functions_footprint_witness :
  utflite_prev_char [x65; xcc; x81; x58] 3
  = utflite_prev_char [x65; xcc; x81; x59] 3
  /\ utflite_prev_grapheme (Some [x65; xcc; x81; x58]) 3
     = utflite_prev_grapheme (Some [x65; xcc; x81; x59]) 3.
Proof.
  apply (backward_functions_footprint [x65; xcc; x81; x58]
           [x65; xcc; x81; x59] 3).
  intros i Hi.
  assert (i = 0 \/ i = 1 \/ i = 2) as [-> | [-> | ->]] by lia;
    reflexivity.
Defined.

